(** * prompt-vcs: a shallow embedding of the commit store and its
      commands, the dataset parser, the client and the test runner, the
      metrics and the statistical comparator, with the properties checked
      against the specification and further properties of the code.

    Conventions of the embedding.
    - A JavaScript string is a [string] (a sequence of 8-bit code units).
    - A JavaScript object used as a dictionary ([Record<string, T>]) is a
      [gmap string T] holding its own properties; what it inherits from
      [Object.prototype] is listed in [JS.Object_prototype], for the reads,
      tests and assignments of the code that go through the prototype.
    - A JavaScript [number] that carries a measurement (latency, tokens,
      cost, a sample value) is a real number [R]: rounding error, overflow
      and the non-finite values of IEEE doubles are outside the model;
      a division whose divisor is zero is reported as the separate outcome
      [NotFinite] in the statistics code, where divisors are computed.
    - Counters, lengths and indices are [nat].
    - Code that throws or touches the world is written with explicit
      results and explicit state. *)

From Stdlib Require Import Reals Lra Lia ZArith String Ascii List Bool.
From Stdlib Require Import Zfloor.
From stdpp Require Import gmap strings list fin_maps pretty.

Local Open Scope string_scope.

(* ===================================================================== *)
(** * JavaScript helpers                                                   *)
(* ===================================================================== *)
Module JS.

(** [a || b] on strings: the empty string is falsy. *)
Definition or_string (a b : string) : string :=
  match a with
  | EmptyString => b
  | _ => a
  end.

(** [s.startsWith(p)]. *)
Fixpoint startsWith (s p : string) : bool :=
  match p with
  | EmptyString => true
  | String c p' =>
      match s with
      | EmptyString => false
      | String d s' => if Ascii.eqb c d then startsWith s' p' else false
      end
  end.

(** [s.slice(0, n)] and [s.slice(n)] for [0 <= n]. *)
Fixpoint take (n : nat) (s : string) : string :=
  match n, s with
  | S n', String c s' => String c (take n' s')
  | _, _ => EmptyString
  end.

Fixpoint drop (n : nat) (s : string) : string :=
  match n, s with
  | S n', String _ s' => drop n' s'
  | _, _ => s
  end.

(** White space and line terminators among the 8-bit code units, as
    [String.prototype.trim] strips them: TAB, LF, VT, FF, CR, SP, NBSP. *)
Definition is_space (c : ascii) : bool :=
  let n := nat_of_ascii c in
  (Nat.eqb n 9 || Nat.eqb n 10 || Nat.eqb n 11 || Nat.eqb n 12
   || Nat.eqb n 13 || Nat.eqb n 32 || Nat.eqb n 160)%bool.

Fixpoint trimStart (s : string) : string :=
  match s with
  | String c s' => if is_space c then trimStart s' else s
  | EmptyString => EmptyString
  end.

(** Drops the trailing white space: a character is kept when something
    that is kept follows it, or when it is not white space itself. *)
Fixpoint trimEnd (s : string) : string :=
  match s with
  | EmptyString => EmptyString
  | String c s' =>
      match trimEnd s' with
      | EmptyString => if is_space c then EmptyString else String c EmptyString
      | t => String c t
      end
  end.

Definition trim (s : string) : string := trimEnd (trimStart s).

(** [!s] on a string. *)
Definition is_empty (s : string) : bool :=
  match s with
  | EmptyString => true
  | _ => false
  end.

(** The double quote character, as a string. *)
Definition dquote : string :=
  String (Ascii false true false false false true false false) EmptyString.

(** Truthiness of a [string | null] value: [null] and [""] are falsy. *)
Definition truthy (v : option string) : bool :=
  match v with
  | Some (String _ _) => true
  | _ => false
  end.

(** The properties that an object literal, or an object that [JSON.parse]
    made, inherits from [Object.prototype], as Node lists them. A read
    [object[key]] and the test [key in object] find them when the object
    has no own property of that name. *)
Definition Object_prototype : list string :=
  [ "constructor"; "__defineGetter__"; "__defineSetter__"; "hasOwnProperty";
    "__lookupGetter__"; "__lookupSetter__"; "isPrototypeOf";
    "propertyIsEnumerable"; "toString"; "valueOf"; "__proto__";
    "toLocaleString" ].

Definition inherited (key : string) : bool :=
  bool_decide (key ∈ Object_prototype).

(** [String(object[key])] for an inherited property: [__proto__] is the
    prototype itself, [constructor] is the function [Object], the others
    are built-in functions of their own name. *)
Definition inherited_text (key : string) : string :=
  if String.eqb key "__proto__" then "[object Object]"
  else
    "function " +:+ (if String.eqb key "constructor" then "Object" else key)
    +:+ "() { [native code] }".

(** [object[key] = value] on such an object. The property [__proto__] of
    [Object.prototype] is an accessor: unless the object has an own
    property of that name, the assignment calls the setter, which changes
    the prototype of the object and adds no property. *)
Definition assign {T : Type} (key : string) (value : T)
  (object : gmap string T) : gmap string T :=
  match object !! key with
  | Some _ => <[key := value]> object
  | None =>
      if String.eqb key "__proto__" then object else <[key := value]> object
  end.

(** A call either returns or throws an [Error] with a message. *)
Inductive result (A : Type) : Type :=
| Returns (a : A)
| Throws (message : string).
Arguments Returns {A} a.
Arguments Throws {A} message.

End JS.

(* ===================================================================== *)
(** * Template rendering: [TestRunner.replaceVariables]                    *)
(* ===================================================================== *)
Module Template.

(** The class [\w] of a regular expression without the [u] and [i]
    flags: [A-Za-z0-9_]. *)
Definition is_word_char (c : ascii) : bool :=
  let n := nat_of_ascii c in
  ((Nat.leb 48 n && Nat.leb n 57) || (Nat.leb 65 n && Nat.leb n 90)
   || (Nat.leb 97 n && Nat.leb n 122) || Nat.eqb n 95)%bool.

(** The longest prefix of word characters, and what follows it. *)
Fixpoint span_word (s : string) : string * string :=
  match s with
  | String c s' =>
      if is_word_char c
      then let '(w, r) := span_word s' in (String c w, r)
      else (EmptyString, s)
  | EmptyString => (EmptyString, EmptyString)
  end.

(** One attempt of [/\{\{(\w+)\}\}/] at the head of [s]: the captured key
    and the text after the match. The greedy [\w+] takes the longest run;
    giving characters back cannot help, since the character after a
    shorter run is a word character and not a closing brace. *)
Definition match_token (s : string) : option (string * string) :=
  match s with
  | String "{" (String "{" s1) =>
      match span_word s1 with
      | (String c w, String "}" (String "}" rest)) => Some (String c w, rest)
      | _ => None
      end
  | _ => None
  end.

(** The replacer callback:
    [(match, key) => inputs[key] !== undefined ? inputs[key] : ''].
    The read goes through the prototype chain: for a key that the inputs
    do not hold and that [Object.prototype] defines, the callback returns
    the inherited value, and [replace] inserts its text. *)
Definition replacer (inputs : gmap string string) (key : string) : string :=
  match inputs !! key with
  | Some v => v
  | None => if JS.inherited key then JS.inherited_text key else ""
  end.

(** [template.replace(re, replacer)] with the global flag: scan from the
    left; at a match emit the replacement and go on after the match, else
    emit the character and go on one character further. *)
Fixpoint replace_from (fuel : nat) (inputs : gmap string string) (s : string)
  : string :=
  match fuel with
  | O => s
  | S fuel' =>
      match match_token s with
      | Some (key, rest) => replacer inputs key +:+ replace_from fuel' inputs rest
      | None =>
          match s with
          | EmptyString => EmptyString
          | String c s' => String c (replace_from fuel' inputs s')
          end
      end
  end.

Definition replaceVariables (template : string) (inputs : gmap string string)
  : string :=
  replace_from (S (String.length template)) inputs template.

(** ** What a token is, independently of the scanner *)

Definition word (w : string) : Prop :=
  w <> "" /\ Forall (fun c => is_word_char c = true) (list_ascii_of_string w).

Definition token (name : string) : string := "{{" +:+ name +:+ "}}".

Definition has_token (s : string) : Prop :=
  exists pre name post, word name /\ s = pre +:+ token name +:+ post.

End Template.

(* ===================================================================== *)
(** * The commit store: [ObjectStorage], [Repository], [commitCommand],
      and the two commit resolvers                                         *)
(* ===================================================================== *)
Module Repo.
Import JS.

(** [types/index.ts] *)
Record StagedFile : Type := { sf_hash : string; sf_path : string }.

Record Index : Type := { staged : gmap string StagedFile }.

Record Commit : Type := {
  tree : gmap string string;        (* filepath -> hash *)
  parent : option string;           (* string | null *)
  message : string;
  timestamp : string
}.

(** [RepositoryObject = Blob | Commit], told apart by the [type] field. *)
Inductive RepositoryObject : Type :=
| BlobObj (content : string)
| CommitObj (c : Commit).

(** The [.pvc] directory. [index_json] and [HEAD_file] are the two files
    when they exist ([index.json] parsed); [objects] maps the path
    [objects/<dir>/<file>] to the content of the file. *)
Record Repository : Type := {
  pvc_exists : bool;
  index_json : option Index;
  HEAD_file : option string;
  objects : gmap (string * string) string
}.

(** One line written to the console. *)
Inductive line : Type :=
| Log (text : string)        (* console.log *)
| Error (text : string).     (* console.error *)

(** How a command ends: with an exit code, or with an exception that
    nothing catches. *)
Inductive completion : Type :=
| Exit (code : nat)
| Uncaught (message : string).

Record run : Type := {
  ended : completion;
  console : list line;
  repo_after : Repository
}.

(** [ObjectStorage.getObjectPath]: [hash.slice(0, 2)] is the directory,
    [hash.slice(2)] the file. The place is kept as these two parts: for
    the names that [hashContent] gives, with neither a separator nor a
    dot in them, two places are one file exactly when the parts are the
    same, which [path.join] does not warrant for other names. *)
Definition getObjectPath (hash : string) : string * string :=
  (take 2 hash, drop 2 hash).

(** [ObjectStorage.writeObject] *)
Definition writeObject (hash content : string) (repo : Repository) : Repository :=
  {| pvc_exists := pvc_exists repo;
     index_json := index_json repo;
     HEAD_file := HEAD_file repo;
     objects := <[getObjectPath hash := content]> (objects repo) |}.

(** [ObjectStorage.readObject] *)
Definition readObject (repo : Repository) (hash : string) : result string :=
  match objects repo !! getObjectPath hash with
  | Some content => Returns content
  | None => Throws ("Object not found: " +:+ hash)
  end.

(** [Repository.isInitialized] *)
Definition isInitialized (repo : Repository) : bool := pvc_exists repo.

(** [Repository.readIndex]; reading a missing file throws. *)
Definition readIndex (repo : Repository) : result Index :=
  match index_json repo with
  | Some index => Returns index
  | None => Throws "ENOENT: no such file or directory, open 'index.json'"
  end.

(** [Repository.writeIndex] *)
Definition writeIndex (index : Index) (repo : Repository) : Repository :=
  {| pvc_exists := pvc_exists repo;
     index_json := Some index;
     HEAD_file := HEAD_file repo;
     objects := objects repo |}.

(** [Repository.getHead]: [null] without the file, else its trimmed text. *)
Definition getHead (repo : Repository) : option string :=
  match HEAD_file repo with
  | None => None
  | Some text => Some (trim text)
  end.

(** [Repository.setHead] *)
Definition setHead (commitHash : string) (repo : Repository) : Repository :=
  {| pvc_exists := pvc_exists repo;
     index_json := index_json repo;
     HEAD_file := Some commitHash;
     objects := objects repo |}.

(** [truncateHash] *)
Definition truncateHash (hash : string) : string := take 7 hash.

(** [Object.keys(index.staged)] *)
Definition Object_keys {V : Type} (o : gmap string V) : list string :=
  (map_to_list o).*1.

(** The loop [for (const path of stagedFiles) tree[path] = index.staged[path].hash]
    from the empty tree. *)
Definition buildTree (stagedFiles : list string) (index : Index)
  : gmap string string :=
  fold_left
    (fun tree path =>
       match staged index !! path with
       | Some file => <[path := sf_hash file]> tree
       | None => tree
       end)
    stagedFiles ∅.

Section WithCodec.

(** The runtime's services: SHA-256 in hexadecimal, [JSON.stringify] on
    the objects of the store, and [JSON.parse] on the content of a file
    ([None] when it throws). *)
Variable hashContent : string -> string.
Variable JSON_stringify : RepositoryObject -> string.
Variable JSON_parse : string -> option RepositoryObject.

(** [commitCommand(cwd, message)]; [now] is [new Date().toISOString()]. *)
Definition commitCommand (repo : Repository) (message now : string) : run :=
  if negb (isInitialized repo) then
    {| ended := Exit 2;
       console := [Error "Error: not a prompt-vcs repository (.pvc not found)"];
       repo_after := repo |}
  else if is_empty message || is_empty (trim message) then
    {| ended := Exit 1;
       console := [Error ("Error: commit message required (-m " +:+ dquote
                          +:+ "message" +:+ dquote +:+ ")")];
       repo_after := repo |}
  else
    match readIndex repo with
    | Throws e => {| ended := Uncaught e; console := []; repo_after := repo |}
    | Returns index =>
        let stagedFiles := Object_keys (staged index) in
        if Nat.eqb (length stagedFiles) 0 then
          {| ended := Exit 3;
             console := [Error "Error: nothing to commit (no staged files)"];
             repo_after := repo |}
        else
          let tree := buildTree stagedFiles index in
          let commit :=
            {| tree := tree;
               parent := getHead repo;
               message := trim message;
               timestamp := now |} in
          let commitContent := JSON_stringify (CommitObj commit) in
          let commitHash := hashContent commitContent in
          let repo1 := writeObject commitHash commitContent repo in
          let repo2 := setHead commitHash repo1 in
          let repo3 := writeIndex {| staged := ∅ |} repo2 in
          {| ended := Exit 0;
             console := [Log ("[" +:+ truncateHash commitHash +:+ "] " +:+ message)];
             repo_after := repo3 |}
    end.

(** [Repository.getCommit]: [null] when the object is missing, does not
    parse, or is not of type ["commit"]. *)
Definition getCommit (repo : Repository) (hash : string) : option Commit :=
  match readObject repo hash with
  | Throws _ => None
  | Returns content =>
      match JSON_parse content with
      | Some (CommitObj commit) => Some commit
      | _ => None
      end
  end.

(** [Repository.resolveCommit] (used by the [test] command). *)
Definition resolveCommit (repo : Repository) (ref : string) : option string :=
  match (if Nat.leb 7 (String.length ref) then getCommit repo ref else None) with
  | Some _ => Some ref
  | None => if String.eqb ref "HEAD" then getHead repo else None
  end.

(** [getCommit] of [commands/diff.ts]: no check of the type; the [parent]
    of a blob is [undefined]. *)
Definition diff_getCommit_parent (repo : Repository) (hash : string)
  : result (option string) :=
  match readObject repo hash with
  | Throws e => Throws e
  | Returns content =>
      match JSON_parse content with
      | None => Throws "SyntaxError: Unexpected token in JSON"
      | Some (CommitObj commit) => Returns (parent commit)
      | Some (BlobObj _) => Returns None
      end
  end.

(** The loop [while (currentHash)] of [resolveCommit] in [commands/diff.ts];
    [None] when [fuel] iterations did not end it. *)
Fixpoint diff_walk (fuel : nat) (repo : Repository) (shortHash : string)
  (currentHash : option string) : option (result string) :=
  match currentHash with
  | Some (String c h) =>
      let current := String c h in
      if startsWith current shortHash then Some (Returns current)
      else
        match fuel with
        | O => None
        | S fuel' =>
            match diff_getCommit_parent repo current with
            | Throws e => Some (Throws e)
            | Returns next => diff_walk fuel' repo shortHash next
            end
        end
  | _ => Some (Throws ("Invalid commit: " +:+ shortHash))
  end.

(** [resolveCommit(repo, shortHash)] of [commands/diff.ts]. A chain without
    a cycle reads every object at most once and then stops, so one
    iteration more than there are objects ends it; the result is [None]
    when the loop does not end. *)
Definition diff_resolveCommit (repo : Repository) (shortHash : string)
  : option (result string) :=
  let headHash := getHead repo in
  if negb (truthy headHash) then Some (Throws "No commits found")
  else diff_walk (S (size (objects repo))) repo shortHash headHash.

(** The digests that loop goes through when nothing matches: the chain of
    parents from [current] down to a commit whose parent is [null]. *)
Inductive commit_chain (repo : Repository)
  : option string -> list string -> Prop :=
| chain_end (current : option string) :
    truthy current = false -> commit_chain repo current []
| chain_parent (hash : string) (next : option string) (rest : list string) :
    truthy (Some hash) = true ->
    diff_getCommit_parent repo hash = Returns next ->
    commit_chain repo next rest ->
    commit_chain repo (Some hash) (hash :: rest).

End WithCodec.

(** The command has no exception class for a rejected input: it reports
    it with one line on [console.error] and through its exit code, 1 for a
    missing message and 3 when there is nothing to commit. *)
Definition ValidationError (r : run) : Prop :=
  exists code text,
    (code = 1 \/ code = 3) /\ ended r = Exit code /\ console r = [Error text].

(** ** The resolver of the specification

    [resolve(ref)] as the specification words it: ["HEAD"] is the current
    pointer; any other token is matched as a prefix against the digests of
    the chain of parents that starts at HEAD, and the first match is the
    result. [chain] lists the digests of that chain, HEAD first. *)
Definition spec_resolve (head : option string) (chain : list string)
  (ref : string) : option string :=
  if String.eqb ref "HEAD" then head
  else List.find (fun digest => startsWith digest ref) chain.

End Repo.

(* ===================================================================== *)
(** * Numbers                                                              *)
(* ===================================================================== *)
Module Num.
Local Open Scope R_scope.

(** [Number(x.toFixed(digits))]: [x] rounded to [digits] decimals, a tie
    going away from zero; from 1e21 on [toFixed] prints the number itself. *)
Definition toFixed (digits : nat) (x : R) : R :=
  if Rle_dec (10 ^ 21) (Rabs x) then x
  else
    let scale := 10 ^ digits in
    (if Rlt_dec x 0 then -1 else 1)
    * IZR (Zfloor (Rabs x * scale + / 2)) / scale.

(** [values.reduce((a, b) => a + b, 0)] *)
Definition sum (values : list R) : R := fold_left Rplus values 0.

End Num.

(* ===================================================================== *)
(** * The provider client: [OpenAIClient]                                  *)
(* ===================================================================== *)
Module OpenAI.
Import JS.

Record ChatMessage : Type := { role : string; content : string }.

(** [ChatCompletionRequest] *)
Record ChatCompletionRequest : Type := {
  model : string;
  messages : list ChatMessage;
  temperature : option R;
  max_tokens : option R
}.

Record Choice : Type := { message_content : string; finish_reason : string }.

Record Usage : Type := {
  prompt_tokens : R;
  completion_tokens : R;
  total_tokens : R
}.

(** [ChatCompletionResponse] *)
Record ChatCompletionResponse : Type := {
  id : string;
  choices : list Choice;
  usage : Usage
}.

(** The provider's library, [client.chat.completions.create]: what it is
    called with, and what it answers. The content of a choice may be
    [null] and the usage may be missing. *)
Record SdkRequest : Type := {
  sdk_model : string;
  sdk_messages : list ChatMessage;
  sdk_temperature : R;
  sdk_max_tokens : option R
}.

Record SdkChoice : Type := {
  sdk_content : option string;
  sdk_finish_reason : string
}.

Record SdkUsage : Type := {
  sdk_prompt_tokens : R;
  sdk_completion_tokens : R;
  sdk_total_tokens : R
}.

Record SdkResponse : Type := {
  sdk_id : string;
  sdk_choices : list SdkChoice;
  sdk_usage : option SdkUsage
}.

(** A failed call throws an [Error] with a message, or some other value.
    The class [OpenAIError] belongs to the client's module: the library
    cannot throw an instance of it, so the client's clause
    [if (error instanceof OpenAIError) throw error] never applies. *)
Inductive SdkThrown : Type :=
| SdkError (message : string)
| SdkOther.

Inductive SdkOutcome : Type :=
| SdkReturns (response : SdkResponse)
| SdkThrows (thrown : SdkThrown).

(** [x || ''] on [string | null] and [x || 0] on an optional number. *)
Definition or_empty (v : option string) : string :=
  match v with
  | Some s => s
  | None => ""
  end.

Definition usage_or_0 (u : option SdkUsage) (field : SdkUsage -> R) : R :=
  match u with
  | Some u => field u
  | None => 0%R
  end.

Section WithProvider.

(** The world outside: the provider reached through its library, the
    clock and the timers. [Env] is the state of that world. *)
Variable Env : Type.
Variable sdk_create : SdkRequest -> Env -> SdkOutcome * Env.

(** [OpenAIClient.createChatCompletion]: a failure of the library becomes
    an [OpenAIError] whose message starts with ["API request failed: "]. *)
Definition createChatCompletion (request : ChatCompletionRequest) (e : Env)
  : result ChatCompletionResponse * Env :=
  let '(outcome, e') :=
    sdk_create
      {| sdk_model := model request;
         sdk_messages := messages request;
         sdk_temperature :=
           match temperature request with Some t => t | None => 0.7%R end;
         sdk_max_tokens := max_tokens request |} e in
  match outcome with
  | SdkReturns response =>
      (Returns
         {| id := sdk_id response;
            choices :=
              List.map
                (fun choice =>
                   {| message_content := or_empty (sdk_content choice);
                      finish_reason := sdk_finish_reason choice |})
                (sdk_choices response);
            usage :=
              {| prompt_tokens :=
                   usage_or_0 (sdk_usage response) sdk_prompt_tokens;
                 completion_tokens :=
                   usage_or_0 (sdk_usage response) sdk_completion_tokens;
                 total_tokens :=
                   usage_or_0 (sdk_usage response) sdk_total_tokens |} |},
       e')
  | SdkThrows thrown =>
      (Throws
         ("API request failed: "
          +:+ match thrown with
              | SdkError message => message
              | SdkOther => "Unknown error"
              end),
       e')
  end.

End WithProvider.

End OpenAI.

(* ===================================================================== *)
(** * The test runner: [TestRunner]                                        *)
(* ===================================================================== *)

(** [TestCase] of [types/test.ts] *)
Module TestCase.
Record t : Type := {
  name : string;
  inputs : gmap string string;
  expectedOutput : option string
}.
End TestCase.

(** [TestCaseResult] of [types/test.ts]; [error] and [output] are
    optional fields. *)
Module TestCaseResult.
Record t : Type := {
  name : string;
  success : bool;
  latency : R;
  inputTokens : R;
  outputTokens : R;
  cost : R;
  error : option string;
  output : option string
}.
End TestCaseResult.

Module Runner.
Import JS OpenAI.
Local Open Scope R_scope.

Record Dataset : Type := { testCases : list TestCase.t }.

Record TestRunnerOptions : Type := {
  opt_model : string;
  concurrency : nat;
  maxRetries : nat;
  apiKey : string
}.

Record MetricsSummary : Type := {
  avgLatency : R;
  avgInputTokens : R;
  avgOutputTokens : R;
  avgCost : R;
  successRate : R;
  totalCount : nat;
  successCount : nat
}.

Record VersionResult : Type := {
  vr_testCases : list TestCaseResult.t;
  summary : MetricsSummary
}.

Record Pricing : Type := { input : R; output : R }.

(** Cost per 1K tokens, in USD. *)
Definition MODEL_PRICING : list (string * Pricing) :=
  [ ("gpt-4", {| input := 0.03; output := 0.06 |});
    ("gpt-4-0613", {| input := 0.03; output := 0.06 |});
    ("gpt-4-32k", {| input := 0.06; output := 0.12 |});
    ("gpt-4o", {| input := 0.005; output := 0.015 |});
    ("gpt-4o-mini", {| input := 0.00015; output := 0.0006 |});
    ("gpt-3.5-turbo", {| input := 0.0015; output := 0.002 |});
    ("gpt-3.5-turbo-0125", {| input := 0.0005; output := 0.0015 |}) ].

Definition gpt4_pricing : Pricing := {| input := 0.03; output := 0.06 |}.

(** [MODEL_PRICING[key]] for a key of the table. *)
Definition pricing_of (key : string) : Pricing :=
  match List.find (fun entry => String.eqb entry.1 key) MODEL_PRICING with
  | Some entry => entry.2
  | None => gpt4_pricing
  end.

(** [getModelPricing]: the exact name first, then the prefixes in the
    order of the source, then the price of gpt-4. The test
    [MODEL_PRICING[model]] of the exact name is modelled on the entries of
    the table. It also succeeds for a name that [Object.prototype] defines
    ([JS.inherited]): there the code returns the inherited value, whose
    prices are [undefined], and the cost is NaN, one of the non-finite
    values outside the model. *)
Definition getModelPricing (model : string) : Pricing :=
  match List.find (fun entry => String.eqb entry.1 model) MODEL_PRICING with
  | Some entry => entry.2
  | None =>
      if startsWith model "gpt-4o-mini" then pricing_of "gpt-4o-mini"
      else if startsWith model "gpt-4o" then pricing_of "gpt-4o"
      else if startsWith model "gpt-4-32k" then pricing_of "gpt-4-32k"
      else if startsWith model "gpt-4" then pricing_of "gpt-4"
      else if startsWith model "gpt-3.5-turbo-0125" then pricing_of "gpt-3.5-turbo-0125"
      else if startsWith model "gpt-3.5-turbo" then pricing_of "gpt-3.5-turbo"
      else pricing_of "gpt-4"
  end.

(** [calculateCost] *)
Definition calculateCost (model : string) (inputTokens outputTokens : R) : R :=
  let pricing := getModelPricing model in
  let inputCost := (inputTokens / 1000) * input pricing in
  let outputCost := (outputTokens / 1000) * output pricing in
  Num.toFixed 6 (inputCost + outputCost).

(** ** Asynchronous code

    An [async] function is a tree of the effects it performs: reading the
    clock, which does not suspend it, and the two [await]s of the runner,
    the call of the client and the timer of [sleep]. *)
Inductive prog (A : Type) : Type :=
| Ret (a : A)
| Now (k : R -> prog A)                      (* Date.now() *)
| Call (request : ChatCompletionRequest)
       (k : result ChatCompletionResponse -> prog A)
                                             (* await client.createChatCompletion *)
| Sleep (ms : R) (k : prog A).               (* await this.sleep(ms) *)
Arguments Ret {A} a.
Arguments Now {A} k.
Arguments Call {A} request k.
Arguments Sleep {A} ms k.

Section WithOptions.

Variable options : TestRunnerOptions.

(** The record returned when a call succeeded at the time [now]. *)
Definition success_result (testCase : TestCase.t) (startTime now : R)
  (response : ChatCompletionResponse) : TestCaseResult.t :=
  let latency := now - startTime in
  let inputTokens := prompt_tokens (usage response) in
  let outputTokens := completion_tokens (usage response) in
  let cost := calculateCost (opt_model options) inputTokens outputTokens in
  {| TestCaseResult.name := TestCase.name testCase;
     TestCaseResult.success := true;
     TestCaseResult.latency := latency;
     TestCaseResult.inputTokens := inputTokens;
     TestCaseResult.outputTokens := outputTokens;
     TestCaseResult.cost := cost;
     TestCaseResult.error := None;
     TestCaseResult.output :=
       Some (match choices response with
             | choice :: _ => message_content choice
             | [] => ""
             end) |}.

Definition succeeded (testCase : TestCase.t) (startTime : R)
  (response : ChatCompletionResponse) : prog TestCaseResult.t :=
  Now (fun now => Ret (success_result testCase startTime now response)).

(** The record returned after the loop, at the time [now]: [lastError] is
    the message of the last error caught, [None] when none was caught;
    the error is [lastError?.message || 'Unknown error']. *)
Definition failure_result (testCase : TestCase.t) (startTime now : R)
  (lastError : option string) : TestCaseResult.t :=
  {| TestCaseResult.name := TestCase.name testCase;
     TestCaseResult.success := false;
     TestCaseResult.latency := now - startTime;
     TestCaseResult.inputTokens := 0;
     TestCaseResult.outputTokens := 0;
     TestCaseResult.cost := 0;
     TestCaseResult.error :=
       Some (match lastError with
             | Some message => or_string message "Unknown error"
             | None => "Unknown error"
             end);
     TestCaseResult.output := None |}.

Definition exhausted (testCase : TestCase.t) (startTime : R)
  (lastError : option string) : prog TestCaseResult.t :=
  Now (fun now => Ret (failure_result testCase startTime now lastError)).

(** The loop [for (let attempt = 0; attempt <= maxRetries; attempt++)]:
    [remaining] counts the iterations still allowed,
    [maxRetries + 1 - attempt]. *)
Fixpoint attempts (testCase : TestCase.t) (prompt : string) (startTime : R)
  (remaining attempt : nat) (lastError : option string)
  : prog TestCaseResult.t :=
  match remaining with
  | O => exhausted testCase startTime lastError
  | S remaining' =>
      Call {| model := opt_model options;
              messages := [ {| role := "user"; content := prompt |} ];
              temperature := None;
              max_tokens := None |}
        (fun answer =>
           match answer with
           | Returns response => succeeded testCase startTime response
           | Throws message =>
               let lastError := Some message in
               if Nat.ltb attempt (maxRetries options) then
                 (* Exponential backoff: 1000ms, 2000ms, 4000ms... *)
                 let delay := 2 ^ attempt * 1000 in
                 Sleep delay
                   (attempts testCase prompt startTime remaining'
                      (S attempt) lastError)
               else
                 attempts testCase prompt startTime remaining'
                   (S attempt) lastError
           end)
  end.

(** [TestRunner.executeTestCase] *)
Definition executeTestCase (testCase : TestCase.t) (promptTemplate : string)
  : prog TestCaseResult.t :=
  let prompt :=
    Template.replaceVariables promptTemplate (TestCase.inputs testCase) in
  Now (fun startTime =>
    attempts testCase prompt startTime (S (maxRetries options)) 0 None).

(** [TestRunner.average] *)
Definition average (values : list R) : R :=
  if Nat.eqb (length values) 0 then 0
  else Num.sum values / INR (length values).

(** [TestRunner.calculateSummary] *)
Definition calculateSummary (results : list TestCaseResult.t) : MetricsSummary :=
  let totalCount := length results in
  let successCount := length (List.filter TestCaseResult.success results) in
  let successRate :=
    if Nat.ltb 0 totalCount then INR successCount / INR totalCount else 0 in
  let successfulResults := List.filter TestCaseResult.success results in
  if Nat.eqb (length successfulResults) 0 then
    {| avgLatency := 0; avgInputTokens := 0; avgOutputTokens := 0;
       avgCost := 0; successRate := 0;
       totalCount := totalCount; successCount := 0 |}
  else
    let avgLatency := average (List.map TestCaseResult.latency successfulResults) in
    let avgInputTokens :=
      average (List.map TestCaseResult.inputTokens successfulResults) in
    let avgOutputTokens :=
      average (List.map TestCaseResult.outputTokens successfulResults) in
    let avgCost := average (List.map TestCaseResult.cost successfulResults) in
    {| avgLatency := Num.toFixed 2 avgLatency;
       avgInputTokens := Num.toFixed 2 avgInputTokens;
       avgOutputTokens := Num.toFixed 2 avgOutputTokens;
       avgCost := Num.toFixed 6 avgCost;
       successRate := Num.toFixed 2 successRate;
       totalCount := totalCount;
       successCount := successCount |}.

(** ** One case alone

    The effects of a program, performed in order against the world. The
    trace lists the calls of the client, each with its answer, and the
    timers, oldest first. *)
Inductive event : Type :=
| Called (request : ChatCompletionRequest)
         (answer : result ChatCompletionResponse)
| Slept (ms : R).

Section WithWorld.

Variable Env : Type.
Variable sdk_create : SdkRequest -> Env -> SdkOutcome * Env.
Variable Date_now : Env -> R.          (* the clock, in milliseconds *)
Variable timer : R -> Env -> Env.      (* a timer of so many ms has fired *)

Record World : Type := { env : Env; trace : list event }.

Fixpoint exec {A : Type} (p : prog A) (w : World) : A * World :=
  match p with
  | Ret a => (a, w)
  | Now k => exec (k (Date_now (env w))) w
  | Call request k =>
      let '(answer, e') := createChatCompletion Env sdk_create request (env w) in
      exec (k answer)
        {| env := e'; trace := trace w ++ [Called request answer] |}
  | Sleep ms k =>
      exec k {| env := timer ms (env w); trace := trace w ++ [Slept ms] |}
  end.

(** ** A dataset under a limit of concurrency

    A started case is suspended at an [await], or has its result and
    waits for its promise to be settled. *)
Inductive suspended : Type :=
| Finished (result : TestCaseResult.t)
| AwaitCall (request : ChatCompletionRequest)
            (k : result ChatCompletionResponse -> prog TestCaseResult.t)
| AwaitSleep (ms : R) (k : prog TestCaseResult.t).

(** Runs a program up to its next [await]: reading the clock does not
    suspend. *)
Fixpoint settle (p : prog TestCaseResult.t) (e : Env) : suspended :=
  match p with
  | Ret a => Finished a
  | Now k => settle (k (Date_now e)) e
  | Call request k => AwaitCall request k
  | Sleep ms k => AwaitSleep ms k
  end.

Record task : Type := {
  index : nat;                  (* position of the case in the dataset *)
  testCase : TestCase.t;
  state : suspended
}.

(** The state of one [run]: the cases [p-limit] has queued, the cases in
    flight, the array of [Promise.all] (one slot per case, filled when
    the promise of the case is settled), the counter [completed], the
    calls of the progress callback, and the world. *)
Record pool : Type := {
  queue : list (nat * TestCase.t);
  active : list task;
  results : list (option TestCaseResult.t);
  completed : nat;
  notified : list (nat * nat * string);
  world : World
}.

(** [p-limit] takes the next case of its queue, if any: [runTestCase]
    runs up to its first [await]. *)
Definition start_next (promptA : string) (p : pool) : pool :=
  match queue p with
  | [] => p
  | (i, tc) :: rest =>
      {| queue := rest;
         active :=
           active p
           ++ [ {| index := i;
                   testCase := tc;
                   state := settle (executeTestCase tc promptA)
                              (env (world p)) |} ];
         results := results p;
         completed := completed p;
         notified := notified p;
         world := world p |}
  end.

Fixpoint fill (slots : nat) (promptA : string) (p : pool) : pool :=
  match slots with
  | O => p
  | S slots' => fill slots' promptA (start_next promptA p)
  end.

(** One turn of the event loop: the case in flight that [choice] selects
    goes on. A call of the client answers and the case runs to its next
    [await]; a timer fires likewise; a case that has its result settles
    its promise: [completed++], the progress callback, the slot of the
    case in the array, and [p-limit] starts the next queued case. *)
Definition step (promptA : string) (total : nat) (has_callback : bool)
  (p : pool) (choice : nat) : pool :=
  let j := (choice mod length (active p))%nat in
  match active p !! j with
  | None => p
  | Some t =>
      match state t with
      | Finished r =>
          let completed' := S (completed p) in
          start_next promptA
            {| queue := queue p;
               active := delete j (active p);
               results := <[index t := Some r]> (results p);
               completed := completed';
               notified :=
                 if has_callback
                 then notified p
                      ++ [(completed', total, TestCase.name (testCase t))]
                 else notified p;
               world := world p |}
      | AwaitCall request k =>
          let '(answer, e') :=
            createChatCompletion Env sdk_create request (env (world p)) in
          {| queue := queue p;
             active :=
               <[j := {| index := index t;
                         testCase := testCase t;
                         state := settle (k answer) e' |}]> (active p);
             results := results p;
             completed := completed p;
             notified := notified p;
             world := {| env := e';
                         trace := trace (world p)
                                  ++ [Called request answer] |} |}
      | AwaitSleep ms k =>
          let e' := timer ms (env (world p)) in
          {| queue := queue p;
             active :=
               <[j := {| index := index t;
                         testCase := testCase t;
                         state := settle k e' |}]> (active p);
             results := results p;
             completed := completed p;
             notified := notified p;
             world := {| env := e';
                         trace := trace (world p) ++ [Slept ms] |} |}
      end
  end.

(** The values of an array of settled promises, when all are settled. *)
Fixpoint collect (slots : list (option TestCaseResult.t))
  : option (list TestCaseResult.t) :=
  match slots with
  | [] => Some []
  | Some r :: rest =>
      match collect rest with
      | Some rs => Some (r :: rs)
      | None => None
      end
  | None :: _ => None
  end.

(** How [run] stands after the turns of a schedule. *)
Inductive run_outcome : Type :=
| Resolved (value : VersionResult) (final : pool)
| Rejected (message : string)
| Pending (current : pool).

(** [TestRunner.run(dataset, promptA, promptB)]. The schedule lists, turn
    by turn, which of the cases in flight goes on; [p-limit] rejects a
    limit that is not a positive integer. *)
Definition run (has_callback : bool) (dataset : Dataset)
  (promptA promptB : string) (schedule : list nat) (w : World) : run_outcome :=
  if Nat.eqb (concurrency options) 0 then
    Rejected "Expected `concurrency` to be a number from 1 and up"
  else
    let total := length (testCases dataset) in
    let start :=
      fill (concurrency options) promptA
        {| queue := imap (fun i tc => (i, tc)) (testCases dataset);
           active := [];
           results := replicate total None;
           completed := 0;
           notified := [];
           world := w |} in
    let final := fold_left (step promptA total has_callback) schedule start in
    match queue final, active final, collect (results final) with
    | [], [], Some values =>
        Resolved {| vr_testCases := values;
                    summary := calculateSummary values |} final
    | _, _, _ => Pending final
    end.

End WithWorld.

End WithOptions.

(** ** Specification vocabulary *)

(** [produces p r]: [r] is a value that the program [p] can return. *)
Inductive produces {A : Type} : prog A -> A -> Prop :=
| produces_ret (a : A) : produces (Ret a) a
| produces_now (k : R -> prog A) (now : R) (a : A) :
    produces (k now) a -> produces (Now k) a
| produces_call (request : ChatCompletionRequest)
    (k : result ChatCompletionResponse -> prog A)
    (answer : result ChatCompletionResponse) (a : A) :
    produces (k answer) a -> produces (Call request k) a
| produces_sleep (ms : R) (k : prog A) (a : A) :
    produces k a -> produces (Sleep ms k) a.

(** [within n p]: [p] returns after at most [n] [await]s. *)
Inductive within {A : Type} : nat -> prog A -> Prop :=
| within_ret (n : nat) (a : A) : within n (Ret a)
| within_now (n : nat) (k : R -> prog A) :
    (forall now, within n (k now)) -> within n (Now k)
| within_call (n : nat) (request : ChatCompletionRequest)
    (k : result ChatCompletionResponse -> prog A) :
    (forall answer, within n (k answer)) -> within (S n) (Call request k)
| within_sleep (n : nat) (ms : R) (k : prog A) :
    within n k -> within (S n) (Sleep ms k).

(** A suspended case, as the program that goes on when it is resumed. *)
Definition resume_of (s : suspended) : prog TestCaseResult.t :=
  match s with
  | Finished r => Ret r
  | AwaitCall request k => Call request k
  | AwaitSleep ms k => Sleep ms k
  end.

(** [bounded_tasks l n]: the cases [l] in flight are all settled after at
    most [n] turns of the event loop: a case needs one turn for each of
    its [await]s and one more to settle its promise. *)
Inductive bounded_tasks : list task -> nat -> Prop :=
| bounded_nil : bounded_tasks [] 0
| bounded_cons (t : task) (l : list task) (b n : nat) :
    within b (resume_of (state t)) ->
    bounded_tasks l n ->
    bounded_tasks (t :: l) (S b + n).

(** ** The invariant of a run

    [cases] is the dataset. A pool is sound when every queued or started
    case is the case of the dataset at its index, a started case can only
    return what [executeTestCase] returns for it, the array has one slot
    per case, a filled slot holds a result of the case at that index, and
    every case is queued, in flight, or has its slot filled. *)
Section Invariant.

Variable options : TestRunnerOptions.
Variable Env : Type.
Variable promptA : string.
Variable cases : list TestCase.t.

Record pool_sound (p : pool Env) : Prop := {
  sound_queue :
    forall i tc, (i, tc) ∈ queue Env p -> cases !! i = Some tc;
  sound_active :
    forall t, t ∈ active Env p ->
      cases !! index t = Some (testCase t)
      /\ forall r, produces (resume_of (state t)) r ->
                   produces (executeTestCase options (testCase t) promptA) r;
  sound_length : length (results Env p) = length cases;
  sound_results :
    forall i r, results Env p !! i = Some (Some r) ->
      exists tc, cases !! i = Some tc
                 /\ produces (executeTestCase options tc promptA) r;
  sound_covered :
    forall i : nat, (i < length cases)%nat ->
      (exists tc, (i, tc) ∈ queue Env p)
      \/ (exists t, t ∈ active Env p /\ index t = i)
      \/ (exists r, results Env p !! i = Some (Some r))
}.

(** [p-limit] leaves no case queued while no case is in flight. *)
Definition pool_ok (p : pool Env) : Prop :=
  pool_sound p /\ (queue Env p <> [] -> active Env p <> []).

(** The whole pool is settled after at most [m] turns: a queued case
    needs at most two turns for each attempt and one to settle. *)
Definition settles_within (p : pool Env) (m : nat) : Prop :=
  exists n,
    bounded_tasks (active Env p) n
    /\ (n + length (queue Env p) * S (2 * S (maxRetries options)) <= m)%nat.

End Invariant.

(** The calls of the client in a trace. *)
Definition calls (events : list event) : nat :=
  length
    (List.filter
       (fun ev => match ev with Called _ _ => true | Slept _ => false end)
       events).

(** The log of one case under the retry policy, from the attempt numbered
    [attempt] on: a call that fails is followed by a timer of
    [2 ^ attempt] seconds and by the next attempt; the log ends with a
    call, which no timer follows. *)
Inductive retry_log (request : ChatCompletionRequest)
  : nat -> list event -> Prop :=
| retry_log_last (attempt : nat) (answer : result ChatCompletionResponse) :
    retry_log request attempt [Called request answer]
| retry_log_again (attempt : nat) (message : string) (rest : list event) :
    retry_log request (S attempt) rest ->
    retry_log request attempt
      (Called request (Throws message) :: Slept (2 ^ attempt * 1000) :: rest).

(** No call of the log was answered: every call failed. *)
Definition all_calls_failed (events : list event) : Prop :=
  Forall
    (fun ev =>
       match ev with
       | Called _ (Returns _) => False
       | _ => True
       end)
    events.

(** The request that [executeTestCase] sends for a case. *)
Definition request_of (options : TestRunnerOptions) (testCase : TestCase.t)
  (promptTemplate : string) : ChatCompletionRequest :=
  {| model := opt_model options;
     messages :=
       [ {| role := "user";
            content := Template.replaceVariables promptTemplate
                         (TestCase.inputs testCase) |} ];
     temperature := None;
     max_tokens := None |}.

(** The request as the client hands it to the provider's library. *)
Definition sdk_request_of (options : TestRunnerOptions) (testCase : TestCase.t)
  (promptTemplate : string) : SdkRequest :=
  {| sdk_model := opt_model options;
     sdk_messages :=
       [ {| role := "user";
            content := Template.replaceVariables promptTemplate
                         (TestCase.inputs testCase) |} ];
     sdk_temperature := 0.7;
     sdk_max_tokens := None |}.

(** The message of the [OpenAIError] that the client throws for a failure
    of the library. *)
Definition client_message (thrown : SdkThrown) : string :=
  "API request failed: "
  +:+ match thrown with
      | SdkError message => message
      | SdkOther => "Unknown error"
      end.

End Runner.

(* ===================================================================== *)
(** * The statistical comparator: [StatisticalAnalyzer]                    *)
(* ===================================================================== *)
Module Stats.
Import JS.
Local Open Scope R_scope.

(** A computation on numbers returns a value, throws, or leaves the real
    numbers: JavaScript goes on with [Infinity] or [NaN] after a division
    by zero, the square root of a negative number and the like, and
    returns records that hold such values; the model stops there with
    [NotFinite]. *)
Inductive outcome (A : Type) : Type :=
| Ok (a : A)
| Throw (message : string)
| NotFinite.
Arguments Ok {A} a.
Arguments Throw {A} message.
Arguments NotFinite {A}.

Definition bind {A B : Type} (m : outcome A) (f : A -> outcome B) : outcome B :=
  match m with
  | Ok a => f a
  | Throw message => Throw message
  | NotFinite => NotFinite
  end.

Notation "'let!' x ':=' m 'in' f" := (bind m (fun x => f))
  (at level 10, x name, m at level 100, f at level 200).

(** The call returned, with finite numbers or not. *)
Definition returned {A : Type} (m : outcome A) : Prop :=
  match m with
  | Throw _ => False
  | _ => True
  end.

(** [x / y] where [y] is computed. *)
Definition divide (x y : R) : outcome R :=
  if Req_dec_T y 0 then NotFinite else Ok (x / y).

(** [Math.sqrt] *)
Definition Math_sqrt (x : R) : outcome R :=
  if Rlt_dec x 0 then NotFinite else Ok (sqrt x).

(** [Math.pow]: a positive base with any exponent, zero with a positive
    exponent, a negative base with an integer exponent. *)
Definition Math_pow (x y : R) : outcome R :=
  if Req_dec_T y 0 then Ok 1
  else if Rlt_dec 0 x then Ok (Rpower x y)
  else if Req_dec_T x 0 then (if Rlt_dec 0 y then Ok 0 else NotFinite)
  else if Req_dec_T (IZR (Zfloor y)) y then Ok (powerRZ x (Zfloor y))
  else NotFinite.

Definition Math_floor (x : R) : R := IZR (Zfloor x).
Definition Math_ceil (x : R) : R := IZR (Zceil x).

(** ** The library [simple-statistics]

    [mean] and [variance] throw on an empty array; [standardDeviation] is
    the square root of the variance of the population, and 0 for a single
    value. *)
Definition ss_mean (x : list R) : outcome R :=
  if Nat.eqb (length x) 0
  then Throw "mean requires at least one data point"
  else Ok (Num.sum x / INR (length x)).

Definition ss_sumNthPowerDeviations2 (x : list R) : outcome R :=
  let! meanValue := ss_mean x in
  Ok (Num.sum (List.map (fun v => (v - meanValue) * (v - meanValue)) x)).

Definition ss_variance (x : list R) : outcome R :=
  if Nat.eqb (length x) 0
  then Throw "variance requires at least one data point"
  else
    let! deviations := ss_sumNthPowerDeviations2 x in
    Ok (deviations / INR (length x)).

Definition ss_standardDeviation (x : list R) : outcome R :=
  if Nat.eqb (length x) 1 then Ok 0
  else
    let! v := ss_variance x in
    Math_sqrt v.

(** [TTestResult] of [types/test.ts] *)
Record TTestResult : Type := {
  meanA : R;
  meanB : R;
  difference : R;
  pValue : R;
  significant : bool;
  confidenceInterval : R * R;
  sampleSizeA : nat;
  sampleSizeB : nat
}.

(** [StatisticalComparison] of [types/test.ts] *)
Record StatisticalComparison : Type := {
  latency : TTestResult;
  cost : TTestResult;
  tokens : TTestResult
}.

(** [erf]: the approximation of Abramowitz and Stegun. *)
Definition erf (x : R) : outcome R :=
  let a1 := 0.254829592 in
  let a2 := -0.284496736 in
  let a3 := 1.421413741 in
  let a4 := -1.453152027 in
  let a5 := 1.061405429 in
  let p := 0.3275911 in
  let sign := if Rlt_dec x 0 then -1 else 1 in
  let absX := Rabs x in
  let! t := divide 1 (1 + p * absX) in
  let y :=
    1 - (((((a5 * t + a4) * t) + a3) * t + a2) * t + a1) * t
        * exp (- absX * absX) in
  Ok (sign * y).

(** The loop [for (let m = 1; m <= maxIterations; m++)] of
    [betaContinuedFraction], with [fuel] iterations left; it returns [az]
    as the loop leaves it. *)
Fixpoint betacf_loop (fuel : nat) (m : nat) (x a b am bm az bz : R)
  : outcome R :=
  match fuel with
  | O => Ok az
  | S fuel' =>
      let epsilon := 1 / 10 ^ 10 in
      let qab := a + b in
      let qap := a + 1 in
      let qam := a - 1 in
      let m2 := 2 * INR m in
      let! d := divide (INR m * (b - INR m) * x) ((qam + m2) * (a + m2)) in
      let ap := az + d * am in
      let bp := bz + d * bm in
      let! d := divide (- (a + INR m) * (qab + INR m) * x)
             ((a + m2) * (qap + m2)) in
      let app := ap + d * az in
      let bpp := bp + d * bz in
      let aold := az in
      let! am := divide ap bpp in
      let! bm := divide bp bpp in
      let! az := divide app bpp in
      let bz := 1 in
      if Rlt_dec (Rabs (az - aold)) (epsilon * Rabs az) then Ok az
      else betacf_loop fuel' (S m) x a b am bm az bz
  end.

(** [betaContinuedFraction] *)
Definition betaContinuedFraction (x a b : R) : outcome R :=
  let maxIterations := 200%nat in
  let qab := a + b in
  let qap := a + 1 in
  let! bz := divide (qab * x) qap in
  let! az := betacf_loop maxIterations 1 x a b 1 1 1 (1 - bz) in
  let! xa := Math_pow x a in
  let! xb := Math_pow (1 - x) b in
  divide (az * xa * xb) a.

(** [incompleteBeta] *)
Definition incompleteBeta (x a b : R) : outcome R :=
  if Rle_dec x 0 then Ok 0
  else if Rle_dec 1 x then Ok 1
  else
    let! threshold := divide (a + 1) (a + b + 2) in
    if Rlt_dec x threshold then betaContinuedFraction x a b
    else
      let! f := betaContinuedFraction (1 - x) b a in
      Ok (1 - f).

(** [calculatePValue] *)
Definition calculatePValue (tStat df : R) : outcome R :=
  if Req_dec_T tStat 0 then Ok 1
  else if Rle_dec df 0 then Ok 1
  else if Rlt_dec 30 df then
    let z := tStat in
    let! e := erf (z / sqrt 2) in
    let p := 0.5 * (1 + e) in
    Ok (2 * (1 - p))
  else
    let! x := divide df (df + tStat * tStat) in
    let! ib := incompleteBeta x (df / 2) 0.5 in
    let p := 0.5 * ib in
    Ok (Rmin (2 * p) 1).

(** The critical values of the t distribution for 1 to 30 degrees of
    freedom, 95 % two-tailed. *)
Definition criticalValues : list (Z * R) :=
  [ (1%Z, 12.706); (2%Z, 4.303); (3%Z, 3.182); (4%Z, 2.776); (5%Z, 2.571);
    (6%Z, 2.447); (7%Z, 2.365); (8%Z, 2.306); (9%Z, 2.262); (10%Z, 2.228);
    (11%Z, 2.201); (12%Z, 2.179); (13%Z, 2.160); (14%Z, 2.145); (15%Z, 2.131);
    (16%Z, 2.120); (17%Z, 2.110); (18%Z, 2.101); (19%Z, 2.093); (20%Z, 2.086);
    (21%Z, 2.080); (22%Z, 2.074); (23%Z, 2.069); (24%Z, 2.064); (25%Z, 2.060);
    (26%Z, 2.056); (27%Z, 2.052); (28%Z, 2.048); (29%Z, 2.045); (30%Z, 2.042) ].

(** [criticalValues[k]] for an integer [k]; [None] is [undefined]. *)
Definition criticalValue_at (k : Z) : option R :=
  match List.find (fun entry => Z.eqb entry.1 k) criticalValues with
  | Some entry => Some entry.2
  | None => None
  end.

(** [df in criticalValues]: [df] is one of the integers 1 to 30. *)
Definition in_criticalValues (df : R) : option R :=
  if Req_dec_T (IZR (Zfloor df)) df then criticalValue_at (Zfloor df) else None.

(** [getTCriticalValue] *)
Definition getTCriticalValue (df : R) : R :=
  if Rlt_dec 100 df then 1.96
  else
    match in_criticalValues df with
    | Some value => value
    | None =>
        let lower := Zfloor df in
        let upper := Zceil df in
        if (Z.leb 1 lower && Z.leb upper 30)%bool then
          let t1 := match criticalValue_at lower with Some v => v | None => 0 end in
          let t2 := match criticalValue_at upper with Some v => v | None => 0 end in
          t1 + (t2 - t1) * (df - IZR lower)
        else 1.96
    end.

(** The local values of [tTest], in the order of the source. *)
Record TTestSteps : Type := {
  step_meanA : R;
  step_meanB : R;
  step_difference : R;
  stdDevA : R;
  stdDevB : R;
  seA : R;
  seB : R;
  standardError : R;
  tStatistic : R;
  degreesOfFreedom : R;
  step_pValue : R;
  criticalValue : R;
  marginOfError : R
}.

(** The degrees of freedom: [nA + nB - 2], or the equation of Welch and
    Satterthwaite when both deviations are positive. *)
Definition welch_degreesOfFreedom (stdDevA stdDevB nA nB : R) : outcome R :=
  if Rlt_dec 0 stdDevA then
    if Rlt_dec 0 stdDevB then
      let varA := stdDevA * stdDevA in
      let varB := stdDevB * stdDevB in
      let! qA := divide varA nA in
      let! qB := divide varB nB in
      let! num := Math_pow (qA + qB) 2 in
      let! dA := divide (varA * varA) (nA * nA * (nA - 1)) in
      let! dB := divide (varB * varB) (nB * nB * (nB - 1)) in
      let den := dA + dB in
      if Rlt_dec 0 den then divide num den else Ok (nA + nB - 2)
    else Ok (nA + nB - 2)
  else Ok (nA + nB - 2).

Definition tTest_steps (sampleA sampleB : list R) : outcome TTestSteps :=
  let! meanA := ss_mean sampleA in
  let! meanB := ss_mean sampleB in
  let difference := meanB - meanA in
  let! stdDevA := (if Nat.ltb 1 (length sampleA)
              then ss_standardDeviation sampleA else Ok 0) in
  let! stdDevB := (if Nat.ltb 1 (length sampleB)
              then ss_standardDeviation sampleB else Ok 0) in
  let nA := INR (length sampleA) in
  let nB := INR (length sampleB) in
  let! rootA := Math_sqrt nA in
  let! seA := divide stdDevA rootA in
  let! rootB := Math_sqrt nB in
  let! seB := divide stdDevB rootB in
  let! standardError := Math_sqrt (seA * seA + seB * seB) in
  let! tStatistic := (if Rlt_dec 0 standardError
                 then divide difference standardError else Ok 0) in
  let! degreesOfFreedom := welch_degreesOfFreedom stdDevA stdDevB nA nB in
  let! pValue := calculatePValue (Rabs tStatistic) degreesOfFreedom in
  let criticalValue := getTCriticalValue degreesOfFreedom in
  let marginOfError := criticalValue * standardError in
  Ok {| step_meanA := meanA;
        step_meanB := meanB;
        step_difference := difference;
        stdDevA := stdDevA;
        stdDevB := stdDevB;
        seA := seA;
        seB := seB;
        standardError := standardError;
        tStatistic := tStatistic;
        degreesOfFreedom := degreesOfFreedom;
        step_pValue := pValue;
        criticalValue := criticalValue;
        marginOfError := marginOfError |}.

(** The local values of [tTest] when its divisions are defined, from the
    means, the deviations, the sizes, the degrees of freedom and the
    p-value. *)
Definition steps_from (meanA meanB stdDevA stdDevB nA nB df pValue : R)
  : TTestSteps :=
  let difference := meanB - meanA in
  let seA := stdDevA / sqrt nA in
  let seB := stdDevB / sqrt nB in
  let standardError := sqrt (seA * seA + seB * seB) in
  let tStatistic :=
    if Rlt_dec 0 standardError then difference / standardError else 0 in
  {| step_meanA := meanA;
     step_meanB := meanB;
     step_difference := difference;
     stdDevA := stdDevA;
     stdDevB := stdDevB;
     seA := seA;
     seB := seB;
     standardError := standardError;
     tStatistic := tStatistic;
     degreesOfFreedom := df;
     step_pValue := pValue;
     criticalValue := getTCriticalValue df;
     marginOfError := getTCriticalValue df * standardError |}.

(** The record that [tTest] returns from its local values. *)
Definition tTest_result (sampleA sampleB : list R) (v : TTestSteps)
  : TTestResult :=
  {| meanA := Num.toFixed 4 (step_meanA v);
     meanB := Num.toFixed 4 (step_meanB v);
     difference := Num.toFixed 4 (step_difference v);
     pValue := Num.toFixed 6 (step_pValue v);
     significant := if Rlt_dec (step_pValue v) 0.05 then true else false;
     confidenceInterval :=
       (Num.toFixed 4 (step_difference v - marginOfError v),
        Num.toFixed 4 (step_difference v + marginOfError v));
     sampleSizeA := length sampleA;
     sampleSizeB := length sampleB |}.

(** [StatisticalAnalyzer.tTest] *)
Definition tTest (sampleA sampleB : list R) : outcome TTestResult :=
  let! v := tTest_steps sampleA sampleB in
  Ok (tTest_result sampleA sampleB v).

(** [StatisticalAnalyzer.compareVersions] *)
Definition compareVersions (resultA resultB : Runner.VersionResult)
  : outcome StatisticalComparison :=
  let successfulA :=
    List.filter TestCaseResult.success (Runner.vr_testCases resultA) in
  let successfulB :=
    List.filter TestCaseResult.success (Runner.vr_testCases resultB) in
  let latencyA := List.map TestCaseResult.latency successfulA in
  let latencyB := List.map TestCaseResult.latency successfulB in
  let costA := List.map TestCaseResult.cost successfulA in
  let costB := List.map TestCaseResult.cost successfulB in
  let tokensA :=
    List.map (fun tc => TestCaseResult.inputTokens tc
                        + TestCaseResult.outputTokens tc) successfulA in
  let tokensB :=
    List.map (fun tc => TestCaseResult.inputTokens tc
                        + TestCaseResult.outputTokens tc) successfulB in
  let! latency := tTest latencyA latencyB in
  let! cost := tTest costA costB in
  let! tokens := tTest tokensA tokensB in
  Ok {| latency := latency; cost := cost; tokens := tokens |}.

End Stats.

(* ===================================================================== *)
(** * The t test, for the specification                                    *)
(* ===================================================================== *)
Module TTest.
Import Stats.
Local Open Scope R_scope.

(** The deviation that [tTest] takes for a sample:
    [sample.length > 1 ? ss.standardDeviation(sample) : 0]. *)
Definition deviation_of (sample : list R) : outcome R :=
  if Nat.ltb 1 (length sample) then ss_standardDeviation sample else Ok 0.

(** The result of [tTest] with the two samples exchanged: the means and
    the sizes change places, the difference and the interval change
    sign, the p-value and the verdict stay. *)
Definition mirrored (r : TTestResult) : TTestResult :=
  {| meanA := meanB r;
     meanB := meanA r;
     difference := - difference r;
     pValue := pValue r;
     significant := significant r;
     confidenceInterval :=
       (- (confidenceInterval r).2, - (confidenceInterval r).1);
     sampleSizeA := sampleSizeB r;
     sampleSizeB := sampleSizeA r |}.

End TTest.

(* ===================================================================== *)
(** * The progress of a run, for the specification                         *)
(* ===================================================================== *)
Module Progress.
Import Runner.

Section WithEnv.

Variable Env : Type.

(** The names of the cases that a pool has reported to the progress
    callback, of those in flight, and of those queued. *)
Definition reported (p : pool Env) : list string := (notified Env p).*2.

Definition in_flight (p : pool Env) : list string :=
  (fun t => TestCase.name (testCase t)) <$> active Env p.

Definition waiting (p : pool Env) : list string :=
  (fun entry => TestCase.name entry.2) <$> queue Env p.

(** The invariant of a run with a progress callback: the callback has
    been called once for each settled case, with the numbers 1, 2, ... in
    this order and with the size of the dataset, and every case of the
    dataset is reported, in flight or queued, and only one of them. *)
Record pool_progress (total : nat) (names : list string) (p : pool Env)
  : Prop := {
  progress_completed : length (notified Env p) = completed Env p;
  progress_numbers : (notified Env p).*1.*1 = seq 1 (completed Env p);
  progress_totals : Forall (fun call => call.1.2 = total) (notified Env p);
  progress_names : reported p ++ in_flight p ++ waiting p ≡ₚ names
}.

(** [p-limit] keeps at most [limit] cases in flight, and exactly [limit]
    while a case is queued. *)
Definition pool_busy (limit : nat) (p : pool Env) : Prop :=
  length (active Env p) <= limit
  /\ (queue Env p <> [] -> length (active Env p) = limit).

End WithEnv.

End Progress.

(* ===================================================================== *)
(** * The calls that a run may still make, for the specification           *)
(* ===================================================================== *)
Module Budget.
Import OpenAI Runner.

(** [calls_within n p]: [p] calls the client at most [n] times before it
    returns, whatever the answers and the clock. *)
Inductive calls_within {A : Type} : nat -> prog A -> Prop :=
| calls_ret (n : nat) (a : A) : calls_within n (Ret a)
| calls_now (n : nat) (k : R -> prog A) :
    (forall now, calls_within n (k now)) -> calls_within n (Now k)
| calls_call (n : nat) (request : ChatCompletionRequest)
    (k : JS.result ChatCompletionResponse -> prog A) :
    (forall answer, calls_within n (k answer)) ->
    calls_within (S n) (Call request k)
| calls_sleep (n : nat) (ms : R) (k : prog A) :
    calls_within n k -> calls_within n (Sleep ms k).

(** [tasks_call_within l n]: the cases [l] in flight call the client at
    most [n] times more, all together. *)
Inductive tasks_call_within : list task -> nat -> Prop :=
| tasks_call_nil : tasks_call_within [] 0
| tasks_call_cons (t : task) (l : list task) (b n : nat) :
    calls_within b (resume_of (state t)) ->
    tasks_call_within l n ->
    tasks_call_within (t :: l) (b + n).

Section WithEnv.

Variable options : TestRunnerOptions.
Variable Env : Type.

(** The calls in the trace, those that the cases in flight may still
    make, and [maxRetries + 1] calls for each queued case are within the
    budget. *)
Definition within_budget (budget : nat) (p : pool Env) : Prop :=
  exists n,
    tasks_call_within (active Env p) n
    /\ calls (trace Env (world Env p)) + n
       + length (queue Env p) * S (maxRetries options) <= budget.

End WithEnv.

End Budget.

(* ===================================================================== *)
(** * What each case observed during a run, for the specification         *)
(* ===================================================================== *)
Module Journal.
Import OpenAI Runner.
Local Open Scope list_scope.

(** What a case observes while it runs: a reading of the clock, the
    answer to a call of the client, a timer that has fired. *)
Inductive observation : Type :=
| Read (now : R)
| Answered (request : ChatCompletionRequest)
           (answer : JS.result ChatCompletionResponse)
| Fired (ms : R).

(** [replays p log a]: the program [p], given the observations of [log]
    one after the other, returns [a], and [log] is used up. The program
    and the log determine [a]. *)
Inductive replays {A : Type} : prog A -> list observation -> A -> Prop :=
| replays_ret (a : A) : replays (Ret a) [] a
| replays_now (k : R -> prog A) (now : R) (log : list observation) (a : A) :
    replays (k now) log a -> replays (Now k) (Read now :: log) a
| replays_call (request : ChatCompletionRequest)
    (k : JS.result ChatCompletionResponse -> prog A)
    (answer : JS.result ChatCompletionResponse)
    (log : list observation) (a : A) :
    replays (k answer) log a ->
    replays (Call request k) (Answered request answer :: log) a
| replays_sleep (ms : R) (k : prog A) (log : list observation) (a : A) :
    replays k log a -> replays (Sleep ms k) (Fired ms :: log) a.

(** An entry of the journal of a run: the index of a case in the dataset
    and what the case observed. The journal lists the observations of
    all cases in the order in which they were made. *)
Definition entry : Type := nat * observation.

(** The observations of the case at the index [i], in order. *)
Definition of_case (i : nat) (journal : list entry) : list observation :=
  (filter (fun e : entry => e.1 = i) journal).*2.

(** The events that the observations leave in the trace of the world. *)
Definition event_of (e : entry) : option event :=
  match e.2 with
  | Read _ => None
  | Answered request answer => Some (Called request answer)
  | Fired ms => Some (Slept ms)
  end.

Definition events_of (journal : list entry) : list event :=
  omap event_of journal.

Section WithWorld.

Variable options : TestRunnerOptions.
Variable Env : Type.
Variable sdk_create : SdkRequest -> Env -> SdkOutcome * Env.
Variable Date_now : Env -> R.
Variable timer : R -> Env -> Env.

(** [happened e journal e']: the observations of [journal] were made in
    this order in a world that went from [e] to [e']: a reading is the
    clock of the world at that moment, an answer is what the client
    answered then, and a timer has moved the world on. *)
Inductive happened : Env -> list entry -> Env -> Prop :=
| happened_nil (e : Env) : happened e [] e
| happened_read (e : Env) (i : nat) (journal : list entry) (e' : Env) :
    happened e journal e' ->
    happened e ((i, Read (Date_now e)) :: journal) e'
| happened_call (e : Env) (i : nat) (request : ChatCompletionRequest)
    (answer : JS.result ChatCompletionResponse) (e1 : Env)
    (journal : list entry) (e' : Env) :
    createChatCompletion Env sdk_create request e = (answer, e1) ->
    happened e1 journal e' ->
    happened e ((i, Answered request answer) :: journal) e'
| happened_timer (e : Env) (i : nat) (ms : R) (journal : list entry)
    (e' : Env) :
    happened (timer ms e) journal e' ->
    happened e ((i, Fired ms) :: journal) e'.

(** The readings of the clock that [settle] makes on the way to the next
    [await]. *)
Fixpoint readings (p : prog TestCaseResult.t) (e : Env) : list observation :=
  match p with
  | Now k => Read (Date_now e) :: readings (k (Date_now e)) e
  | _ => []
  end.

(** What [start_next] adds to the journal: the readings of the case that
    it starts. *)
Definition started_by (promptA : string) (p : pool Env) : list entry :=
  match queue Env p with
  | [] => []
  | (i, tc) :: _ =>
      (fun o => (i, o))
        <$> readings (executeTestCase options tc promptA)
              (env Env (world Env p))
  end.

Fixpoint filled_by (slots : nat) (promptA : string) (p : pool Env)
  : list entry :=
  match slots with
  | O => []
  | S slots' =>
      started_by promptA p
      ++ filled_by slots' promptA (start_next options Env Date_now promptA p)
  end.

(** What one turn of the event loop adds to the journal, case by case as
    in [step]: the answer or the timer that the chosen case awaited and
    its readings up to its next [await]; when the case settles its
    promise, the readings of the case that [p-limit] starts (the queue
    and the world are those of [p]). *)
Definition stepped_by (promptA : string) (p : pool Env) (choice : nat)
  : list entry :=
  let j := (choice mod length (active Env p))%nat in
  match active Env p !! j with
  | None => []
  | Some t =>
      match state t with
      | Finished _ => started_by promptA p
      | AwaitCall request k =>
          let '(answer, e') :=
            createChatCompletion Env sdk_create request
              (env Env (world Env p)) in
          (index t, Answered request answer)
          :: ((fun o => (index t, o)) <$> readings (k answer) e')
      | AwaitSleep ms k =>
          let e' := timer ms (env Env (world Env p)) in
          (index t, Fired ms) :: ((fun o => (index t, o)) <$> readings k e')
      end
  end.

Fixpoint journal_of (promptA : string) (total : nat) (has_callback : bool)
  (schedule : list nat) (p : pool Env) : list entry :=
  match schedule with
  | [] => []
  | choice :: rest =>
      stepped_by promptA p choice
      ++ journal_of promptA total has_callback rest
           (step options Env sdk_create Date_now timer promptA total
              has_callback p choice)
  end.

(** The journal of [run] after the turns of a schedule. *)
Definition run_journal (has_callback : bool) (dataset : Dataset)
  (promptA : string) (schedule : list nat) (w : World Env) : list entry :=
  let total := length (testCases dataset) in
  let created :=
    {| queue := imap (fun i tc => (i, tc)) (testCases dataset);
       active := [];
       results := replicate total None;
       completed := 0;
       notified := [];
       world := w |} in
  filled_by (concurrency options) promptA created
  ++ journal_of promptA total has_callback schedule
       (fill options Env Date_now (concurrency options) promptA created).

(** The indices of the cases that are queued or in flight. *)
Definition pending (p : pool Env) : list nat :=
  (queue Env p).*1 ++ (index <$> active Env p).

(** The invariant of a run and its journal, from the world [w0] on: no
    case is queued or in flight twice, or once its slot is filled; a
    queued case has observed nothing; a case in flight, given what it has
    observed and then what its program still asks for, is the run of
    [executeTestCase] for its case; a filled slot holds what
    [executeTestCase] returns for the case of that index on what the
    case observed; and the journal is what happened in the world. *)
Record tracked (promptA : string) (cases : list TestCase.t) (w0 : World Env)
  (journal : list entry) (p : pool Env) : Prop := {
  tracked_once : NoDup (pending p);
  tracked_settled :
    forall i r, results Env p !! i = Some (Some r) -> i ∉ pending p;
  tracked_queue :
    forall i, i ∈ (queue Env p).*1 -> of_case i journal = [];
  tracked_active :
    forall t, t ∈ active Env p ->
      forall log r,
        replays (resume_of (state t)) log r ->
        replays (executeTestCase options (testCase t) promptA)
          (of_case (index t) journal ++ log) r;
  tracked_results :
    forall i r, results Env p !! i = Some (Some r) ->
      exists tc,
        cases !! i = Some tc
        /\ replays (executeTestCase options tc promptA)
             (of_case i journal) r;
  tracked_world : happened (env Env w0) journal (env Env (world Env p));
  tracked_trace : trace Env (world Env p) = trace Env w0 ++ events_of journal
}.

End WithWorld.

End Journal.

(* ===================================================================== *)
(** * Rounding, for the specification                                      *)
(* ===================================================================== *)
Module Rounding.
Local Open Scope R_scope.

(** A number that is not negative, rounded to [digits] decimals, a tie
    going up: what [toFixed] does below 1e21. *)
Definition half_up (digits : nat) (a : R) : R :=
  IZR (Zfloor (a * 10 ^ digits + / 2)) / 10 ^ digits.

End Rounding.

(* ===================================================================== *)
(** * The metrics collector: [MetricsCollector]                            *)
(* ===================================================================== *)
Module Metrics.
Import JS Runner.
Local Open Scope R_scope.

(** Cost per 1K tokens, in USD: the table of [metrics-collector.ts], which
    has two models more than the table of the runner. *)
Definition MODEL_PRICING : list (string * Pricing) :=
  [ ("gpt-4", {| input := 0.03; output := 0.06 |});
    ("gpt-4-0613", {| input := 0.03; output := 0.06 |});
    ("gpt-4-32k", {| input := 0.06; output := 0.12 |});
    ("gpt-4o", {| input := 0.005; output := 0.015 |});
    ("gpt-4o-mini", {| input := 0.00015; output := 0.0006 |});
    ("gpt-3.5-turbo", {| input := 0.0015; output := 0.002 |});
    ("gpt-3.5-turbo-0125", {| input := 0.0005; output := 0.0015 |});
    ("gpt-3.5-turbo-1106", {| input := 0.001; output := 0.002 |});
    ("gpt-3.5-turbo-instruct", {| input := 0.0015; output := 0.002 |}) ].

(** [MODEL_PRICING[key]] for a key of the table. *)
Definition pricing_of (key : string) : Pricing :=
  match List.find (fun entry => String.eqb entry.1 key) MODEL_PRICING with
  | Some entry => entry.2
  | None => gpt4_pricing
  end.

(** [getModelPricing] of [metrics-collector.ts]; as for the runner's, a
    name that [Object.prototype] defines has no price in the code and is
    outside the model. *)
Definition getModelPricing (model : string) : Pricing :=
  match List.find (fun entry => String.eqb entry.1 model) MODEL_PRICING with
  | Some entry => entry.2
  | None =>
      if startsWith model "gpt-4o-mini" then pricing_of "gpt-4o-mini"
      else if startsWith model "gpt-4o" then pricing_of "gpt-4o"
      else if startsWith model "gpt-4-32k" then pricing_of "gpt-4-32k"
      else if startsWith model "gpt-4" then pricing_of "gpt-4"
      else if startsWith model "gpt-3.5-turbo-0125" then pricing_of "gpt-3.5-turbo-0125"
      else if startsWith model "gpt-3.5-turbo-1106" then pricing_of "gpt-3.5-turbo-1106"
      else if startsWith model "gpt-3.5-turbo-instruct"
           then pricing_of "gpt-3.5-turbo-instruct"
      else if startsWith model "gpt-3.5-turbo" then pricing_of "gpt-3.5-turbo"
      else pricing_of "gpt-4"
  end.

(** [MetricsCollector.calculateCost] *)
Definition calculateCost (model : string) (inputTokens outputTokens : R) : R :=
  let pricing := getModelPricing model in
  let inputCost := (inputTokens / 1000) * input pricing in
  let outputCost := (outputTokens / 1000) * output pricing in
  Num.toFixed 6 (inputCost + outputCost).

(** [MetricsCollector.average] *)
Definition average (values : list R) : R :=
  if Nat.eqb (length values) 0 then 0
  else Num.sum values / INR (length values).

(** [MetricsCollector.collectSummary] *)
Definition collectSummary (results : list TestCaseResult.t) : MetricsSummary :=
  let totalCount := length results in
  let successResults := List.filter TestCaseResult.success results in
  let successCount := length successResults in
  let successRate :=
    if Nat.ltb 0 totalCount then INR successCount / INR totalCount else 0 in
  if Nat.eqb successCount 0 then
    {| avgLatency := 0; avgInputTokens := 0; avgOutputTokens := 0;
       avgCost := 0; successRate := 0;
       totalCount := totalCount; successCount := 0 |}
  else
    let avgLatency := average (List.map TestCaseResult.latency successResults) in
    let avgInputTokens :=
      average (List.map TestCaseResult.inputTokens successResults) in
    let avgOutputTokens :=
      average (List.map TestCaseResult.outputTokens successResults) in
    let avgCost := average (List.map TestCaseResult.cost successResults) in
    {| avgLatency := Num.toFixed 2 avgLatency;
       avgInputTokens := Num.toFixed 2 avgInputTokens;
       avgOutputTokens := Num.toFixed 2 avgOutputTokens;
       avgCost := Num.toFixed 6 avgCost;
       successRate := Num.toFixed 2 successRate;
       totalCount := totalCount;
       successCount := successCount |}.

(** ** Specification vocabulary *)

(** The entry of a price table whose key is the longest one that the name
    of the model starts with; the first such entry when two keys are as
    long. *)
Definition longest_prefix (table : list (string * Pricing)) (model : string)
  : option (string * Pricing) :=
  fold_left
    (fun best entry =>
       if startsWith model entry.1 then
         match best with
         | Some found =>
             if Nat.ltb (String.length found.1) (String.length entry.1)
             then Some entry else best
         | None => Some entry
         end
       else best)
    table None.

(** The price that the longest key decides, the price of gpt-4 when the
    name starts with no key. *)
Definition price_by_longest_prefix (table : list (string * Pricing))
  (model : string) : Pricing :=
  match longest_prefix table model with
  | Some entry => entry.2
  | None => gpt4_pricing
  end.

(** The milliseconds that a log of events spends in timers. *)
Definition slept (events : list event) : R :=
  Num.sum
    (List.map (fun ev => match ev with Slept ms => ms | Called _ _ => 0 end)
       events).

End Metrics.

(* ===================================================================== *)
(** * The commands [init], [add] and [diff], and the prompt of a commit   *)
(* ===================================================================== *)
Module Commands.
Import JS Repo.

(** What [add] finds at the path it is given: a regular file with its
    text, or a directory with its entries, each a regular file with its
    text ([Some]) or anything else ([None]: [isFile()] is false). *)
Inductive node : Type :=
| File (content : string)
| Directory (entries : list (string * option string)).

(** [new Set(iterable)]: a value is kept where it comes first. *)
Definition Set_add (set : list string) (value : string) : list string :=
  if bool_decide (value ∈ set) then set else set ++ [value].

Definition Set_from (values : list string) : list string :=
  fold_left Set_add values [].

(** The line feed, as a string. *)
Definition newline : string := String (ascii_of_nat 10) EmptyString.

(** [array.join(separator)] *)
Fixpoint join (separator : string) (parts : list string) : string :=
  match parts with
  | [] => ""
  | [part] => part
  | part :: rest => part +:+ separator +:+ join separator rest
  end.

(** [/^[a-f0-9]{40,64}$/i.test(s)] *)
Definition is_hex_digit (c : ascii) : bool :=
  let n := nat_of_ascii c in
  ((Nat.leb 48 n && Nat.leb n 57)          (* 0-9 *)
   || (Nat.leb 97 n && Nat.leb n 102)      (* a-f *)
   || (Nat.leb 65 n && Nat.leb n 70))%bool. (* A-F *)

Definition looks_like_hash (s : string) : bool :=
  (forallb is_hex_digit (list_ascii_of_string s)
   && Nat.leb 40 (String.length s) && Nat.leb (String.length s) 64)%bool.

(** What [hashContent] returns, the hexadecimal form of a SHA-256 digest:
    64 digits among [0-9a-f]. The places that [getObjectPath] gives to
    two such names are two files: no part of such a path is empty, [.] or
    [..], and no two of them differ by the case of a letter only. *)
Definition is_lower_hex_digit (c : ascii) : bool :=
  let n := nat_of_ascii c in
  ((Nat.leb 48 n && Nat.leb n 57) || (Nat.leb 97 n && Nat.leb n 102))%bool.

Definition is_digest (s : string) : bool :=
  (forallb is_lower_hex_digit (list_ascii_of_string s)
   && Nat.eqb (String.length s) 64)%bool.

(** [Repository.init] *)
Definition init (repo : Repository) : result Repository :=
  if isInitialized repo then Throws ".pvc already exists"
  else
    Returns {| pvc_exists := true;
               index_json := Some {| staged := ∅ |};
               HEAD_file := HEAD_file repo;
               objects := objects repo |}.

(** [initCommand(cwd)] *)
Definition initCommand (repo : Repository) : run :=
  if isInitialized repo then
    {| ended := Exit 2;
       console := [Error "Error: .pvc already exists"];
       repo_after := repo |}
  else
    match init repo with
    | Throws e => {| ended := Uncaught e; console := []; repo_after := repo |}
    | Returns repo' =>
        {| ended := Exit 0;
           console := [Log "Initialized empty prompt-vcs repository in .pvc/"];
           repo_after := repo' |}
    end.

(** What [getFileContent] returns: a text; [undefined], the [content] of an
    object that is no blob; or, for a path that the tree does not hold
    and that [Object.prototype] defines, the value that the tree inherits
    under that name, which is no string. *)
Inductive file_content : Type :=
| Text (text : string)
| NoContent
| Inherited (key : string).

#[global] Instance file_content_eq_dec : EqDecision file_content.
Proof. solve_decision. Defined.

Section WithRuntime.

(** The runtime's services, as for [commit]; [relative p] is
    [relative(cwd, join(cwd, p))], the path as the index records it;
    [Object_entries] lists the properties of an object in the order of the
    runtime; [createTwoFilesPatch] is the function of the library [diff],
    called with the two values of [getFileContent] and with labels that
    may be [undefined] ([None]). *)
Variable hashContent : string -> string.
Variable JSON_stringify : RepositoryObject -> string.
Variable JSON_parse : string -> option RepositoryObject.
Variable relative : string -> string.
Variable Object_entries : gmap string string -> list (string * string).
Variable createTwoFilesPatch :
  string -> string -> file_content -> file_content ->
  option string -> option string -> result string.

(** [addSingleFile(repo, cwd, fullPath, index)], for the file with the
    text [content] whose path relative to [cwd] is [relativePath]. The
    index is the object that [addCommand] holds; the store is written at
    once. The assignment [index.staged[relativePath] = ...] adds no
    property for the path [__proto__]. *)
Definition addSingleFile (relativePath content : string)
  (state : Repository * Index) : Repository * Index :=
  let '(repo, index) := state in
  let hash := hashContent content in
  let blobContent := JSON_stringify (BlobObj content) in
  (writeObject hash blobContent repo,
   {| staged :=
        assign relativePath {| sf_hash := hash; sf_path := relativePath |}
          (staged index) |}).

(** The loop of [addCommand] over the entries of a directory: the state,
    and the number of files staged. *)
Definition addEntries (filePath : string)
  (entries : list (string * option string)) (state : Repository * Index)
  : Repository * Index * nat :=
  fold_left
    (fun acc entry =>
       match entry.2 with
       | Some content =>
           (addSingleFile (relative (filePath +:+ "/" +:+ entry.1)) content
              acc.1,
            S acc.2)
       | None => acc
       end)
    entries (state, 0).

(** An entry of a directory that is a regular file; one that is staged
    under the path [path]; one whose blob is written at [place]. *)
Definition is_file (entry : string * option string) : bool :=
  match entry.2 with Some _ => true | None => false end.

Definition staged_by (filePath path : string)
  (entry : string * option string) : bool :=
  match entry.2 with
  | Some _ => bool_decide (relative (filePath +:+ "/" +:+ entry.1) = path)
  | None => false
  end.

Definition stored_by (place : string * string)
  (entry : string * option string) : bool :=
  match entry.2 with
  | Some content => bool_decide (getObjectPath (hashContent content) = place)
  | None => false
  end.

(** [addCommand(cwd, filePath)]; [target] is what the file system holds at
    [join(cwd, filePath)], [None] when nothing is there. *)
Definition addCommand (repo : Repository) (filePath : string)
  (target : option node) : run :=
  if negb (isInitialized repo) then
    {| ended := Exit 2;
       console := [Error "Error: not a prompt-vcs repository (.pvc not found)"];
       repo_after := repo |}
  else
    match target with
    | None =>
        {| ended := Exit 4;
           console := [Error ("Error: file not found: " +:+ filePath)];
           repo_after := repo |}
    | Some found =>
        match readIndex repo with
        | Throws e => {| ended := Uncaught e; console := []; repo_after := repo |}
        | Returns index =>
            match found with
            | Directory entries =>
                let '(repo', index', count) :=
                  addEntries filePath entries (repo, index) in
                {| ended := Exit 0;
                   console := [Log ("Staged " +:+ pretty count +:+ " files from "
                                    +:+ filePath)];
                   repo_after := writeIndex index' repo' |}
            | File content =>
                let '(repo', index') :=
                  addSingleFile (relative filePath) content (repo, index) in
                {| ended := Exit 0;
                   console := [Log ("Staged " +:+ filePath)];
                   repo_after := writeIndex index' repo' |}
            end
        end
    end.

(** The loop of [loadPromptFromCommit] over the entries of the tree: the
    content of the first entry that names a stored blob. An object that
    cannot be read or parsed is passed over, and so is a commit. *)
Fixpoint first_blob (repo : Repository) (entries : list (string * string))
  : option string :=
  match entries with
  | [] => None
  | (filepath, hash) :: rest =>
      match readObject repo hash with
      | Returns content =>
          match JSON_parse content with
          | Some (BlobObj text) => Some text
          | _ => first_blob repo rest
          end
      | Throws _ => first_blob repo rest
      end
  end.

(** [loadPromptFromCommit(repo, commitHash)] of the [test] command. *)
Definition loadPromptFromCommit (repo : Repository) (commitHash : string)
  : result string :=
  match getCommit JSON_parse repo commitHash with
  | None => Throws ("Commit not found: " +:+ commitHash)
  | Some commit =>
      match first_blob repo (Object_entries (tree commit)) with
      | Some text => Returns text
      | None => Throws ("No prompt found in commit " +:+ commitHash)
      end
  end.

(** [getCommitTree] of [commands/diff.ts]: the [tree] of whatever object
    the file holds, [undefined] ([None]) for a blob. *)
Definition getCommitTree (repo : Repository) (commitHash : string)
  : result (option (gmap string string)) :=
  match readObject repo commitHash with
  | Throws e => Throws e
  | Returns content =>
      match JSON_parse content with
      | None => Throws "SyntaxError: Unexpected token in JSON"
      | Some (CommitObj commit) => Returns (Some (tree commit))
      | Some (BlobObj _) => Returns None
      end
  end.

(** [getFileContent]: the text of a path in a tree. A value of the tree
    that looks like a digest names a blob of the store, any other value
    is the text itself; the [content] of a commit is [undefined]. The
    test [filePath in tree] also holds for a path that the tree inherits
    from [Object.prototype]: the inherited value does not look like a
    digest and is returned as it is. *)
Definition getFileContent (repo : Repository) (tree : gmap string string)
  (filePath : string) : result file_content :=
  match tree !! filePath with
  | Some hashOrContent =>
      if looks_like_hash hashOrContent then
        match readObject repo hashOrContent with
        | Throws e => Throws e
        | Returns blobContent =>
            match JSON_parse blobContent with
            | None => Throws "SyntaxError: Unexpected token in JSON"
            | Some (BlobObj content) => Returns (Text content)
            | Some (CommitObj _) => Returns NoContent
            end
        end
      else Returns (Text hashOrContent)
  | None =>
      if inherited filePath then Returns (Inherited filePath)
      else Returns (Text "")
  end.

(** The loop of [generateDiff] over the paths: the patches, in order. *)
Fixpoint diff_paths (repo : Repository) (fromTree toTree : gmap string string)
  (fromLabel toLabel : option string) (paths : list string)
  : result (list string) :=
  match paths with
  | [] => Returns []
  | filePath :: rest =>
      match getFileContent repo fromTree filePath with
      | Throws e => Throws e
      | Returns fromContent =>
          match getFileContent repo toTree filePath with
          | Throws e => Throws e
          | Returns toContent =>
              if bool_decide (fromContent = toContent) then
                diff_paths repo fromTree toTree fromLabel toLabel rest
              else
                match createTwoFilesPatch ("a/" +:+ filePath) ("b/" +:+ filePath)
                        fromContent toContent fromLabel toLabel with
                | Throws e => Throws e
                | Returns patch =>
                    match diff_paths repo fromTree toTree fromLabel toLabel
                            rest with
                    | Throws e => Throws e
                    | Returns patches => Returns (patch :: patches)
                    end
                end
          end
      end
  end.

(** [generateDiff]; [Object.keys] of a tree that is [undefined] throws. *)
Definition generateDiff (repo : Repository)
  (fromTree toTree : option (gmap string string))
  (fromLabel toLabel : option string) : result string :=
  match fromTree, toTree with
  | Some fromTree, Some toTree =>
      let allPaths :=
        Set_from ((Object_entries fromTree).*1 ++ (Object_entries toTree).*1) in
      match diff_paths repo fromTree toTree fromLabel toLabel allPaths with
      | Throws e => Throws e
      | Returns diffs => Returns (join newline diffs)
      end
  | _, _ => Throws "Cannot convert undefined or null to object"
  end.

(** The body of the [try] of [diffCommand]: the trees and the labels by
    the arguments that are given, then the text of the differences;
    [None] when the loop of the resolver does not end. [working] is the
    result of [getWorkingTree(cwd)]. *)
Definition diff_text (repo : Repository) (working : gmap string string)
  (headHash : string) (commitA commitB : option string)
  : option (result string) :=
  match truthy commitA, truthy commitB with
  | false, false =>
      Some match getCommitTree repo headHash with
           | Throws e => Throws e
           | Returns fromTree =>
               generateDiff repo fromTree (Some working)
                 (Some (take 7 headHash)) (Some "working")
           end
  | true, false =>
      match diff_resolveCommit JSON_parse repo (default "" commitA) with
      | None => None
      | Some (Throws e) => Some (Throws e)
      | Some (Returns hashA) =>
          Some match getCommitTree repo hashA with
               | Throws e => Throws e
               | Returns fromTree =>
                   generateDiff repo fromTree (Some working)
                     commitA (Some "working")
               end
      end
  | true, true =>
      match diff_resolveCommit JSON_parse repo (default "" commitA) with
      | None => None
      | Some (Throws e) => Some (Throws e)
      | Some (Returns hashA) =>
          match getCommitTree repo hashA with
          | Throws e => Some (Throws e)
          | Returns fromTree =>
              match diff_resolveCommit JSON_parse repo (default "" commitB) with
              | None => None
              | Some (Throws e) => Some (Throws e)
              | Some (Returns hashB) =>
                  Some match getCommitTree repo hashB with
                       | Throws e => Throws e
                       | Returns toTree =>
                           generateDiff repo fromTree toTree commitA commitB
                       end
              end
          end
      end
  | false, true =>
      Some (generateDiff repo (Some ∅) (Some ∅) None None)
  end.

(** [diffCommand(cwd, commitA, commitB)]: how it ends and what it prints;
    it writes nothing. *)
Definition diffCommand (repo : Repository) (working : gmap string string)
  (commitA commitB : option string) : option (completion * list line) :=
  if negb (isInitialized repo) then
    Some (Exit 2, [Error "Error: not a prompt-vcs repository (.pvc not found)"])
  else
    let headHash := getHead repo in
    if negb (truthy headHash) then
      Some (Exit 0, [Log "No differences found (no commits yet)"])
    else
      match diff_text repo working (default "" headHash) commitA commitB with
      | None => None
      | Some (Throws message) => Some (Exit 5, [Error ("Error: " +:+ message)])
      | Some (Returns diff) =>
          if is_empty diff
          then Some (Exit 0, [Log "No differences found"])
          else Some (Exit 0, [Log diff])
      end.

(** ** Specification vocabulary *)

(** The store holds a blob with the text [text] under the name [hash]. *)
Definition stored_blob (repo : Repository) (hash text : string) : Prop :=
  exists content,
    readObject repo hash = Returns content
    /\ JSON_parse content = Some (BlobObj text).

(** The working tree holds the files of a tree of a commit, each with the
    text of its blob, and nothing else; no text is taken for a digest. *)
Definition checked_out (repo : Repository) (tree working : gmap string string)
  : Prop :=
  forall path,
    match tree !! path with
    | Some hash =>
        looks_like_hash hash = true
        /\ exists text,
            stored_blob repo hash text
            /\ working !! path = Some text
            /\ looks_like_hash text = false
    | None => working !! path = None
    end.

End WithRuntime.

End Commands.

(* ===================================================================== *)
(** * The dataset parser: [DatasetParser]                                  *)
(* ===================================================================== *)
Module DatasetParser.
Import JS.

(** The values that the parser meets: those that [JSON.parse] returns,
    and [undefined] for a property that an object lacks. An object is the
    finite map of its own properties. *)
Local Unset Elimination Schemes.
Inductive value : Type :=
| Undefined
| Null
| Boolean (b : bool)
| Number (x : R)
| Str (s : string)
| Array (items : list value)
| Object (properties : gmap string value).
Local Set Elimination Schemes.

(** [typeof v === 'object'], [typeof v === 'string'], [v === null] and
    [Array.isArray(v)]. *)
Definition typeof_object (v : value) : bool :=
  match v with
  | Null | Array _ | Object _ => true
  | _ => false
  end.

Definition typeof_string (v : value) : bool :=
  match v with
  | Str _ => true
  | _ => false
  end.

Definition is_null (v : value) : bool :=
  match v with
  | Null => true
  | _ => false
  end.

Definition Array_isArray (v : value) : bool :=
  match v with
  | Array _ => true
  | _ => false
  end.

(** [key in v] and [v[key]] where [typeof v === 'object'] and [v] is not
    [null], for the keys of the parser (["testCases"], ["name"],
    ["inputs"]): no prototype defines them, and an array has no such
    property. *)
Definition has (key : string) (v : value) : bool :=
  match v with
  | Object properties => bool_decide (is_Some (properties !! key))
  | _ => false
  end.

Definition get (key : string) (v : value) : value :=
  match v with
  | Object properties => default Undefined (properties !! key)
  | _ => Undefined
  end.

Definition quoted (s : string) : string := dquote +:+ s +:+ dquote.

(** [DatasetParser.validateTestCase] *)
Definition validateTestCase (testCase : value) : result unit :=
  if is_null testCase || negb (typeof_object testCase) then
    Throws "Test case must be an object"
  else if negb (has "name" testCase)
          || negb (typeof_string (get "name" testCase)) then
    Throws ("Each test case must have a " +:+ quoted "name"
            +:+ " string property")
  else if negb (has "inputs" testCase)
          || is_null (get "inputs" testCase)
          || negb (typeof_object (get "inputs" testCase))
          || Array_isArray (get "inputs" testCase) then
    Throws ("Each test case must have an " +:+ quoted "inputs"
            +:+ " object property")
  else Returns tt.

(** The loop [for (const tc of d.testCases) this.validateTestCase(tc)]. *)
Fixpoint validate_each (testCases : list value) : result unit :=
  match testCases with
  | [] => Returns tt
  | tc :: rest =>
      match validateTestCase tc with
      | Throws message => Throws message
      | Returns _ => validate_each rest
      end
  end.

(** [DatasetParser.validateDataset] *)
Definition validateDataset (dataset : value) : result unit :=
  if is_null dataset || negb (typeof_object dataset) then
    Throws "Dataset must be an object"
  else if negb (has "testCases" dataset) then
    Throws ("Dataset must have a " +:+ quoted "testCases" +:+ " property")
  else
    match get "testCases" dataset with
    | Array testCases => validate_each testCases
    | _ => Throws "testCases must be an array"
    end.

(** [s.endsWith(suffix)] *)
Definition endsWith (s suffix : string) : bool :=
  Nat.leb (String.length suffix) (String.length s)
  && String.eqb (drop (String.length s - String.length suffix) s) suffix.

(** [`${v}`] on a field of a record that may be missing; [JSON.parse]
    converts its argument in the same way. *)
Definition String_of (v : option string) : string := default "undefined" v.

Section WithLibraries.

(** [JSON.parse], [parse] of [csv-parse/sync] with the options of
    [parseCSV] (a record per data row, keyed by the header), and
    [readFileSync(path, 'utf-8')]; what they throw is an [Error]. *)
Variable JSON_parse : string -> result value.
Variable parse : string -> result (list (gmap string string)).
Variable readFileSync : string -> result string.

(** [DatasetParser.parseJSON] *)
Definition parseJSON (content : string) : result value :=
  match JSON_parse content with
  | Throws message => Throws ("Invalid JSON format: " +:+ message)
  | Returns parsed =>
      match validateDataset parsed with
      | Throws message => Throws message
      | Returns _ => Returns parsed
      end
  end.

(** The body of the loop of [parseCSV]: the test case of one record. *)
Definition row (record : gmap string string) : result value :=
  let failed message :=
    Throws ("Invalid JSON in inputs column for "
            +:+ quoted (String_of (record !! "name")) +:+ ": " +:+ message) in
  match JSON_parse (String_of (record !! "inputs")) with
  | Throws message => failed message
  | Returns inputs =>
      if negb (typeof_object inputs) || is_null inputs || Array_isArray inputs
      then failed "Inputs must be an object"
      else
        let testCase : gmap string value :=
          <["inputs" := inputs]>
            {["name" := match record !! "name" with
                        | Some name => Str name
                        | None => Undefined
                        end]} in
        Returns
          (Object
             match record !! "expected_output" with
             | Some (String _ _ as expected) =>
                 <["expectedOutput" := Str expected]> testCase
             | _ => testCase
             end)
  end.

Fixpoint rows (records : list (gmap string string)) : result (list value) :=
  match records with
  | [] => Returns []
  | record :: rest =>
      match row record with
      | Throws message => Throws message
      | Returns testCase =>
          match rows rest with
          | Throws message => Throws message
          | Returns testCases => Returns (testCase :: testCases)
          end
      end
  end.

(** [DatasetParser.parseCSV] *)
Definition parseCSV (content : string) : result value :=
  if is_empty (trim content) then Throws "CSV content is empty"
  else
    match parse content with
    | Throws message => Throws ("Invalid CSV format: " +:+ message)
    | Returns records =>
        match records with
        | [] => Throws "CSV file contains no data rows"
        | firstRecord :: _ =>
            if negb (bool_decide (is_Some (firstRecord !! "name")))
               || negb (bool_decide (is_Some (firstRecord !! "inputs")))
            then
              Throws ("CSV must have " +:+ quoted "name" +:+ " and "
                      +:+ quoted "inputs" +:+ " columns")
            else
              match rows records with
              | Throws message => Throws message
              | Returns testCases =>
                  Returns (Object {["testCases" := Array testCases]})
              end
        end
    end.

(** [DatasetParser.parseFile] *)
Definition parseFile (filePath : string) : result value :=
  match readFileSync filePath with
  | Throws message => Throws ("Failed to read file: " +:+ message)
  | Returns content =>
      if endsWith filePath ".json" then parseJSON content
      else if endsWith filePath ".csv" then parseCSV content
      else
        Throws ("Unsupported file format: " +:+ filePath
                +:+ ". Use .json or .csv")
  end.

End WithLibraries.

(** ** Specification vocabulary *)

(** A test case as [validateTestCase] wants it: an object whose [name] is
    a string and whose [inputs] is an object that is no array. *)
Definition is_test_case (v : value) : Prop :=
  exists properties name inputs,
    v = Object properties
    /\ properties !! "name" = Some (Str name)
    /\ properties !! "inputs" = Some (Object inputs).

(** A dataset: an object whose [testCases] is an array of test cases. *)
Definition is_dataset (v : value) : Prop :=
  exists properties testCases,
    v = Object properties
    /\ properties !! "testCases" = Some (Array testCases)
    /\ Forall is_test_case testCases.

End DatasetParser.

(* ===================================================================== *)
(** * The client of the provider: construction and the masked key         *)
(* ===================================================================== *)
Module Client.
Import JS.
Local Open Scope R_scope.

(** [OpenAIClientOptions]: both fields are optional. *)
Record OpenAIClientOptions : Type := {
  opt_timeout : option R;
  opt_maxRetries : option R
}.

(** The fields of [OpenAIClient] that the constructor sets; the library's
    own client is built from the same three values. *)
Record OpenAIClient : Type := {
  apiKey : string;
  timeout : R;
  maxRetries : R
}.

(** [a || b] where [a] is [string | undefined]. *)
Definition or_else (a : option string) (b : string) : string :=
  match a with
  | Some (String _ _ as s) => s
  | _ => b
  end.

(** [x || d] on an optional number: [undefined] and [0] are falsy. *)
Definition or_number (x : option R) (d : R) : R :=
  match x with
  | Some v => if Req_dec_T v 0 then d else v
  | None => d
  end.

(** The constructor of [OpenAIClient]; [env_key] is
    [process.env.OPENAI_API_KEY]. *)
Definition new_OpenAIClient (env_key : option string)
  (apiKey : option string) (options : OpenAIClientOptions)
  : result OpenAIClient :=
  let key := or_else apiKey (or_else env_key "") in
  if is_empty key then
    Throws "OPENAI_API_KEY environment variable is required"
  else
    Returns {| apiKey := key;
               timeout := or_number (opt_timeout options) 60000;
               maxRetries := or_number (opt_maxRetries options) 3 |}.

(** The client that the constructor of [TestRunner] builds:
    [new OpenAIClient(options.apiKey, { maxRetries: options.maxRetries })]. *)
Definition new_TestRunner (env_key : option string)
  (options : Runner.TestRunnerOptions) : result OpenAIClient :=
  new_OpenAIClient env_key (Some (Runner.apiKey options))
    {| opt_timeout := None;
       opt_maxRetries := Some (INR (Runner.maxRetries options)) |}.

(** [OpenAIClient.getMaskedKey]; [s.slice(-4)] starts four characters
    before the end, or at the start of a shorter string. *)
Definition getMaskedKey (client : OpenAIClient) : string :=
  let key := apiKey client in
  if Nat.leb (String.length key) 8 then key
  else take 6 key +:+ "..." +:+ drop (String.length key - 4) key.

End Client.

(* --------------------------------------------------------------------- *)
(** ** A scripted provider

    The provider answers its n-th call as a script says; a call takes
    50 ms and a timer fires when its delay has passed. *)
(* --------------------------------------------------------------------- *)
Module RunnerScenario.
Import JS OpenAI Runner.
Local Open Scope R_scope.

Record Env : Type := { clock : R; calls_made : nat }.

Definition provider (script : nat -> SdkOutcome) (request : SdkRequest)
  (e : Env) : SdkOutcome * Env :=
  (script (calls_made e),
   {| clock := clock e + 50; calls_made := S (calls_made e) |}).

Definition Date_now (e : Env) : R := clock e.

Definition timer (ms : R) (e : Env) : Env :=
  {| clock := clock e + ms; calls_made := calls_made e |}.

Definition answer_OK : SdkResponse :=
  {| sdk_id := "resp";
     sdk_choices := [ {| sdk_content := Some "OK"; sdk_finish_reason := "stop" |} ];
     sdk_usage := Some {| sdk_prompt_tokens := 10;
                          sdk_completion_tokens := 5;
                          sdk_total_tokens := 15 |} |}.

Definition always_fails (n : nat) : SdkOutcome :=
  SdkThrows (SdkError "Persistent Error").

Definition fails_twice (n : nat) : SdkOutcome :=
  if Nat.ltb n 2 then SdkThrows (SdkError "Timeout") else SdkReturns answer_OK.

Definition options : TestRunnerOptions :=
  {| opt_model := "gpt-4"; concurrency := 2; maxRetries := 2; apiKey := "sk-test" |}.

Definition case1 : TestCase.t :=
  {| TestCase.name := "Test 1";
     TestCase.inputs := {["query" := "hello"]};
     TestCase.expectedOutput := None |}.

Definition case2 : TestCase.t :=
  {| TestCase.name := "Test 2";
     TestCase.inputs := {["query" := "world"]};
     TestCase.expectedOutput := None |}.

Definition midnight : World Env :=
  {| env := {| clock := 0; calls_made := 0 |}; trace := [] |}.

(** A provider that answers every call. *)
Definition answers (n : nat) : SdkOutcome := SdkReturns answer_OK.

Definition two_cases : Dataset := {| testCases := [case1; case2] |}.

(** A schedule in which the second case goes on and is settled before
    the first one; the turns after the fourth find nothing in flight. *)
Definition second_first : list nat :=
  [1; 1; 0; 0; 0; 0; 0; 0; 0; 0; 0; 0; 0; 0]%nat.

End RunnerScenario.

(* --------------------------------------------------------------------- *)
(** ** A repository with two commits

    The digests below are the SHA-256 values of the texts they belong to,
    and the texts are what [JSON.stringify] prints for the two commits. *)
(* --------------------------------------------------------------------- *)
Module RepoScenario.
Import JS Repo.

Definition blob1_hash : string :=
  "0ac46560e041dd7ae408035089e631b9bef26d90d7e763b5eabfb947c41d05a3".
Definition blob2_hash : string :=
  "4586e179e62c954d1f04aecdae6687cb09b2a0c4c2a4e7aab1b203afc1b095a5".
Definition commit1_hash : string :=
  "2ade1a19c0f01a15f4423edd2b21906b033439c36fe57fb3570810d4ed2ae30e".
Definition commit2_hash : string :=
  "bc5e450f78ead97ccbc56382bada8877dbc7847a7a1d568e1ae4351cbe007bf5".

Definition json_string (s : string) : string := dquote +:+ s +:+ dquote.

Definition json_member (kv : string * string) : string :=
  json_string kv.1 +:+ ":" +:+ json_string kv.2.

Fixpoint json_join (l : list string) : string :=
  match l with
  | [] => ""
  | [x] => x
  | x :: l' => x +:+ "," +:+ json_join l'
  end.

(** [JSON.stringify] on blobs and commits whose strings need no escape. *)
Definition stringify (o : RepositoryObject) : string :=
  match o with
  | BlobObj content =>
      "{" +:+ json_string "type" +:+ ":" +:+ json_string "blob" +:+ ","
      +:+ json_string "content" +:+ ":" +:+ json_string content +:+ "}"
  | CommitObj c =>
      "{" +:+ json_string "type" +:+ ":" +:+ json_string "commit" +:+ ","
      +:+ json_string "tree" +:+ ":{"
      +:+ json_join (json_member <$> map_to_list (tree c)) +:+ "},"
      +:+ json_string "parent" +:+ ":"
      +:+ match parent c with Some h => json_string h | None => "null" end
      +:+ "," +:+ json_string "message" +:+ ":" +:+ json_string (message c)
      +:+ "," +:+ json_string "timestamp" +:+ ":" +:+ json_string (timestamp c)
      +:+ "}"
  end.

Definition blob1 : RepositoryObject := BlobObj "Hello {{name}}!".
Definition blob2 : RepositoryObject := BlobObj "Hi {{name}}!".

Definition commit1 : Commit :=
  {| tree := {["prompt.txt" := blob1_hash]};
     parent := None;
     message := "Initial";
     timestamp := "2026-01-01T00:00:00.000Z" |}.

Definition commit2 : Commit :=
  {| tree := {["prompt.txt" := blob2_hash]};
     parent := Some commit1_hash;
     message := "Second";
     timestamp := "2026-01-02T00:00:00.000Z" |}.

(** SHA-256, tabulated on the texts of the scenario. *)
Definition sha256 (text : string) : string :=
  if String.eqb text (stringify (CommitObj commit1)) then commit1_hash
  else if String.eqb text (stringify (CommitObj commit2)) then commit2_hash
  else if String.eqb text "Hello {{name}}!" then blob1_hash
  else if String.eqb text "Hi {{name}}!" then blob2_hash
  else "".

(** [JSON.parse], tabulated on the files of the scenario. *)
Definition parse (text : string) : option RepositoryObject :=
  if String.eqb text (stringify (CommitObj commit1)) then Some (CommitObj commit1)
  else if String.eqb text (stringify (CommitObj commit2)) then Some (CommitObj commit2)
  else if String.eqb text (stringify blob1) then Some blob1
  else if String.eqb text (stringify blob2) then Some blob2
  else None.

(** After [pvc init] and [pvc add prompt.txt]. *)
Definition staged1 : Repository :=
  {| pvc_exists := true;
     index_json :=
       Some {| staged := {["prompt.txt" :=
                          {| sf_hash := blob1_hash; sf_path := "prompt.txt" |}]} |};
     HEAD_file := None;
     objects := {[getObjectPath blob1_hash := stringify blob1]} |}.

(** After [pvc commit -m "Initial"]. *)
Definition committed1 : Repository :=
  repo_after (commitCommand sha256 stringify staged1 "Initial"
                "2026-01-01T00:00:00.000Z").

(** After the prompt is edited and added again. *)
Definition staged2 : Repository :=
  writeIndex
    {| staged := {["prompt.txt" :=
                   {| sf_hash := blob2_hash; sf_path := "prompt.txt" |}]} |}
    (writeObject blob2_hash (stringify blob2) committed1).

(** After [pvc commit -m "Second"]. *)
Definition committed2 : Repository :=
  repo_after (commitCommand sha256 stringify staged2 "Second"
                "2026-01-02T00:00:00.000Z").

(** After [pvc init] alone: nothing is staged. *)
Definition fresh : Repository :=
  {| pvc_exists := true;
     index_json := Some {| staged := ∅ |};
     HEAD_file := None;
     objects := ∅ |}.

End RepoScenario.

(* --------------------------------------------------------------------- *)
(** ** A working directory with one prompt

    Paths are given relative to the working directory and in normal form,
    so [relative] leaves them as they are; the properties of an object are
    listed in the order of the map. *)
(* --------------------------------------------------------------------- *)
Module CommandScenario.
Import JS Repo Commands.

Definition relative (p : string) : string := p.

Definition Object_entries (m : gmap string string) : list (string * string) :=
  map_to_list m.

(** A stand-in for the patch of the library: the two header lines. *)
Definition createTwoFilesPatch (oldName newName : string)
  (oldText newText : file_content) (oldHeader newHeader : option string)
  : result string :=
  Returns ("--- " +:+ oldName +:+ newline +:+ "+++ " +:+ newName).

(** Before [pvc init]. *)
Definition empty_directory : Repository :=
  {| pvc_exists := false; index_json := None; HEAD_file := None; objects := ∅ |}.

Definition prompt : node := File "Hello {{name}}!".

(** A directory with one prompt and one subdirectory. *)
Definition prompts : list (string * option string) :=
  [("greeting.txt", Some "Hello {{name}}!"); ("drafts", None)].

(** The working tree that [getWorkingTree] scans when only the prompt is
    there. *)
Definition working : gmap string string := {["prompt.txt" := "Hello {{name}}!"]}.

(** A working tree with a file whose text is forty hexadecimal digits. *)
Definition working_with_digits : gmap string string :=
  {["notes.txt" := "0123456789abcdef0123456789abcdef01234567"]}.

End CommandScenario.

(* --------------------------------------------------------------------- *)
(** ** A dataset file

    A CSV file of one data row whose [expected_output] cell is empty, and
    stand-ins for the libraries that answer on it. *)
(* --------------------------------------------------------------------- *)
Module DatasetScenario.
Import JS DatasetParser.

Definition csv_text : string :=
  "name,inputs,expected_output" +:+ Commands.newline +:+ "Test 1,{},".

Definition record : gmap string string :=
  <["name" := "Test 1"]>
    (<["inputs" := "{}"]> {["expected_output" := ""]}).

Definition JSON_parse (text : string) : result value :=
  if String.eqb text "{}" then Returns (Object ∅)
  else Throws "Unexpected token".

Definition parse (content : string) : result (list (gmap string string)) :=
  if String.eqb content csv_text then Returns [record]
  else Throws "Invalid Record Length".

Definition readFileSync (path : string) : result string :=
  if String.eqb path "dataset.csv" then Returns csv_text
  else Throws "ENOENT: no such file or directory".

(** The dataset of the file. *)
Definition dataset : value :=
  Object
    {["testCases" :=
        Array [Object (<["inputs" := Object ∅]> {["name" := Str "Test 1"]})]]}.

End DatasetScenario.

(* ===================================================================== *)
(** * Part II: properties                                                  *)
(* ===================================================================== *)

(* --------------------------------------------------------------------- *)
(** ** Strings                                                             *)
(* --------------------------------------------------------------------- *)
Module StringFacts.

(** stdpp keeps [simpl] from unfolding the concatenation of strings; its
    two equations are used by rewriting instead. *)
Lemma app_nil_l_s (b : string) : "" +:+ b = b.
Proof. reflexivity. Qed.

Lemma app_cons_s (c : ascii) (a b : string) :
  String c a +:+ b = String c (a +:+ b).
Proof. reflexivity. Qed.

Lemma app_assoc_s (a b c : string) : (a +:+ b) +:+ c = a +:+ (b +:+ c).
Proof.
  induction a as [|x a IH]; [reflexivity|].
  now rewrite !app_cons_s, IH.
Qed.

Lemma app_nil_r_s (a : string) : a +:+ "" = a.
Proof.
  induction a as [|x a IH]; [reflexivity|].
  now rewrite app_cons_s, IH.
Qed.

Lemma length_app_s (a b : string) :
  String.length (a +:+ b) = String.length a + String.length b.
Proof.
  induction a as [|x a IH]; [reflexivity|].
  rewrite app_cons_s. simpl. now rewrite IH.
Qed.

(** Two ways of cutting one string: one of the two heads is a prefix of
    the other. *)
Lemma app_eq_app_s (a x b y : string) :
  a +:+ x = b +:+ y ->
  (exists z, b = a +:+ z /\ x = z +:+ y) \/
  (exists z, a = b +:+ z /\ y = z +:+ x).
Proof.
  revert b. induction a as [|c a IH]; intros b H.
  - left. exists b. split; [reflexivity | exact H].
  - destruct b as [|d b].
    + right. exists (String c a). split; [reflexivity | exact (eq_sym H)].
    + rewrite !app_cons_s in H. injection H as -> H.
      destruct (IH _ H) as [[z [-> ->]] | [z [-> ->]]].
      * left. exists z. split; reflexivity.
      * right. exists z. split; reflexivity.
Qed.

End StringFacts.

(* --------------------------------------------------------------------- *)
(** ** Template rendering                                                  *)
(* --------------------------------------------------------------------- *)
Module TemplateFacts.
Import Template StringFacts.

Lemma open_brace_not_word : is_word_char "{" = false.
Proof. reflexivity. Qed.

Lemma close_brace_not_word : is_word_char "}" = false.
Proof. reflexivity. Qed.

(** [span_word] splits its argument, the first part is made of word
    characters and the second part does not start with one. *)
Lemma span_word_split (s w r : string) :
  span_word s = (w, r) ->
  s = w +:+ r /\ Forall (fun c => is_word_char c = true) (list_ascii_of_string w).
Proof.
  revert w r. induction s as [|c s IH]; intros w r H; simpl in H.
  - injection H as <- <-. split; [reflexivity | constructor].
  - destruct (is_word_char c) eqn:Hc.
    + destruct (span_word s) as [w' r'] eqn:Hs.
      injection H as <- <-. destruct (IH _ _ eq_refl) as [-> Hw].
      split; [reflexivity | simpl; constructor; assumption].
    + injection H as <- <-. split; [reflexivity | constructor].
Qed.

Lemma span_word_stops (w r : string) :
  Forall (fun c => is_word_char c = true) (list_ascii_of_string w) ->
  (match r with String c _ => is_word_char c = false | EmptyString => True end) ->
  span_word (w +:+ r) = (w, r).
Proof.
  intros Hw Hr. induction w as [|c w IH].
  - rewrite app_nil_l_s. destruct r as [|c r]; [reflexivity | simpl; now rewrite Hr].
  - simpl in Hw. inversion Hw as [|? ? Hc Hw']; subst.
    rewrite app_cons_s. simpl. rewrite Hc, (IH Hw'). reflexivity.
Qed.

(** The scanner's one-step matcher is the regular expression: it succeeds
    exactly on the strings that start with a token. *)
Lemma match_token_sound (s name rest : string) :
  match_token s = Some (name, rest) -> word name /\ s = token name +:+ rest.
Proof.
  unfold match_token. intros H.
  destruct s as [|a s]; [discriminate|].
  destruct (Ascii.eqb_spec a "{"%char) as [->|Ha].
  2:{ destruct a as [[] [] [] [] [] [] [] []]; try discriminate; now elim Ha. }
  destruct s as [|b s]; [discriminate|].
  destruct (Ascii.eqb_spec b "{"%char) as [->|Hb].
  2:{ destruct b as [[] [] [] [] [] [] [] []]; try discriminate; now elim Hb. }
  destruct (span_word s) as [w r] eqn:Hs.
  destruct (span_word_split _ _ _ Hs) as [-> Hw].
  destruct w as [|c w]; [discriminate|].
  destruct r as [|d r]; [discriminate|].
  destruct (Ascii.eqb_spec d "}"%char) as [->|Hd].
  2:{ destruct d as [[] [] [] [] [] [] [] []]; try discriminate; now elim Hd. }
  destruct r as [|e r]; [discriminate|].
  destruct (Ascii.eqb_spec e "}"%char) as [->|He].
  2:{ destruct e as [[] [] [] [] [] [] [] []]; try discriminate; now elim He. }
  injection H as <- <-. split.
  - split; [discriminate | exact Hw].
  - unfold token. rewrite ?app_assoc_s, ?app_cons_s, ?app_nil_l_s.
    reflexivity.
Qed.

Lemma match_token_complete (name rest : string) :
  word name -> match_token (token name +:+ rest) = Some (name, rest).
Proof.
  intros [Hne Hw]. unfold token, match_token.
  rewrite ?app_assoc_s, ?app_cons_s, ?app_nil_l_s.
  rewrite (span_word_stops name (String "}" (String "}" rest)) Hw) by reflexivity.
  destruct name as [|c name]; [now elim Hne | reflexivity].
Qed.

Lemma chars_app (a b : string) :
  list_ascii_of_string (a +:+ b)
  = (list_ascii_of_string a ++ list_ascii_of_string b)%list.
Proof.
  induction a as [|c a IH]; [reflexivity|].
  rewrite app_cons_s. simpl. now rewrite IH.
Qed.

(** No token starts inside a text that holds none, even when a token
    follows the text: a match cannot run over the two opening braces. *)
Lemma no_match_before_token (c : ascii) (t name rest : string) :
  ~ has_token (String c t) -> word name ->
  match_token (String c t +:+ token name +:+ rest) = None.
Proof.
  intros Hfree Hname.
  destruct (match_token _) as [[n' r']|] eqn:Hm; [exfalso | reflexivity].
  apply match_token_sound in Hm. destruct Hm as [Hn' Heq].
  apply app_eq_app_s in Heq.
  destruct Heq as [[z [Hz1 Hz2]] | [z [Hz1 _]]].
  - (* the match would end inside the following token *)
    destruct z as [|d z].
    + apply Hfree. exists "", n', "". split; [assumption|].
      rewrite app_nil_l_s, app_nil_r_s in *. congruence.
    + unfold token in Hz2. rewrite ?app_assoc_s, ?app_cons_s, ?app_nil_l_s in Hz2.
      injection Hz2 as <- Hz2.
      unfold token in Hz1.
      rewrite ?app_assoc_s, ?app_cons_s, ?app_nil_l_s in Hz1.
      injection Hz1 as <- Hz1.
      destruct t as [|f t].
      * rewrite app_nil_l_s in Hz1. injection Hz1 as Hz1. subst z.
        destruct Hn' as [Hne Hw]. destruct n' as [|e n']; [now elim Hne|].
        rewrite ?app_assoc_s, ?app_cons_s in Hz2. injection Hz2 as <- _.
        simpl in Hw. inversion Hw as [|? ? He _]; subst. discriminate He.
      * rewrite app_cons_s in Hz1. injection Hz1 as <- Hz1.
        destruct Hn' as [_ Hw].
        assert (Hall : Forall (fun c => c <> "{"%char)
                         (list_ascii_of_string (n' +:+ "}}"))).
        { rewrite chars_app. apply Forall_app. split.
          - eapply Forall_impl; [exact Hw|]. intros a Ha ->. discriminate Ha.
          - repeat constructor; discriminate. }
        rewrite Hz1, chars_app in Hall. apply Forall_app in Hall.
        destruct Hall as [_ Hall]. simpl in Hall.
        inversion Hall as [|? ? Hbad _]; subst. now apply Hbad.
  - (* the match would lie inside the text *)
    apply Hfree. exists "", n', z. split; [assumption|].
    rewrite app_nil_l_s. exact Hz1.
Qed.

Lemma has_token_tail (c : ascii) (t : string) :
  has_token t -> has_token (String c t).
Proof.
  intros (pre & name & post & Hw & ->).
  exists (String c pre), name, post. split; [assumption | reflexivity].
Qed.

Lemma no_match_without_token (s : string) :
  ~ has_token s -> match_token s = None.
Proof.
  intros Hfree. destruct (match_token s) as [[n r]|] eqn:Hm; [exfalso | reflexivity].
  apply match_token_sound in Hm. destruct Hm as [Hn ->].
  apply Hfree. exists "", n, r. split; [assumption | reflexivity].
Qed.

(** The text after a match is strictly shorter: the scan terminates. *)
Lemma match_token_shorter (s key rest : string) :
  match_token s = Some (key, rest) -> String.length rest < String.length s.
Proof.
  intros H. apply match_token_sound in H. destruct H as [_ ->].
  unfold token. rewrite !length_app_s. simpl. lia.
Qed.

Lemma replace_from_fuel (inputs : gmap string string) (f1 f2 : nat) (s : string) :
  String.length s < f1 -> String.length s < f2 ->
  replace_from f1 inputs s = replace_from f2 inputs s.
Proof.
  revert f2 s. induction f1 as [|f1 IH]; intros f2 s H1 H2; [lia|].
  destruct f2 as [|f2]; [lia|]. simpl.
  destruct (match_token s) as [[key rest]|] eqn:Hm.
  - apply match_token_shorter in Hm. f_equal. apply IH; lia.
  - destruct s as [|c s]; [reflexivity|]. simpl in H1, H2.
    f_equal. apply IH; lia.
Qed.

(** The unfolding equation of the scan. *)
Lemma replaceVariables_unfold (inputs : gmap string string) (s : string) :
  replaceVariables s inputs =
  match match_token s with
  | Some (key, rest) => replacer inputs key +:+ replaceVariables rest inputs
  | None =>
      match s with
      | EmptyString => EmptyString
      | String c s' => String c (replaceVariables s' inputs)
      end
  end.
Proof.
  unfold replaceVariables at 1. simpl.
  destruct (match_token s) as [[key rest]|] eqn:Hm.
  - f_equal. unfold replaceVariables.
    apply match_token_shorter in Hm. apply replace_from_fuel; lia.
  - destruct s as [|c s]; reflexivity.
Qed.

Lemma replaceVariables_text (inputs : gmap string string) (text : string) :
  ~ has_token text -> replaceVariables text inputs = text.
Proof.
  induction text as [|c t IH]; intros Hfree; [reflexivity|].
  rewrite replaceVariables_unfold, (no_match_without_token _ Hfree).
  f_equal. apply IH. intros H. apply Hfree. now apply has_token_tail.
Qed.

Lemma replaceVariables_token
  (inputs : gmap string string) (text name rest : string) :
  ~ has_token text -> word name ->
  replaceVariables (text +:+ token name +:+ rest) inputs
  = text +:+ replacer inputs name +:+ replaceVariables rest inputs.
Proof.
  intros Hfree Hname. induction text as [|c t IH].
  - rewrite !app_nil_l_s, replaceVariables_unfold.
    now rewrite (match_token_complete _ _ Hname).
  - rewrite replaceVariables_unfold.
    rewrite (no_match_before_token _ _ _ _ Hfree Hname).
    rewrite !app_cons_s. f_equal. apply IH.
    intros H. apply Hfree. now apply has_token_tail.
Qed.

(** X29. Rendering copies the text that holds no token and goes on after
    each [{{name}}] token, which it replaces by the value of [name] when
    the inputs hold it, by the empty string when they do not and
    [Object.prototype] does not define [name] either, and by the text of
    the inherited value when it does; [render("Hi {{x}}", {})] is ["Hi "]
    and [render("Hi {{x}}", {x:"Bob"})] is ["Hi Bob"]. *)
Theorem replaceVariables_replaces_every_token :
  (forall (inputs : gmap string string) (text : string),
      ~ has_token text -> replaceVariables text inputs = text) /\
  (forall (inputs : gmap string string) (text name rest : string),
      ~ has_token text -> word name ->
      replaceVariables (text +:+ token name +:+ rest) inputs
      = text
        +:+ match inputs !! name with
            | Some value => value
            | None => if JS.inherited name then JS.inherited_text name else ""
            end
        +:+ replaceVariables rest inputs) /\
  replaceVariables "Hi {{x}}" ∅ = "Hi " /\
  replaceVariables "Hi {{x}}" {["x" := "Bob"]} = "Hi Bob".
Proof.
  split; [exact replaceVariables_text|].
  split; [exact replaceVariables_token|].
  split; vm_compute; reflexivity.
Qed.

(** X29 at the template ["Hi {{x}}"]: the text ["Hi "] holds no token and
    ["x"] is a word. *)
Lemma replaceVariables_example :
  ~ has_token "Hi " /\ word "x"
  /\ replaceVariables ("Hi " +:+ token "x" +:+ "") {["x" := "Bob"]}
     = "Hi " +:+ "Bob" +:+ replaceVariables "" {["x" := "Bob"]}.
Proof.
  assert (Hfree : ~ has_token "Hi ").
  { intros (pre & name & post & _ & Heq).
    apply (f_equal list_ascii_of_string) in Heq.
    unfold token in Heq. rewrite !chars_app in Heq.
    assert (Hin : In "{"%char (list_ascii_of_string "Hi ")).
    { rewrite Heq. apply in_or_app. right. apply in_or_app. left.
      apply in_or_app. left. now left. }
    cbn in Hin. intuition discriminate. }
  assert (Hword : word "x").
  { split; [discriminate | repeat constructor]. }
  split; [exact Hfree|]. split; [exact Hword|].
  exact (proj1 (proj2 replaceVariables_replaces_every_token)
           {["x" := "Bob"]} "Hi " "x" "" Hfree Hword).
Defined.

(** C8. The template ["Hi {{constructor}}"] rendered with no inputs: the
    token is unmatched, and it is not replaced by the empty string, as it
    is for the name [x], but by the text of the function that every
    object inherits under the name [constructor]; likewise for the other
    names of [Object.prototype]. *)
Theorem replaceVariables_inherited_name :
  ({[ "x" := "Bob" ]} : gmap string string) !! "constructor" = None
  /\ replaceVariables "Hi {{x}}" ∅ = "Hi "
  /\ replaceVariables "Hi {{x}}" {["x" := "Bob"]} = "Hi Bob"
  /\ replaceVariables "Hi {{constructor}}" ∅
     = "Hi function Object() { [native code] }"
  /\ replaceVariables "Hi {{constructor}}" ∅ <> "Hi "
  /\ replaceVariables "Hi {{constructor}}" {["x" := "Bob"]}
     = "Hi function Object() { [native code] }"
  /\ replaceVariables "{{toString}}{{__proto__}}" ∅
     = "function toString() { [native code] }[object Object]".
Proof. vm_compute. repeat split; discriminate. Qed.

End TemplateFacts.

(* --------------------------------------------------------------------- *)
(** ** The commit store                                                    *)
(* --------------------------------------------------------------------- *)
Module RepoFacts.
Import JS Repo.

Lemma blank_message (message : string) :
  (is_empty message || is_empty (trim message))%bool = true <-> trim message = "".
Proof.
  split.
  - intros H. apply orb_true_iff in H. destruct H as [H|H].
    + destruct message; [reflexivity | discriminate].
    + destruct (trim message); [reflexivity | discriminate].
  - intros ->. apply orb_true_r.
Qed.

Lemma no_staged_files (index : Index) :
  Nat.eqb (length (Object_keys (staged index))) 0 = true <-> staged index = ∅.
Proof.
  unfold Object_keys. rewrite length_fmap, Nat.eqb_eq.
  split.
  - intros H. apply map_to_list_empty_iff. now apply length_zero_iff_nil.
  - intros ->. now rewrite map_to_list_empty.
Qed.

(** What the loop that builds the tree has stored under a path after it
    went through the paths [l], starting from [acc]. *)
Lemma buildTree_lookup (index : Index) (l : list string)
  (acc : gmap string string) (path : string) :
  fold_left
    (fun tree path =>
       match staged index !! path with
       | Some file => <[path := sf_hash file]> tree
       | None => tree
       end) l acc !! path
  = match staged index !! path with
    | Some file => if decide (path ∈ l) then Some (sf_hash file) else acc !! path
    | None => acc !! path
    end.
Proof.
  revert acc. induction l as [|p l IH]; intros acc; cbn [fold_left].
  - destruct (staged index !! path); [|reflexivity].
    case_decide as Hin; [now apply elem_of_nil in Hin | reflexivity].
  - rewrite IH. destruct (staged index !! path) as [file|] eqn:Hpath.
    + destruct (decide (path ∈ l)) as [Hin|Hnin].
      * rewrite decide_True; [reflexivity | now right].
      * destruct (decide (path = p)) as [->|Hne].
        -- rewrite Hpath, lookup_insert_eq.
           rewrite decide_True; [reflexivity | now left].
        -- rewrite decide_False.
           2:{ intros Hc. apply elem_of_cons in Hc. tauto. }
           destruct (staged index !! p); [now rewrite lookup_insert_ne | reflexivity].
    + destruct (staged index !! p) eqn:Hp; [|reflexivity].
      rewrite lookup_insert_ne; [reflexivity | congruence].
Qed.

(** The tree of a commit maps exactly the staged paths to their staged
    blob digests. *)
Lemma buildTree_staged (index : Index) :
  buildTree (Object_keys (staged index)) index = sf_hash <$> staged index.
Proof.
  apply map_eq. intros path. unfold buildTree.
  rewrite buildTree_lookup, lookup_fmap, lookup_empty.
  destruct (staged index !! path) as [file|] eqn:Hpath; [|reflexivity].
  rewrite decide_True; [reflexivity|].
  unfold Object_keys. apply list_elem_of_fmap. exists (path, file).
  split; [reflexivity | now apply elem_of_map_to_list].
Qed.

Section Commit.

Variable hashContent : string -> string.
Variable JSON_stringify : RepositoryObject -> string.

(** C1. In an initialised repository, [commit] with an empty or blank
    message, and [commit] with any message when nothing is staged, fails
    with a validation error (exit code 1 or 3 and one line on the error
    console) and leaves the repository, HEAD and staging index included,
    exactly as it was. *)
Theorem commit_failure_leaves_repository
  (repo : Repository) (message now : string) :
  isInitialized repo = true ->
  trim message = ""
  \/ (exists index, index_json repo = Some index /\ staged index = ∅) ->
  let r := commitCommand hashContent JSON_stringify repo message now in
  ValidationError r
  /\ repo_after r = repo
  /\ HEAD_file (repo_after r) = HEAD_file repo
  /\ index_json (repo_after r) = index_json repo.
Proof.
  intros Hinit Hbad r. subst r. unfold commitCommand.
  rewrite Hinit. cbn [negb].
  destruct (is_empty message || is_empty (trim message))%bool eqn:Hblank.
  - split; [|repeat split]. eexists 1, _. split; [now left|]. split; reflexivity.
  - destruct Hbad as [Hbad | (index & Hindex & Hnone)].
    + apply blank_message in Hbad. congruence.
    + unfold readIndex. rewrite Hindex.
      rewrite (proj2 (no_staged_files index) Hnone).
      split; [|repeat split; cbn; congruence].
      eexists 3, _. split; [now right|]. split; reflexivity.
Qed.


End Commit.

(** The hypotheses of C1 hold in a fresh repository, whatever the
    message. *)
Lemma commit_failure_example :
  isInitialized RepoScenario.fresh = true
  /\ ValidationError
       (commitCommand RepoScenario.sha256 RepoScenario.stringify
          RepoScenario.fresh "Empty commit" "2026-01-01T00:00:00.000Z")
  /\ repo_after
       (commitCommand RepoScenario.sha256 RepoScenario.stringify
          RepoScenario.fresh "Empty commit" "2026-01-01T00:00:00.000Z")
     = RepoScenario.fresh.
Proof.
  split; [reflexivity|].
  pose proof (commit_failure_leaves_repository
                RepoScenario.sha256 RepoScenario.stringify
                RepoScenario.fresh "Empty commit" "2026-01-01T00:00:00.000Z"
                eq_refl
                (or_intror (ex_intro _ {| staged := ∅ |} (conj eq_refl eq_refl))))
    as H.
  split; [exact (proj1 H) | exact (proj1 (proj2 H))].
Defined.


(** *** The two resolvers *)
Section Resolve.
Local Open Scope list_scope.

Variable JSON_parse : string -> option RepositoryObject.

(** The resolver of the [test] command resolves ["HEAD"] to the pointer. *)
Lemma resolveCommit_HEAD (repo : Repository) :
  resolveCommit JSON_parse repo "HEAD" = getHead repo.
Proof. reflexivity. Qed.

(** Every other token resolves to itself or not at all: the resolver of
    the [test] command never returns a digest that the token only
    abbreviates. *)
Lemma resolveCommit_exact (repo : Repository) (ref target : string) :
  ref <> "HEAD" ->
  resolveCommit JSON_parse repo ref = Some target ->
  target = ref /\ 7 <= String.length ref
  /\ exists commit, getCommit JSON_parse repo ref = Some commit.
Proof.
  intros Hne. unfold resolveCommit.
  destruct (Nat.leb 7 (String.length ref)) eqn:Hlen.
  - destruct (getCommit JSON_parse repo ref) as [commit|] eqn:Hcommit.
    + intros [= <-]. apply Nat.leb_le in Hlen. eauto.
    + destruct (String.eqb_spec ref "HEAD"); [contradiction | discriminate].
  - destruct (String.eqb_spec ref "HEAD"); [contradiction | discriminate].
Qed.

Lemma take_drop_s (n : nat) (s : string) : take n s +:+ drop n s = s.
Proof.
  revert s. induction n as [|n IH]; intros [|c s]; try reflexivity.
  cbn [take drop]. now rewrite StringFacts.app_cons_s, IH.
Qed.

Lemma getObjectPath_inj (a b : string) :
  getObjectPath a = getObjectPath b -> a = b.
Proof.
  unfold getObjectPath. intros H.
  pose proof (f_equal fst H) as Htake. pose proof (f_equal snd H) as Hdrop.
  cbn [fst snd] in Htake, Hdrop.
  now rewrite <- (take_drop_s 2 a), <- (take_drop_s 2 b), Htake, Hdrop.
Qed.

(** The chain of parents is a function of where it starts. *)
Lemma commit_chain_det (repo : Repository) (current : option string)
  (l1 l2 : list string) :
  commit_chain JSON_parse repo current l1 ->
  commit_chain JSON_parse repo current l2 -> l1 = l2.
Proof.
  intros H1. revert l2.
  induction H1 as [current Hfalsy | hash next rest Htruthy Hparent _ IH];
    intros l2 H2.
  - inversion H2 as [? _ | ? ? ? Htruthy' ]; subst; [reflexivity | congruence].
  - inversion H2 as [? Hfalsy | ? next' rest' _ Hparent' Hrest']; subst.
    + congruence.
    + f_equal. apply IH. congruence.
Qed.

(** From every digest of a chain, the rest of the chain is its chain. *)
Lemma commit_chain_suffix (repo : Repository) (current : option string)
  (chain : list string) (hash : string) :
  commit_chain JSON_parse repo current chain ->
  In hash chain ->
  exists before after,
    chain = before ++ hash :: after
    /\ commit_chain JSON_parse repo (Some hash) (hash :: after).
Proof.
  induction 1 as [current Hfalsy | h next rest Htruthy Hparent Hrest IH];
    intros Hin; [destruct Hin|].
  destruct (string_dec h hash) as [->|Hne].
  - exists [], rest. split; [reflexivity | now constructor 2 with next].
  - destruct Hin as [Heq | Hin]; [contradiction|].
    destruct (IH Hin) as (before & after & -> & Hchain).
    exists (h :: before), after. split; [reflexivity | exact Hchain].
Qed.

(** A chain that ends visits no commit twice. *)
Lemma commit_chain_NoDup (repo : Repository) (current : option string)
  (chain : list string) :
  commit_chain JSON_parse repo current chain -> NoDup chain.
Proof.
  induction 1 as [current Hfalsy | h next rest Htruthy Hparent Hrest IH];
    [constructor|].
  constructor; [|exact IH].
  intros Hin. apply list_elem_of_In in Hin.
  destruct (commit_chain_suffix _ _ _ _ Hrest Hin) as (before & after & Heq & Hchain).
  assert (Hsame : h :: after = h :: rest).
  { eapply commit_chain_det; [exact Hchain|]. now constructor 2 with next. }
  injection Hsame as Hsame. subst after.
  apply (f_equal (@length string)) in Heq.
  rewrite length_app in Heq. cbn in Heq. lia.
Qed.

(** Every commit of the chain is an object of the store. *)
Lemma commit_chain_stored (repo : Repository) (current : option string)
  (chain : list string) :
  commit_chain JSON_parse repo current chain ->
  Forall (fun hash => is_Some (objects repo !! getObjectPath hash)) chain.
Proof.
  induction 1 as [current Hfalsy | h next rest Htruthy Hparent Hrest IH];
    constructor; [|exact IH].
  unfold diff_getCommit_parent, readObject in Hparent.
  destruct (objects repo !! getObjectPath h); [eauto | discriminate].
Qed.

Lemma commit_chain_length (repo : Repository) (current : option string)
  (chain : list string) :
  commit_chain JSON_parse repo current chain ->
  length chain <= size (objects repo).
Proof.
  intros Hchain.
  pose proof (commit_chain_NoDup _ _ _ Hchain) as Hnodup.
  pose proof (commit_chain_stored _ _ _ Hchain) as Hstored.
  assert (Hpaths : NoDup (getObjectPath <$> chain)).
  { apply NoDup_fmap_2; [|exact Hnodup].
    intros a b. apply getObjectPath_inj. }
  rewrite <- (length_fmap getObjectPath chain).
  rewrite <- (size_list_to_set (C := gset (string * string)) _ Hpaths).
  rewrite <- size_dom.
  apply subseteq_size. intros path Hin.
  apply elem_of_list_to_set, list_elem_of_fmap in Hin.
  destruct Hin as (hash & -> & Hin).
  apply elem_of_dom. rewrite Forall_forall in Hstored. now apply Hstored.
Qed.

(** With enough iterations the loop of the [diff] command returns the
    first digest of the chain that starts with the token, and throws when
    there is none. *)
Lemma diff_walk_first_match (repo : Repository) (shortHash : string)
  (current : option string) (chain : list string) :
  commit_chain JSON_parse repo current chain ->
  forall fuel, length chain <= fuel ->
  diff_walk JSON_parse fuel repo shortHash current
  = Some match List.find (fun digest => startsWith digest shortHash) chain with
         | Some digest => Returns digest
         | None => Throws ("Invalid commit: " +:+ shortHash)
         end.
Proof.
  induction 1 as [current Hfalsy | h next rest Htruthy Hparent Hrest IH];
    intros fuel Hfuel.
  - destruct current as [[|c h]|]; try discriminate; now destruct fuel.
  - destruct h as [|c h]; [discriminate|].
    cbn [List.find]. cbn [length] in Hfuel.
    destruct fuel as [|fuel]; [lia|].
    cbn [diff_walk].
    destruct (startsWith (String c h) shortHash); [reflexivity|].
    rewrite Hparent. apply IH. lia.
Qed.

(** The resolver of the [diff] command, on a repository with a commit
    and a chain of parents that ends: a token other than ["HEAD"] resolves
    as the specification says. *)
Lemma diff_resolveCommit_first_match (repo : Repository)
  (shortHash : string) (chain : list string) :
  truthy (getHead repo) = true ->
  commit_chain JSON_parse repo (getHead repo) chain ->
  shortHash <> "HEAD" ->
  diff_resolveCommit JSON_parse repo shortHash
  = Some match spec_resolve (getHead repo) chain shortHash with
         | Some digest => Returns digest
         | None => Throws ("Invalid commit: " +:+ shortHash)
         end.
Proof.
  intros Htruthy Hchain Hne. unfold diff_resolveCommit, spec_resolve.
  rewrite Htruthy. cbn [negb].
  destruct (String.eqb_spec shortHash "HEAD"); [contradiction|].
  apply diff_walk_first_match with (1 := Hchain).
  pose proof (commit_chain_length _ _ _ Hchain). lia.
Qed.

End Resolve.

(** C3. In the repository with two commits, the resolver of the [test]
    command does not find the first commit by the first seven characters
    of its digest, nor HEAD's commit by a prefix, although the first match
    along the chain of parents exists and the resolver of the [diff]
    command returns it; and the resolver of the [diff] command rejects the
    token ["HEAD"], which the resolver of the [test] command resolves to
    the HEAD pointer. *)
Theorem resolveCommit_misses_prefix :
  let repo := RepoScenario.committed2 in
  let chain := [RepoScenario.commit2_hash; RepoScenario.commit1_hash] in
  getHead repo = Some RepoScenario.commit2_hash
  /\ spec_resolve (getHead repo) chain "2ade1a1" = Some RepoScenario.commit1_hash
  /\ resolveCommit RepoScenario.parse repo "2ade1a1" = None
  /\ resolveCommit RepoScenario.parse repo "bc5e450" = None
  /\ diff_resolveCommit RepoScenario.parse repo "2ade1a1"
     = Some (Returns RepoScenario.commit1_hash)
  /\ spec_resolve (getHead repo) chain "HEAD" = Some RepoScenario.commit2_hash
  /\ resolveCommit RepoScenario.parse repo "HEAD" = Some RepoScenario.commit2_hash
  /\ diff_resolveCommit RepoScenario.parse repo "HEAD"
     = Some (Throws "Invalid commit: HEAD").
Proof. vm_compute. repeat split. Qed.

End RepoFacts.

(* --------------------------------------------------------------------- *)
(** ** The test runner, one case at a time                                 *)
(* --------------------------------------------------------------------- *)
Module RetryFacts.
Import JS OpenAI Runner.
Local Open Scope list_scope.

Lemma calls_app (l1 l2 : list event) : calls (l1 ++ l2) = calls l1 + calls l2.
Proof. unfold calls. now rewrite List.filter_app, length_app. Qed.

Lemma calls_call (request : ChatCompletionRequest)
  (answer : result ChatCompletionResponse) (l : list event) :
  calls (Called request answer :: l) = S (calls l).
Proof. reflexivity. Qed.

Lemma calls_sleep (ms : R) (l : list event) : calls (Slept ms :: l) = calls l.
Proof. reflexivity. Qed.

(** The message of an error of the client is never empty, so the
    fallback ['Unknown error'] does not replace it. *)
Lemma or_string_client_message (thrown : SdkThrown) (fallback : string) :
  or_string (client_message thrown) fallback = client_message thrown.
Proof. reflexivity. Qed.

Section OneCase.

Variable Env : Type.
Variable sdk_create : SdkRequest -> Env -> SdkOutcome * Env.
Variable Date_now : Env -> R.
Variable timer : R -> Env -> Env.
Variable options : TestRunnerOptions.
Variable testCase : TestCase.t.
Variable promptTemplate : string.

Let request := request_of options testCase promptTemplate.
Let prompt :=
  Template.replaceVariables promptTemplate (TestCase.inputs testCase).

(** The client answers with a response, or throws an [OpenAIError] whose
    message is [client_message] of what the library threw. *)
Lemma createChatCompletion_answers (e : Env) :
  (exists response e',
      sdk_create (sdk_request_of options testCase promptTemplate) e
      = (SdkReturns response, e')
      /\ exists answer,
        createChatCompletion Env sdk_create request e = (Returns answer, e'))
  \/ (exists thrown e',
         sdk_create (sdk_request_of options testCase promptTemplate) e
         = (SdkThrows thrown, e')
         /\ createChatCompletion Env sdk_create request e
            = (Throws (client_message thrown), e')).
Proof.
  unfold createChatCompletion, request, request_of, sdk_request_of. cbn.
  destruct (sdk_create _ e) as [[response|thrown] e'].
  - left. exists response, e'. split; [reflexivity|]. eexists. reflexivity.
  - right. exists thrown, e'. split; reflexivity.
Qed.

Lemma attempts_unfold (startTime : R) (remaining attempt : nat)
  (lastError : option string) :
  attempts options testCase prompt startTime (S remaining) attempt lastError
  = Call request
      (fun answer =>
         match answer with
         | Returns response => succeeded options testCase startTime response
         | Throws message =>
             if Nat.ltb attempt (maxRetries options) then
               Sleep (2 ^ attempt * 1000)
                 (attempts options testCase prompt startTime remaining
                    (S attempt) (Some message))
             else
               attempts options testCase prompt startTime remaining
                 (S attempt) (Some message)
         end).
Proof. reflexivity. Qed.

Lemma exec_call (req : ChatCompletionRequest)
  (k : result ChatCompletionResponse -> prog TestCaseResult.t) (w : World Env) :
  exec Env sdk_create Date_now timer (Call req k) w
  = let '(answer, e') := createChatCompletion Env sdk_create req (env Env w) in
    exec Env sdk_create Date_now timer (k answer)
      {| env := e'; trace := trace Env w ++ [Called req answer] |}.
Proof. reflexivity. Qed.

Lemma exec_sleep (ms : R) (k : prog TestCaseResult.t) (w : World Env) :
  exec Env sdk_create Date_now timer (Sleep ms k) w
  = exec Env sdk_create Date_now timer k
      {| env := timer ms (env Env w); trace := trace Env w ++ [Slept ms] |}.
Proof. reflexivity. Qed.

(** The loop of [executeTestCase], from the attempt [attempt] on, with
    [S remaining] iterations left: its log follows the retry policy, it
    calls the client at least once and at most [S remaining] times, and
    it returns the record of the first success, or the record of the last
    failure when every call failed. *)
Lemma attempts_exec (remaining : nat) :
  forall (attempt : nat) (lastError : option string) (startTime : R)
         (w : World Env),
    attempt + S remaining = S (maxRetries options) ->
    let res :=
      exec Env sdk_create Date_now timer
        (attempts options testCase prompt startTime (S remaining) attempt
           lastError) w in
    exists events,
      trace Env res.2 = trace Env w ++ events
      /\ retry_log request attempt events
      /\ 1 <= calls events <= S remaining
      /\ ((exists pre response e sdk_response,
              events = pre ++ [Called request (Returns response)]
              /\ sdk_create (sdk_request_of options testCase promptTemplate) e
                 = (SdkReturns sdk_response, env Env res.2)
              /\ res.1 = success_result options testCase startTime
                           (Date_now (env Env res.2)) response)
          \/ (exists pre thrown e,
                 events = pre ++ [Called request (Throws (client_message thrown))]
                 /\ sdk_create (sdk_request_of options testCase promptTemplate) e
                    = (SdkThrows thrown, env Env res.2)
                 /\ all_calls_failed events
                 /\ calls events = S remaining
                 /\ res.1 = failure_result testCase startTime
                              (Date_now (env Env res.2))
                              (Some (client_message thrown)))).
Proof.
  induction remaining as [|remaining IH];
    intros attempt lastError startTime w Hsum res; subst res;
    rewrite attempts_unfold, exec_call;
    destruct (createChatCompletion_answers (env Env w))
      as [(response & e' & Hsdk & answer & ->) | (thrown & e' & Hsdk & ->)].
  - (* the only attempt left succeeds *)
    exists [Called request (Returns answer)]. cbn.
    split; [reflexivity|]. split; [constructor|]. split; [lia|].
    left. exists [], answer, (env Env w), response. repeat split. exact Hsdk.
  - (* the only attempt left fails: attempt = maxRetries *)
    assert (Hlast : Nat.ltb attempt (maxRetries options) = false)
      by (apply Nat.ltb_ge; lia).
    rewrite Hlast. cbn.
    exists [Called request (Throws (client_message thrown))].
    split; [reflexivity|]. split; [constructor|]. split; [cbn; lia|].
    right. exists [], thrown, (env Env w).
    split; [reflexivity|]. split; [exact Hsdk|].
    split; [repeat constructor|]. split; reflexivity.
  - exists [Called request (Returns answer)]. cbn.
    split; [reflexivity|]. split; [constructor|]. split; [cbn; lia|].
    left. exists [], answer, (env Env w), response. repeat split. exact Hsdk.
  - (* a failed attempt, a timer, and the attempts that follow *)
    assert (Hmore : Nat.ltb attempt (maxRetries options) = true)
      by (apply Nat.ltb_lt; lia).
    rewrite Hmore, exec_sleep.
    match goal with
    | |- context [exec _ _ _ _ _ ?w1] =>
        destruct (IH (S attempt) (Some (client_message thrown)) startTime w1
                    ltac:(lia))
          as (events & Htrace & Hlog & Hcalls & Hend)
    end.
    exists (Called request (Throws (client_message thrown))
              :: Slept (2 ^ attempt * 1000) :: events).
    split.
    { rewrite Htrace. cbn [trace]. rewrite <- !app_assoc. reflexivity. }
    split; [now constructor|].
    split; [rewrite calls_call, calls_sleep; lia|].
    destruct Hend as [(pre & response & e & sdk_response & -> & Hlast & Hres)
                     | (pre & x & e & -> & Hlast & Hall & Hn & Hres)].
    + left. eexists (_ :: _ :: pre), response, e, sdk_response.
      split; [reflexivity|]. split; [exact Hlast | exact Hres].
    + right. eexists (_ :: _ :: pre), x, e. split; [reflexivity|].
      split; [exact Hlast|]. split; [repeat constructor; exact Hall|].
      split; [|exact Hres].
      rewrite calls_call, calls_sleep. lia.
Qed.

(** [executeTestCase] reads the clock and enters the loop with
    [maxRetries + 1] iterations ahead. *)
Lemma executeTestCase_exec (w : World Env) :
  exec Env sdk_create Date_now timer
    (executeTestCase options testCase promptTemplate) w
  = exec Env sdk_create Date_now timer
      (attempts options testCase prompt (Date_now (env Env w))
         (S (maxRetries options)) 0 None) w.
Proof. reflexivity. Qed.

(** A log that ends with an answered call is not a log of failures. *)
Lemma answered_not_failed (pre : list event) (req : ChatCompletionRequest)
  (response : ChatCompletionResponse) :
  ~ all_calls_failed (pre ++ [Called req (Returns response)]).
Proof.
  intros H. apply Forall_app in H. destruct H as [_ H].
  inversion H as [|? ? Hbad _]; subst. exact Hbad.
Qed.

(** C5. With [maxRetries = m], a case calls the provider at least once
    and at most [m + 1] times; a timer of [2 ^ attempt] seconds follows
    each failed attempt but the last possible one, and nothing else
    happens; the case succeeds, or all [m + 1] calls were made. With
    [m = 2], a provider that fails twice and then answers is called three
    times and the case succeeds; a provider that always fails is called
    three times and the case fails with the message of the last error. *)
Theorem retry_policy (w : World Env) :
  let m := maxRetries options in
  let sdk_request := sdk_request_of options testCase promptTemplate in
  let res :=
    exec Env sdk_create Date_now timer
      (executeTestCase options testCase promptTemplate) w in
  (exists events,
      trace Env res.2 = trace Env w ++ events
      /\ retry_log request 0 events
      /\ 1 <= calls events <= m + 1
      /\ (TestCaseResult.success res.1 = true \/ calls events = m + 1))
  /\ (m = 2 ->
      forall x1 e1 x2 e2 response e3,
        sdk_create sdk_request (env Env w) = (SdkThrows x1, e1) ->
        sdk_create sdk_request (timer 1000 e1) = (SdkThrows x2, e2) ->
        sdk_create sdk_request (timer 2000 e2) = (SdkReturns response, e3) ->
        calls (trace Env res.2) = calls (trace Env w) + 3
        /\ TestCaseResult.success res.1 = true)
  /\ (m = 2 ->
      (forall e, exists thrown e',
          sdk_create sdk_request e = (SdkThrows thrown, e')) ->
      calls (trace Env res.2) = calls (trace Env w) + 3
      /\ TestCaseResult.success res.1 = false
      /\ exists pre thrown,
          trace Env res.2
          = trace Env w ++ pre ++ [Called request (Throws (client_message thrown))]
          /\ TestCaseResult.error res.1 = Some (client_message thrown)).
Proof.
  intros m sdk_request res. subst res. rewrite executeTestCase_exec.
  destruct (attempts_exec (maxRetries options) 0 None (Date_now (env Env w)) w
              eq_refl)
    as (events & Htrace & Hlog & Hcalls & Hend).
  cbv zeta in Htrace, Hend.
  split; [|split].
  - exists events. split; [exact Htrace|]. split; [exact Hlog|].
    split; [subst m; lia|].
    destruct Hend as [(pre & response & e & r & _ & _ & ->)
                     | (pre & x & e & _ & _ & _ & Hn & _)].
    + left. reflexivity.
    + right. subst m. lia.
  - (* fails twice, then answers *)
    clear events Htrace Hlog Hcalls Hend.
    intros Hm x1 e1 x2 e2 response e3 H1 H2 H3. subst m. rewrite Hm.
    rewrite attempts_unfold, exec_call. unfold createChatCompletion.
    change (sdk_create _ (env Env w)) with (sdk_create sdk_request (env Env w)).
    rewrite H1, Hm. cbv beta iota zeta delta [Nat.ltb Nat.leb]. rewrite exec_sleep.
    rewrite attempts_unfold, exec_call. unfold createChatCompletion.
    cbn [env trace].
    replace (2 ^ 0 * 1000)%R with 1000%R by (simpl; lra).
    change (sdk_create _ (timer 1000 e1))
      with (sdk_create sdk_request (timer 1000 e1)).
    rewrite H2, Hm. cbv beta iota zeta delta [Nat.ltb Nat.leb]. rewrite exec_sleep.
    rewrite attempts_unfold, exec_call. unfold createChatCompletion.
    cbn [env trace].
    replace (2 ^ 1 * 1000)%R with 2000%R by (simpl; lra).
    change (sdk_create _ (timer 2000 e2))
      with (sdk_create sdk_request (timer 2000 e2)).
    rewrite H3. cbn. fold (calls (trace Env w)).
    rewrite !List.filter_app, !length_app. cbn.
    fold (calls (trace Env w)). split; [lia | reflexivity].
  - (* always fails *)
    intros Hm Hfails.
    destruct Hend as [(pre & response & e & r & _ & Hsdk & _)
                     | (pre & x & e & -> & _ & _ & Hn & ->)].
    + destruct (Hfails e) as (thrown & e' & Hthrown).
      unfold sdk_request in Hthrown. rewrite Hsdk in Hthrown. discriminate.
    + rewrite Htrace, calls_app, Hn. subst m. rewrite Hm.
      split; [reflexivity|]. split; [reflexivity|].
      exists pre, x. split; reflexivity.
Qed.

(** C6, as the code has it. When every call of a case failed, the record
    of the case has [success = false], the tokens and the cost are 0, the
    error is the message of the last error, all [maxRetries + 1] calls
    were made, and the latency is the time that passed from the start of
    the case to its end; the latency is not set to 0. *)
Theorem failed_case_record (w : World Env) (events : list event) :
  let res :=
    exec Env sdk_create Date_now timer
      (executeTestCase options testCase promptTemplate) w in
  trace Env res.2 = trace Env w ++ events ->
  all_calls_failed events ->
  TestCaseResult.success res.1 = false
  /\ TestCaseResult.inputTokens res.1 = 0%R
  /\ TestCaseResult.outputTokens res.1 = 0%R
  /\ TestCaseResult.cost res.1 = 0%R
  /\ TestCaseResult.latency res.1
     = (Date_now (env Env res.2) - Date_now (env Env w))%R
  /\ calls events = maxRetries options + 1
  /\ exists pre thrown,
      events = pre ++ [Called request (Throws (client_message thrown))]
      /\ TestCaseResult.error res.1 = Some (client_message thrown).
Proof.
  intros res. subst res. rewrite executeTestCase_exec.
  destruct (attempts_exec (maxRetries options) 0 None (Date_now (env Env w)) w
              eq_refl)
    as (events' & Htrace & _ & _ & Hend).
  cbv zeta in Htrace, Hend. intros Hevents Hfailed.
  assert (events' = events) as ->.
  { rewrite Htrace in Hevents. now apply app_inv_head in Hevents. }
  destruct Hend as [(pre & response & e & r & -> & _ & _)
                   | (pre & x & e & -> & _ & _ & Hn & ->)].
  - now apply answered_not_failed in Hfailed.
  - repeat split; [lia|]. exists pre, x. split; reflexivity.
Qed.

End OneCase.

(** ** The retry policy on the scripted provider *)

(** The hypotheses of the two particular cases of C5 hold for the scripted
    providers: one fails twice and then answers, the other always fails. *)
Lemma retry_policy_example :
  maxRetries RunnerScenario.options = 2
  /\ calls
       (trace _
          (exec _ (RunnerScenario.provider RunnerScenario.fails_twice)
             RunnerScenario.Date_now RunnerScenario.timer
             (executeTestCase RunnerScenario.options RunnerScenario.case1
                "{{query}}")
             RunnerScenario.midnight).2) = 3
  /\ TestCaseResult.success
       (exec _ (RunnerScenario.provider RunnerScenario.fails_twice)
          RunnerScenario.Date_now RunnerScenario.timer
          (executeTestCase RunnerScenario.options RunnerScenario.case1
             "{{query}}")
          RunnerScenario.midnight).1 = true
  /\ calls
       (trace _
          (exec _ (RunnerScenario.provider RunnerScenario.always_fails)
             RunnerScenario.Date_now RunnerScenario.timer
             (executeTestCase RunnerScenario.options RunnerScenario.case1
                "{{query}}")
             RunnerScenario.midnight).2) = 3
  /\ TestCaseResult.success
       (exec _ (RunnerScenario.provider RunnerScenario.always_fails)
          RunnerScenario.Date_now RunnerScenario.timer
          (executeTestCase RunnerScenario.options RunnerScenario.case1
             "{{query}}")
          RunnerScenario.midnight).1 = false.
Proof.
  pose proof (retry_policy _ (RunnerScenario.provider RunnerScenario.fails_twice)
                RunnerScenario.Date_now RunnerScenario.timer
                RunnerScenario.options RunnerScenario.case1 "{{query}}"
                RunnerScenario.midnight) as Htwice.
  pose proof (retry_policy _ (RunnerScenario.provider RunnerScenario.always_fails)
                RunnerScenario.Date_now RunnerScenario.timer
                RunnerScenario.options RunnerScenario.case1 "{{query}}"
                RunnerScenario.midnight) as Halways.
  cbv zeta in Htwice, Halways.
  destruct Htwice as (_ & Htwice & _). destruct Halways as (_ & _ & Halways).
  specialize (Htwice eq_refl _ _ _ _ _ _ eq_refl eq_refl eq_refl).
  assert (Hfails : forall e : RunnerScenario.Env, exists thrown e',
             RunnerScenario.provider RunnerScenario.always_fails
               (sdk_request_of RunnerScenario.options RunnerScenario.case1
                  "{{query}}") e
             = (SdkThrows thrown, e')).
  { intros e. eexists _, _. reflexivity. }
  specialize (Halways eq_refl Hfails).
  split; [reflexivity|].
  split; [exact (proj1 Htwice)|]. split; [exact (proj2 Htwice)|].
  split; [exact (proj1 Halways) | exact (proj1 (proj2 Halways))].
Defined.

(** The run in which the scripted provider always fails, with two
    retries: three calls of 50 ms and timers of 1000 ms and 2000 ms. *)
Lemma failing_run_fails :
  all_calls_failed
    (trace _
       (exec _ (RunnerScenario.provider RunnerScenario.always_fails)
          RunnerScenario.Date_now RunnerScenario.timer
          (executeTestCase RunnerScenario.options RunnerScenario.case1
             "{{query}}")
          RunnerScenario.midnight).2).
Proof. cbn -[Template.replaceVariables]. repeat constructor. Qed.

(** C6 fails as stated: the record of the failed case of the scenario has
    a latency of 3150 ms, not 0. *)
Lemma failed_case_latency_not_zero :
  all_calls_failed
    (trace _
       (exec _ (RunnerScenario.provider RunnerScenario.always_fails)
          RunnerScenario.Date_now RunnerScenario.timer
          (executeTestCase RunnerScenario.options RunnerScenario.case1
             "{{query}}")
          RunnerScenario.midnight).2)
  /\ TestCaseResult.success
       (exec _ (RunnerScenario.provider RunnerScenario.always_fails)
          RunnerScenario.Date_now RunnerScenario.timer
          (executeTestCase RunnerScenario.options RunnerScenario.case1
             "{{query}}")
          RunnerScenario.midnight).1 = false
  /\ TestCaseResult.latency
       (exec _ (RunnerScenario.provider RunnerScenario.always_fails)
          RunnerScenario.Date_now RunnerScenario.timer
          (executeTestCase RunnerScenario.options RunnerScenario.case1
             "{{query}}")
          RunnerScenario.midnight).1 = 3150%R
  /\ TestCaseResult.latency
       (exec _ (RunnerScenario.provider RunnerScenario.always_fails)
          RunnerScenario.Date_now RunnerScenario.timer
          (executeTestCase RunnerScenario.options RunnerScenario.case1
             "{{query}}")
          RunnerScenario.midnight).1 <> 0%R.
Proof.
  split; [exact failing_run_fails|].
  split; [reflexivity|].
  split; cbn -[Template.replaceVariables]; lra.
Qed.

(** The hypotheses of the amended C6 hold for that run. *)
Lemma failed_case_record_example :
  all_calls_failed
    (trace _
       (exec _ (RunnerScenario.provider RunnerScenario.always_fails)
          RunnerScenario.Date_now RunnerScenario.timer
          (executeTestCase RunnerScenario.options RunnerScenario.case1
             "{{query}}")
          RunnerScenario.midnight).2)
  /\ TestCaseResult.cost
       (exec _ (RunnerScenario.provider RunnerScenario.always_fails)
          RunnerScenario.Date_now RunnerScenario.timer
          (executeTestCase RunnerScenario.options RunnerScenario.case1
             "{{query}}")
          RunnerScenario.midnight).1 = 0%R
  /\ TestCaseResult.latency
       (exec _ (RunnerScenario.provider RunnerScenario.always_fails)
          RunnerScenario.Date_now RunnerScenario.timer
          (executeTestCase RunnerScenario.options RunnerScenario.case1
             "{{query}}")
          RunnerScenario.midnight).1
     = (RunnerScenario.Date_now
          (env _
             (exec _ (RunnerScenario.provider RunnerScenario.always_fails)
                RunnerScenario.Date_now RunnerScenario.timer
                (executeTestCase RunnerScenario.options RunnerScenario.case1
                   "{{query}}")
                RunnerScenario.midnight).2)
        - RunnerScenario.Date_now (env _ RunnerScenario.midnight))%R.
Proof.
  pose proof (failed_case_record _
                (RunnerScenario.provider RunnerScenario.always_fails)
                RunnerScenario.Date_now RunnerScenario.timer
                RunnerScenario.options RunnerScenario.case1 "{{query}}"
                RunnerScenario.midnight _ eq_refl failing_run_fails) as H.
  cbv zeta in H. destruct H as (_ & _ & _ & Hcost & Hlatency & _).
  split; [exact failing_run_fails|]. split; [exact Hcost | exact Hlatency].
Defined.

End RetryFacts.

(* --------------------------------------------------------------------- *)
(** ** The test runner, a dataset under a limit of concurrency             *)
(* --------------------------------------------------------------------- *)
Module PoolFacts.
Import JS OpenAI Runner.
Local Open Scope list_scope.

Lemma within_mono {A : Type} (p : prog A) (n n' : nat) :
  within n p -> n <= n' -> within n' p.
Proof.
  intros H. revert n'. induction H as [n a|n k _ IH|n request k _ IH|n ms k _ IH];
    intros n' Hle.
  - constructor.
  - constructor. intros now. now apply IH.
  - destruct n' as [|n']; [lia|]. constructor. intros answer. apply IH. lia.
  - destruct n' as [|n']; [lia|]. constructor. apply IH. lia.
Qed.

Lemma produces_now_inv {A : Type} (k : R -> prog A) (a : A) :
  produces (Now k) a -> exists now, produces (k now) a.
Proof. intros H. inversion H; subst. eauto. Qed.

Lemma produces_ret_inv {A : Type} (a b : A) : produces (Ret a) b -> b = a.
Proof. intros H. now inversion H. Qed.

Section Cases.

Variable options : TestRunnerOptions.
Variable promptA : string.

(** Every record that a case can return carries the name of the case. *)
Lemma attempts_name (testCase : TestCase.t) (prompt : string) (startTime : R)
  (remaining : nat) :
  forall (attempt : nat) (lastError : option string) (r : TestCaseResult.t),
    produces (attempts options testCase prompt startTime remaining attempt
                lastError) r ->
    TestCaseResult.name r = TestCase.name testCase.
Proof.
  induction remaining as [|remaining IH]; intros attempt lastError r H.
  - cbn in H. inversion H as [|? ? ? H1| |]; subst.
    inversion H1. reflexivity.
  - cbn [attempts] in H. inversion H as [| |? ? answer ? H1|]; subst.
    destruct answer as [response|message].
    + inversion H1 as [|? ? ? H3| |]; subst.
      inversion H3. reflexivity.
    + destruct (Nat.ltb attempt (maxRetries options)).
      * inversion H1; subst. eapply IH. eassumption.
      * eapply IH. eassumption.
Qed.

Lemma executeTestCase_name (testCase : TestCase.t) (r : TestCaseResult.t) :
  produces (executeTestCase options testCase promptA) r ->
  TestCaseResult.name r = TestCase.name testCase.
Proof.
  intros H. apply produces_now_inv in H. destruct H as [now H].
  eapply attempts_name. exact H.
Qed.

(** A case returns after at most two [await]s for each attempt. *)
Lemma attempts_within (testCase : TestCase.t) (prompt : string) (startTime : R)
  (remaining : nat) :
  forall (attempt : nat) (lastError : option string),
    within (2 * remaining)
      (attempts options testCase prompt startTime remaining attempt lastError).
Proof.
  induction remaining as [|remaining IH]; intros attempt lastError.
  - cbn. repeat constructor.
  - cbn [attempts]. replace (2 * S remaining) with (S (S (2 * remaining))) by lia.
    constructor. intros [response|message].
    + repeat constructor.
    + destruct (Nat.ltb attempt (maxRetries options)).
      * constructor. apply IH.
      * eapply within_mono; [apply IH | lia].
Qed.

Lemma executeTestCase_within (testCase : TestCase.t) :
  within (2 * S (maxRetries options))
    (executeTestCase options testCase promptA).
Proof. constructor. intros now. apply attempts_within. Qed.

End Cases.

(** ** Lists of the cases in flight *)

Lemma elem_of_delete_other {A : Type} (l : list A) (j : nat) (t t0 : A) :
  l !! j = Some t -> t0 ∈ l -> t0 <> t -> t0 ∈ delete j l.
Proof.
  intros Hj Hin Hne. apply list_elem_of_lookup in Hin. destruct Hin as [j0 Hj0].
  destruct (lt_eq_lt_dec j0 j) as [[Hlt|Heq]|Hgt].
  - apply (list_elem_of_lookup_2 _ j0). now rewrite list_lookup_delete_lt.
  - subst j0. congruence.
  - apply (list_elem_of_lookup_2 _ (pred j0)).
    rewrite list_lookup_delete_ge by lia.
    now replace (S (pred j0)) with j0 by lia.
Qed.

Lemma elem_of_insert_inv {A : Type} (l : list A) (j : nat) (x t0 : A) :
  t0 ∈ <[j:=x]> l -> t0 = x \/ t0 ∈ l.
Proof.
  intros Hin. apply list_elem_of_lookup in Hin. destruct Hin as [j0 Hj0].
  apply list_lookup_insert_Some in Hj0.
  destruct Hj0 as [(_ & -> & _) | (_ & Hj0)]; [now left | right].
  eapply list_elem_of_lookup_2. eassumption.
Qed.

Lemma elem_of_insert_other {A : Type} (l : list A) (j : nat) (x t t0 : A) :
  l !! j = Some t -> t0 ∈ l -> t0 = t \/ t0 ∈ <[j:=x]> l.
Proof.
  intros Hj Hin. apply list_elem_of_lookup in Hin. destruct Hin as [j0 Hj0].
  destruct (decide (j = j0)) as [->|Hne]; [left; congruence | right].
  apply (list_elem_of_lookup_2 _ j0). now rewrite list_lookup_insert_ne.
Qed.

(** ** The bound on the turns still needed *)

Lemma bounded_tasks_snoc (l : list task) (t : task) (n b : nat) :
  bounded_tasks l n -> within b (resume_of (state t)) ->
  bounded_tasks (l ++ [t]) (n + S b).
Proof.
  intros Hl Ht. induction Hl as [|t0 l b0 n Hw _ IH].
  - replace (0 + S b) with (S b + 0) by lia. now repeat constructor.
  - replace (S b0 + n + S b) with (S b0 + (n + S b)) by lia.
    now constructor.
Qed.

Lemma bounded_tasks_delete (l : list task) (n j : nat) (t : task) :
  bounded_tasks l n -> l !! j = Some t ->
  exists n', bounded_tasks (delete j l) n' /\ S n' <= n.
Proof.
  intros Hl. revert j. induction Hl as [|t0 l b n Hw Hl IH]; intros j Hj.
  - discriminate.
  - destruct j as [|j]; cbn in *.
    + exists n. split; [assumption | lia].
    + destruct (IH _ Hj) as (n' & Hn' & Hle).
      exists (S b + n'). split; [now constructor | lia].
Qed.

Lemma bounded_tasks_insert (l : list task) (n j : nat) (t t' : task) :
  bounded_tasks l n -> l !! j = Some t ->
  (forall b, within b (resume_of (state t)) ->
             exists b', b = S b' /\ within b' (resume_of (state t'))) ->
  exists n', bounded_tasks (<[j:=t']> l) n' /\ S n' <= n.
Proof.
  intros Hl. revert j. induction Hl as [|t0 l b n Hw Hl IH]; intros j Hj Hstep.
  - discriminate.
  - destruct j as [|j]; cbn in *.
    + injection Hj as ->. destruct (Hstep _ Hw) as (b' & -> & Hw').
      exists (S b' + n). split; [now constructor | lia].
    + destruct (IH _ Hj Hstep) as (n' & Hn' & Hle).
      exists (S b + n'). split; [now constructor | lia].
Qed.

Lemma bounded_tasks_zero (l : list task) : bounded_tasks l 0 -> l = [].
Proof. intros H. now inversion H. Qed.

Section Pool.

Variable Env : Type.
Variable sdk_create : SdkRequest -> Env -> SdkOutcome * Env.
Variable Date_now : Env -> R.
Variable timer : R -> Env -> Env.
Variable options : TestRunnerOptions.
Variable promptA : string.
Variable cases : list TestCase.t.
Variable has_callback : bool.

Let sound := pool_sound options Env promptA cases.
Let ok := pool_ok options Env promptA cases.
Let turns := settles_within options Env.
Let next := start_next options Env Date_now promptA.
Let turn :=
  step options Env sdk_create Date_now timer promptA (length cases) has_callback.

Lemma settle_produces (p : prog TestCaseResult.t) (e : Env) (r : TestCaseResult.t) :
  produces (resume_of (settle Env Date_now p e)) r -> produces p r.
Proof.
  induction p as [a|k IH|request k _|ms k _]; cbn; intros H.
  - exact H.
  - econstructor. apply IH. exact H.
  - exact H.
  - exact H.
Qed.

Lemma settle_within (p : prog TestCaseResult.t) (e : Env) (b : nat) :
  within b p -> within b (resume_of (settle Env Date_now p e)).
Proof.
  intros H. induction H as [n a|n k _ IH|n request k H _|n ms k H _]; cbn.
  - constructor.
  - apply IH.
  - now constructor.
  - now constructor.
Qed.

(** Starting the next queued case keeps the pool sound, and leaves a
    case in flight if one was queued. *)
Lemma start_next_ok (p : pool Env) : sound p -> ok (next p).
Proof.
  intros Hs. subst next. unfold start_next.
  destruct (queue Env p) as [|[i tc] rest] eqn:Hqueue.
  - split; [exact Hs | intros Hne; now rewrite Hqueue in Hne].
  - destruct Hs as [Hq Ha Hlen Hres Hcov]. rewrite Hqueue in Hq, Hcov.
    split; [|cbn; intros _ Hnil; now apply app_eq_nil in Hnil as [_ ?]].
    split; cbn.
    + intros i0 tc0 Hin. apply Hq. now right.
    + intros t Hin. apply elem_of_app in Hin. destruct Hin as [Hin|Hin].
      * now apply Ha.
      * apply list_elem_of_singleton in Hin. subst t. cbn. split.
        -- apply Hq. now left.
        -- intros r Hr. eapply settle_produces. exact Hr.
    + exact Hlen.
    + exact Hres.
    + intros i0 Hi0. destruct (Hcov i0 Hi0) as [(tc0 & Hin)|[(t & Hin & Hidx)|Hdone]].
      * apply elem_of_cons in Hin. destruct Hin as [Heq|Hin].
        -- injection Heq as -> ->. right. left. eexists. split.
           ++ apply elem_of_app. right. apply list_elem_of_singleton. reflexivity.
           ++ reflexivity.
        -- left. now exists tc0.
      * right. left. exists t. split; [|assumption].
        apply elem_of_app. now left.
      * right. right. assumption.
Qed.

Lemma start_next_turns (p : pool Env) (m : nat) : turns p m -> turns (next p) m.
Proof.
  intros (n & Hn & Hle). subst next turns. unfold start_next, settles_within.
  destruct (queue Env p) as [|[i tc] rest] eqn:Hqueue.
  - exists n. rewrite Hqueue. split; assumption.
  - cbn [queue active length] in *.
    remember (S (2 * S (maxRetries options))) as bound eqn:Hbound.
    exists (n + bound). split.
    + rewrite Hbound. apply bounded_tasks_snoc; [exact Hn|]. cbn [state].
      apply settle_within. apply executeTestCase_within.
    + lia.
Qed.

(** A case in flight goes on and is suspended again. *)
Lemma replace_ok (p : pool Env) (j : nat) (t : task) (s' : suspended)
  (c : nat) (nt : list (nat * nat * string)) (w' : World Env) :
  sound p -> active Env p !! j = Some t ->
  (forall r, produces (resume_of s') r -> produces (resume_of (state t)) r) ->
  ok {| queue := queue Env p;
        active := <[j := {| index := index t; testCase := testCase t;
                            state := s' |}]> (active Env p);
        results := results Env p;
        completed := c;
        notified := nt;
        world := w' |}.
Proof.
  intros [Hq Ha Hlen Hres Hcov] Hj Hs'.
  assert (Ht : t ∈ active Env p) by (eapply list_elem_of_lookup_2; eassumption).
  split; [split; cbn|].
  - exact Hq.
  - intros t0 Hin. apply elem_of_insert_inv in Hin. destruct Hin as [->|Hin].
    + cbn. destruct (Ha t Ht) as [Hcase Hprod]. split; [exact Hcase|].
      intros r Hr. apply Hprod. now apply Hs'.
    + now apply Ha.
  - exact Hlen.
  - exact Hres.
  - intros i Hi. destruct (Hcov i Hi) as [Hqueued|[(t0 & Hin & Hidx)|Hdone]].
    + now left.
    + right. left.
      destruct (elem_of_insert_other _ j
                  {| index := index t; testCase := testCase t; state := s' |}
                  _ _ Hj Hin) as [->|Hin'].
      * exists {| index := index t; testCase := testCase t; state := s' |}.
        split; [|exact Hidx].
        apply list_elem_of_insert. eapply lookup_lt_Some. eassumption.
      * exists t0. split; assumption.
    + right. now right.
  - cbn. intros _ Hnil.
    apply (f_equal length) in Hnil. rewrite length_insert in Hnil.
    apply lookup_lt_Some in Hj. cbn in Hnil. lia.
Qed.

Lemma replace_turns (p : pool Env) (j m : nat) (t : task) (s' : suspended)
  (c : nat) (nt : list (nat * nat * string)) (w' : World Env) :
  turns p (S m) -> active Env p !! j = Some t ->
  (forall b, within b (resume_of (state t)) ->
             exists b', b = S b' /\ within b' (resume_of s')) ->
  turns {| queue := queue Env p;
           active := <[j := {| index := index t; testCase := testCase t;
                               state := s' |}]> (active Env p);
           results := results Env p;
           completed := c;
           notified := nt;
           world := w' |} m.
Proof.
  intros (n & Hn & Hle) Hj Hstep.
  destruct (bounded_tasks_insert _ _ _ _
              {| index := index t; testCase := testCase t; state := s' |}
              Hn Hj Hstep) as (n' & Hn' & Hlt).
  exists n'. split; [exact Hn' | cbn; lia].
Qed.

(** A case in flight settles its promise. *)
Lemma finish_sound (p : pool Env) (j : nat) (t : task) (r : TestCaseResult.t)
  (c : nat) (nt : list (nat * nat * string)) :
  sound p -> active Env p !! j = Some t -> state t = Finished r ->
  sound {| queue := queue Env p;
           active := delete j (active Env p);
           results := <[index t := Some r]> (results Env p);
           completed := c;
           notified := nt;
           world := world Env p |}.
Proof.
  intros [Hq Ha Hlen Hres Hcov] Hj Hstate.
  assert (Ht : t ∈ active Env p) by (eapply list_elem_of_lookup_2; eassumption).
  destruct (Ha t Ht) as [Hcase Hprod].
  assert (Hrange : index t < length (results Env p)).
  { rewrite Hlen. eapply lookup_lt_Some. eassumption. }
  split; cbn.
  - exact Hq.
  - intros t0 Hin. apply Ha. eapply list_elem_of_delete_inv. eassumption.
  - now rewrite length_insert.
  - intros i r0 Hi. destruct (decide (index t = i)) as [<-|Hne].
    + rewrite list_lookup_insert_eq in Hi by assumption. injection Hi as <-.
      exists (testCase t). split; [exact Hcase|].
      apply Hprod. rewrite Hstate. constructor.
    + rewrite list_lookup_insert_ne in Hi by assumption. now apply Hres.
  - intros i Hi. destruct (Hcov i Hi) as [Hqueued|[(t0 & Hin & Hidx)|(r0 & Hdone)]].
    + now left.
    + destruct (decide (index t = i)) as [Heq|Hne].
      * right. right. exists r. rewrite <- Heq.
        now apply list_lookup_insert_eq.
      * right. left. exists t0. split; [|exact Hidx].
        eapply elem_of_delete_other; [eassumption | assumption | congruence].
    + right. right. destruct (decide (index t = i)) as [Heq|Hne].
      * exists r. rewrite <- Heq. now apply list_lookup_insert_eq.
      * exists r0. now rewrite list_lookup_insert_ne.
Qed.

Lemma finish_turns (p : pool Env) (j m : nat) (t : task)
  (rs : list (option TestCaseResult.t)) (c : nat)
  (nt : list (nat * nat * string)) :
  turns p (S m) -> active Env p !! j = Some t ->
  turns {| queue := queue Env p;
           active := delete j (active Env p);
           results := rs;
           completed := c;
           notified := nt;
           world := world Env p |} m.
Proof.
  intros (n & Hn & Hle) Hj.
  destruct (bounded_tasks_delete _ _ _ _ Hn Hj) as (n' & Hn' & Hlt).
  exists n'. split; [exact Hn' | cbn; lia].
Qed.

(** One turn of the event loop keeps the invariant. *)
Lemma step_ok (p : pool Env) (choice : nat) : ok p -> ok (turn p choice).
Proof.
  intros [Hs Hbusy]. subst turn. unfold step.
  destruct (active Env p !! (choice mod length (active Env p))) as [t|] eqn:Hj;
    [|now split].
  destruct (state t) as [r|request k|ms k] eqn:Hstate.
  - apply start_next_ok. now apply finish_sound.
  - destruct (createChatCompletion Env sdk_create request (env Env (world Env p)))
      as [answer e'].
    apply replace_ok; [assumption | assumption |].
    intros r Hr. rewrite Hstate. econstructor. eapply settle_produces. exact Hr.
  - apply replace_ok; [assumption | assumption |].
    intros r Hr. rewrite Hstate. econstructor. eapply settle_produces. exact Hr.
Qed.

(** One turn of the event loop, with a case in flight, uses up one of
    the turns that the pool still needs. *)
Lemma step_turns (p : pool Env) (choice m : nat) :
  active Env p <> [] -> turns p (S m) -> turns (turn p choice) m.
Proof.
  intros Hactive Hturns. subst turn. unfold step.
  destruct (active Env p !! (choice mod length (active Env p))) as [t|] eqn:Hj.
  2:{ apply lookup_ge_None in Hj.
      assert (length (active Env p) <> 0)
        by (destruct (active Env p); [congruence | discriminate]).
      pose proof (Nat.mod_upper_bound choice (length (active Env p))). lia. }
  destruct (state t) as [r|request k|ms k] eqn:Hstate.
  - apply start_next_turns. eapply finish_turns; eassumption.
  - destruct (createChatCompletion Env sdk_create request (env Env (world Env p)))
      as [answer e'].
    apply replace_turns; [assumption | assumption |].
    intros b Hb. rewrite Hstate in Hb. cbn in Hb.
    inversion Hb as [| |b' ? ? Hk|]; subst.
    exists b'. split; [reflexivity|]. apply settle_within. apply Hk.
  - apply replace_turns; [assumption | assumption |].
    intros b Hb. rewrite Hstate in Hb. cbn in Hb.
    inversion Hb as [| | |b' ? ? Hk]; subst.
    exists b'. split; [reflexivity|]. now apply settle_within.
Qed.

(** Nothing happens in a pool without a case in flight. *)
Lemma step_idle (p : pool Env) (choice : nat) :
  active Env p = [] -> turn p choice = p.
Proof. intros Hnil. subst turn. unfold step. now rewrite Hnil. Qed.

Lemma schedule_ok (schedule : list nat) (p : pool Env) :
  ok p -> ok (fold_left turn schedule p).
Proof.
  revert p. induction schedule as [|choice rest IH]; intros p Hok; cbn.
  - exact Hok.
  - apply IH. now apply step_ok.
Qed.

(** A schedule with as many turns as the pool still needs settles every
    case: nothing is left queued or in flight. *)
Lemma schedule_settles (schedule : list nat) :
  forall (p : pool Env) (m : nat),
    ok p -> turns p m -> m <= length schedule ->
    queue Env (fold_left turn schedule p) = []
    /\ active Env (fold_left turn schedule p) = [].
Proof.
  induction schedule as [|choice rest IH]; intros p m Hok Hturns Hlen; cbn in *.
  - destruct Hturns as (n & Hn & Hle).
    assert (n = 0) as -> by lia.
    apply bounded_tasks_zero in Hn.
    destruct (queue Env p) as [|? ?] eqn:Hq; [now split | cbn in Hle; lia].
  - destruct (active Env p) as [|t l] eqn:Hactive.
    + rewrite step_idle by assumption.
      apply (IH p 0); [assumption | | lia].
      destruct Hok as [_ Hbusy].
      assert (Hq : queue Env p = []).
      { destruct (queue Env p); [reflexivity|].
        exfalso. apply Hbusy; [discriminate | assumption]. }
      exists 0. rewrite Hactive, Hq. split; [constructor | cbn; lia].
    + destruct m as [|m].
      * destruct Hturns as (n & Hn & Hle).
        assert (n = 0) as -> by lia.
        apply bounded_tasks_zero in Hn. congruence.
      * apply (IH _ m); [now apply step_ok | | lia].
        apply step_turns; [congruence | assumption].
Qed.

(** Filling the free slots from the queue. *)
Lemma fill_ok (slots : nat) (p : pool Env) :
  sound p -> 1 <= slots -> ok (fill options Env Date_now slots promptA p).
Proof.
  revert p. induction slots as [|slots IH]; intros p Hs Hslots; [lia|].
  cbn. destruct slots as [|slots].
  - cbn. now apply start_next_ok.
  - apply IH; [|lia]. now apply start_next_ok.
Qed.

Lemma fill_turns (slots : nat) (p : pool Env) (m : nat) :
  turns p m -> turns (fill options Env Date_now slots promptA p) m.
Proof.
  revert p. induction slots as [|slots IH]; intros p Hturns; cbn.
  - exact Hturns.
  - apply IH. now apply start_next_turns.
Qed.

End Pool.

(** ** The array of [Promise.all] *)

Lemma collect_inv (slots : list (option TestCaseResult.t))
  (values : list TestCaseResult.t) :
  collect slots = Some values -> slots = Some <$> values.
Proof.
  revert values. induction slots as [|[r|] rest IH]; intros values H; cbn in H.
  - now injection H as <-.
  - destruct (collect rest) as [rs|]; [|discriminate].
    injection H as <-. cbn. f_equal. now apply IH.
  - discriminate.
Qed.

Lemma collect_all (slots : list (option TestCaseResult.t)) :
  (forall i, i < length slots -> exists r, slots !! i = Some (Some r)) ->
  exists values, collect slots = Some values.
Proof.
  induction slots as [|slot rest IH]; intros Hall; cbn.
  - now eexists.
  - destruct (Hall 0 ltac:(cbn; lia)) as [r Hr]. cbn in Hr. injection Hr as ->.
    destruct IH as [rs Hrs].
    { intros i Hi. apply (Hall (S i)). cbn. lia. }
    rewrite Hrs. now eexists.
Qed.

Section Run.

Variable Env : Type.
Variable sdk_create : SdkRequest -> Env -> SdkOutcome * Env.
Variable Date_now : Env -> R.
Variable timer : R -> Env -> Env.
Variable options : TestRunnerOptions.
Variable has_callback : bool.
Variable dataset : Dataset.
Variable promptA : string.
Variable w : World Env.

(** The pool before [p-limit] starts anything. *)
Let created : pool Env :=
  {| queue := imap (fun i tc => (i, tc)) (testCases dataset);
     active := [];
     results := replicate (length (testCases dataset)) None;
     completed := 0;
     notified := [];
     world := w |}.

Lemma created_sound :
  pool_sound options Env promptA (testCases dataset) created.
Proof.
  split; cbn.
  - intros i tc Hin. apply elem_of_lookup_imap in Hin.
    destruct Hin as (i' & tc' & Heq & Hcase). now injection Heq as -> ->.
  - intros t Hin. now apply elem_of_nil in Hin.
  - apply length_replicate.
  - intros i r Hi. apply lookup_replicate in Hi. destruct Hi as [Hi _]. discriminate.
  - intros i Hi. left.
    destruct (lookup_lt_is_Some_2 (testCases dataset) i Hi) as [tc Hcase].
    exists tc. apply elem_of_lookup_imap. now exists i, tc.
Qed.

Lemma created_turns :
  settles_within options Env created
    (length (testCases dataset) * (2 * maxRetries options + 3)).
Proof.
  exists 0. split; [constructor|]. unfold created. cbn [queue]. rewrite length_imap.
  replace (S (2 * S (maxRetries options))) with (2 * maxRetries options + 3) by lia.
  lia.
Qed.

(** What a run has when nothing is queued or in flight any more. *)
Lemma settled_results (p : pool Env) :
  pool_sound options Env promptA (testCases dataset) p ->
  queue Env p = [] -> active Env p = [] ->
  exists values,
    collect (results Env p) = Some values
    /\ length values = length (testCases dataset)
    /\ forall i tc, testCases dataset !! i = Some tc ->
         exists r, values !! i = Some r
                   /\ TestCaseResult.name r = TestCase.name tc
                   /\ produces (executeTestCase options tc promptA) r.
Proof.
  intros [Hq Ha Hlen Hres Hcov] Hqueue Hactive.
  assert (Hfilled : forall i, i < length (results Env p) ->
                      exists r, results Env p !! i = Some (Some r)).
  { intros i Hi. rewrite Hlen in Hi.
    destruct (Hcov i Hi) as [(tc & Hin)|[(t & Hin & _)|Hdone]].
    - rewrite Hqueue in Hin. now apply elem_of_nil in Hin.
    - rewrite Hactive in Hin. now apply elem_of_nil in Hin.
    - exact Hdone. }
  destruct (collect_all _ Hfilled) as [values Hvalues].
  exists values. split; [exact Hvalues|].
  apply collect_inv in Hvalues.
  split; [now rewrite <- Hlen, Hvalues, length_fmap|].
  intros i tc Hcase.
  destruct (Hfilled i) as [r Hr].
  { rewrite Hlen. eapply lookup_lt_Some. eassumption. }
  exists r.
  assert (Hvi : values !! i = Some r).
  { rewrite Hvalues, list_lookup_fmap in Hr.
    destruct (values !! i); cbn in Hr; [now injection Hr as -> | discriminate]. }
  split; [exact Hvi|].
  destruct (Hres i r Hr) as (tc' & Hcase' & Hprod).
  assert (tc' = tc) as -> by congruence.
  split; [|exact Hprod].
  eapply executeTestCase_name. exact Hprod.
Qed.

(** With a limit of concurrency of at least 1, a resolved run has one
    result per case of the dataset, the result at an index carries the
    name of the case at that index and is a record that the case can
    return; and the run is resolved once the schedule has given every
    case the turns it needs. *)
Lemma run_results_cover_the_dataset (promptB : string) (schedule : list nat) :
  1 <= concurrency options ->
  (forall value final,
      run options Env sdk_create Date_now timer has_callback dataset
        promptA promptB schedule w = Resolved Env value final ->
      length (vr_testCases value) = length (testCases dataset)
      /\ forall i tc, testCases dataset !! i = Some tc ->
           exists r, vr_testCases value !! i = Some r
                     /\ TestCaseResult.name r = TestCase.name tc
                     /\ produces (executeTestCase options tc promptA) r)
  /\ (length (testCases dataset) * (2 * maxRetries options + 3)
      <= length schedule ->
      exists value final,
        run options Env sdk_create Date_now timer has_callback dataset
          promptA promptB schedule w = Resolved Env value final).
Proof.
  intros Hlimit. unfold run.
  assert (Hpositive : Nat.eqb (concurrency options) 0 = false)
    by (apply Nat.eqb_neq; lia).
  rewrite Hpositive. fold created.
  set (started := fill options Env Date_now (concurrency options) promptA created).
  set (final := fold_left _ schedule started).
  assert (Hstarted : pool_ok options Env promptA (testCases dataset) started).
  { apply fill_ok; [apply created_sound | exact Hlimit]. }
  assert (Hfinal : pool_ok options Env promptA (testCases dataset) final).
  { apply (schedule_ok Env sdk_create Date_now timer). exact Hstarted. }
  split.
  - intros value final' Hrun.
    destruct (queue Env final) eqn:Hqueue; [|discriminate].
    destruct (active Env final) eqn:Hactive; [|discriminate].
    destruct (settled_results final (proj1 Hfinal) Hqueue Hactive)
      as (values & Hvalues & Hlen & Hall).
    rewrite Hvalues in Hrun. injection Hrun as <- _. cbn. now split.
  - intros Hturns.
    destruct (schedule_settles Env sdk_create Date_now timer options promptA
                (testCases dataset) has_callback schedule started _ Hstarted
                (fill_turns Env Date_now options promptA _ _ _ created_turns)
                Hturns) as [Hqueue Hactive].
    fold final in Hqueue, Hactive.
    destruct (settled_results final (proj1 Hfinal) Hqueue Hactive)
      as (values & Hvalues & _).
    rewrite Hqueue, Hactive, Hvalues. now eexists _, _.
Qed.

(** C9. The result of [run] does not depend on its third argument. *)
Theorem run_ignores_promptB (promptB promptB' : string) (schedule : list nat) :
  run options Env sdk_create Date_now timer has_callback dataset
    promptA promptB schedule w
  = run options Env sdk_create Date_now timer has_callback dataset
      promptA promptB' schedule w.
Proof. reflexivity. Qed.

End Run.

(** In the run of two cases under the schedule [second_first] the second
    case is settled first, as the calls of the progress callback show,
    and the results are in the order of the dataset all the same. *)
Lemma completion_order_example :
  match
    run RunnerScenario.options _
      (RunnerScenario.provider RunnerScenario.answers)
      RunnerScenario.Date_now RunnerScenario.timer true
      RunnerScenario.two_cases "{{query}}" "unused"
      RunnerScenario.second_first RunnerScenario.midnight
  with
  | Resolved _ value final =>
      List.map TestCaseResult.name (vr_testCases value) = ["Test 1"; "Test 2"]
      /\ notified _ final = [(1, 2, "Test 2"); (2, 2, "Test 1")]
  | _ => False
  end.
Proof. vm_compute. split; reflexivity. Qed.

End PoolFacts.

(* --------------------------------------------------------------------- *)
(** ** The statistical comparator                                          *)
(* --------------------------------------------------------------------- *)
Module StatsFacts.
Import JS Stats.
Local Open Scope R_scope.

(** *** Rounding *)

Lemma ten_pow_pos (n : nat) : 0 < 10 ^ n.
Proof. apply pow_lt. lra. Qed.

Lemma toFixed_0 (digits : nat) : Num.toFixed digits 0 = 0.
Proof.
  unfold Num.toFixed. rewrite Rabs_R0.
  destruct (Rle_dec (10 ^ 21) 0) as [Hbig|_].
  { pose proof (ten_pow_pos 21). lra. }
  destruct (Rlt_dec 0 0) as [Hneg|_]; [lra|].
  rewrite (Zfloor_eq 0); [|rewrite Rmult_0_l; lra].
  unfold Rdiv. ring.
Qed.

Lemma toFixed_1 (digits : nat) : Num.toFixed digits 1 = 1.
Proof.
  unfold Num.toFixed. rewrite Rabs_R1.
  destruct (Rle_dec (10 ^ 21) 1) as [Hbig|_].
  { assert (1 < 10 ^ 21) by (apply Rlt_pow_R1; [lra | lia]). lra. }
  destruct (Rlt_dec 1 0) as [Hneg|_]; [lra|].
  pose proof (ten_pow_pos digits) as Hpos.
  rewrite (Zfloor_eq (10 ^ Z.of_nat digits)).
  - rewrite <- pow_IZR. field. lra.
  - rewrite <- pow_IZR. lra.
Qed.

(** *** Sums *)

Lemma fold_sum_nonneg (l : list R) (acc : R) :
  Forall (fun v => 0 <= v) l -> 0 <= acc -> 0 <= fold_left Rplus l acc.
Proof.
  intros Hl. revert acc. induction Hl as [|v l Hv _ IH]; intros acc Hacc; cbn.
  - exact Hacc.
  - apply IH. lra.
Qed.

Lemma sum_squares_nonneg (l : list R) (c : R) :
  0 <= Num.sum (List.map (fun v => (v - c) * (v - c)) l).
Proof.
  apply fold_sum_nonneg; [|lra].
  apply Forall_forall. intros v Hin. apply list_elem_of_In, in_map_iff in Hin.
  destruct Hin as (x & <- & _). exact (Rle_0_sqr (x - c)).
Qed.

Lemma length_pos {A : Type} (l : list A) : l <> [] -> 0 < INR (length l).
Proof.
  intros Hne. apply lt_0_INR. destruct l; [congruence | cbn; lia].
Qed.

(** *** The outcomes of the arithmetic *)

Lemma divide_ok (x y : R) : y <> 0 -> divide x y = Ok (x / y).
Proof. intros Hy. unfold divide. now destruct (Req_dec_T y 0). Qed.

Lemma Math_sqrt_ok (x : R) : 0 <= x -> Math_sqrt x = Ok (sqrt x).
Proof. intros Hx. unfold Math_sqrt. destruct (Rlt_dec x 0); [lra | reflexivity]. Qed.

Lemma ss_mean_ok (x : list R) :
  x <> [] -> ss_mean x = Ok (Num.sum x / INR (length x)).
Proof. intros Hne. unfold ss_mean. destruct x; [congruence | reflexivity]. Qed.

Lemma ss_mean_empty : ss_mean [] = Throw "mean requires at least one data point".
Proof. reflexivity. Qed.

(** The deviation that [tTest] takes for a sample: 0 for a single value,
    the deviation of the population else; it is never negative and it is
    positive only if the sample has two values at least. *)
Lemma stdDev_ok (x : list R) :
  x <> [] ->
  exists sd,
    (if Nat.ltb 1 (length x) then ss_standardDeviation x else Ok 0) = Ok sd
    /\ 0 <= sd
    /\ ((length x <= 1)%nat -> sd = 0).
Proof.
  intros Hne. destruct (Nat.ltb 1 (length x)) eqn:Hlen.
  - apply Nat.ltb_lt in Hlen. unfold ss_standardDeviation, ss_variance,
      ss_sumNthPowerDeviations2.
    destruct (Nat.eqb_spec (length x) 1) as [Hone|_]; [lia|].
    destruct (Nat.eqb_spec (length x) 0) as [Hzero|_]; [lia|].
    rewrite (ss_mean_ok x Hne). cbn [bind].
    pose proof (sum_squares_nonneg x (Num.sum x / INR (length x))) as Hsq.
    pose proof (length_pos x Hne) as Hn.
    rewrite Math_sqrt_ok.
    + eexists. split; [reflexivity|]. split; [apply sqrt_pos | lia].
    + apply Rmult_le_pos; [exact Hsq|]. left. now apply Rinv_0_lt_compat.
  - apply Nat.ltb_ge in Hlen. exists 0. split; [reflexivity|]. split; [lra | reflexivity].
Qed.

(** The degrees of freedom are computed without a division by zero. *)
Lemma welch_ok (sdA sdB nA nB : R) :
  0 < nA -> 0 < nB -> (0 < sdA -> nA <> 1) -> (0 < sdB -> nB <> 1) ->
  exists df, welch_degreesOfFreedom sdA sdB nA nB = Ok df.
Proof.
  intros HnA HnB HA HB. unfold welch_degreesOfFreedom.
  destruct (Rlt_dec 0 sdA) as [HsdA|_]; [|now eexists].
  destruct (Rlt_dec 0 sdB) as [HsdB|_]; [|now eexists].
  specialize (HA HsdA). specialize (HB HsdB).
  rewrite !divide_ok by lra. cbn [bind].
  unfold Math_pow. destruct (Req_dec_T 2 0) as [Htwo|_]; [lra|].
  destruct (Rlt_dec 0 (sdA * sdA / nA + sdB * sdB / nB)) as [_|Hq].
  2:{ exfalso. apply Hq.
      assert (0 < sdA * sdA / nA) by (apply Rdiv_lt_0_compat; nra).
      assert (0 < sdB * sdB / nB) by (apply Rdiv_lt_0_compat; nra).
      lra. }
  cbn [bind].
  rewrite (divide_ok _ (nA * nA * (nA - 1))).
  2:{ apply Rmult_integral_contrapositive_currified; [nra | lra]. }
  rewrite (divide_ok _ (nB * nB * (nB - 1))).
  2:{ apply Rmult_integral_contrapositive_currified; [nra | lra]. }
  cbn [bind].
  match goal with
  | |- context [Rlt_dec 0 ?den] => destruct (Rlt_dec 0 den) as [Hden|_]
  end; [|now eexists].
  rewrite divide_ok by lra. now eexists.
Qed.

(** For two samples that are not empty, [tTest] reaches the computation
    of the p-value without a division by zero and without an exception:
    the means, the deviations, the standard errors, the t statistic and
    the degrees of freedom are defined. *)
Lemma tTest_steps_front (sampleA sampleB : list R) :
  sampleA <> [] -> sampleB <> [] ->
  exists sdA sdB df,
    0 <= sdA /\ ((length sampleA <= 1)%nat -> sdA = 0)
    /\ 0 <= sdB /\ ((length sampleB <= 1)%nat -> sdB = 0)
    /\ forall mA mB nA nB,
        mA = Num.sum sampleA / INR (length sampleA) ->
        mB = Num.sum sampleB / INR (length sampleB) ->
        nA = INR (length sampleA) ->
        nB = INR (length sampleB) ->
        tTest_steps sampleA sampleB
        = let! pValue :=
            calculatePValue
              (Rabs (tStatistic (steps_from mA mB sdA sdB nA nB df 0))) df in
          Ok (steps_from mA mB sdA sdB nA nB df pValue).
Proof.
  intros HA HB.
  destruct (stdDev_ok sampleA HA) as (sdA & HsdA & HposA & HoneA).
  destruct (stdDev_ok sampleB HB) as (sdB & HsdB & HposB & HoneB).
  pose proof (length_pos sampleA HA) as HnA.
  pose proof (length_pos sampleB HB) as HnB.
  destruct (welch_ok sdA sdB (INR (length sampleA)) (INR (length sampleB))
              HnA HnB) as [df Hdf].
  { intros Hsd Hone. assert (length sampleA = 1%nat) by now apply INR_eq.
    rewrite HoneA in Hsd; [lra | lia]. }
  { intros Hsd Hone. assert (length sampleB = 1%nat) by now apply INR_eq.
    rewrite HoneB in Hsd; [lra | lia]. }
  exists sdA, sdB, df. repeat (split; [assumption|]).
  intros mA mB nA nB -> -> -> ->.
  unfold tTest_steps.
  rewrite (ss_mean_ok _ HA), (ss_mean_ok _ HB). cbn [bind].
  rewrite HsdA, HsdB. cbn [bind].
  rewrite !Math_sqrt_ok by lra. cbn [bind].
  assert (HrootA : sqrt (INR (length sampleA)) <> 0).
  { apply Rgt_not_eq. now apply sqrt_lt_R0. }
  assert (HrootB : sqrt (INR (length sampleB)) <> 0).
  { apply Rgt_not_eq. now apply sqrt_lt_R0. }
  rewrite !divide_ok by assumption. cbn [bind].
  rewrite Math_sqrt_ok.
  2:{ apply Rplus_le_le_0_compat; apply Rle_0_sqr. }
  cbn [bind].
  match goal with
  | |- context [Rlt_dec 0 ?se] =>
      replace (if Rlt_dec 0 se
               then divide (Num.sum sampleB / INR (length sampleB)
                            - Num.sum sampleA / INR (length sampleA)) se
               else Ok 0)
        with (Ok (if Rlt_dec 0 se
                  then (Num.sum sampleB / INR (length sampleB)
                        - Num.sum sampleA / INR (length sampleA)) / se
                  else 0))
  end.
  2:{ destruct (Rlt_dec 0 _) as [Hse|_]; [|reflexivity].
      rewrite divide_ok; [reflexivity | lra]. }
  cbn [bind]. rewrite Hdf. cbn [bind]. reflexivity.
Qed.

(** *** Nothing but the library throws *)

Lemma returned_bind {A B : Type} (m : outcome A) (f : A -> outcome B) :
  returned m -> (forall a, returned (f a)) -> returned (bind m f).
Proof. destruct m; cbn; auto. Qed.

Lemma divide_returned (x y : R) : returned (divide x y).
Proof. unfold divide. now destruct (Req_dec_T y 0). Qed.

Lemma Math_sqrt_returned (x : R) : returned (Math_sqrt x).
Proof. unfold Math_sqrt. now destruct (Rlt_dec x 0). Qed.

Lemma Math_pow_returned (x y : R) : returned (Math_pow x y).
Proof.
  unfold Math_pow.
  repeat match goal with
         | |- context [if ?c then _ else _] => destruct c
         end; exact I.
Qed.

Ltac returns :=
  cbv zeta;
  repeat match goal with
         | |- returned (Ok _) => exact I
         | |- returned NotFinite => exact I
         | |- returned (divide _ _) => apply divide_returned
         | |- returned (Math_sqrt _) => apply Math_sqrt_returned
         | |- returned (Math_pow _ _) => apply Math_pow_returned
         | |- returned (bind _ _) => apply returned_bind; [|intros ?]
         | |- returned (if ?c then _ else _) => destruct c
         end.

Lemma erf_returned (x : R) : returned (erf x).
Proof. unfold erf. returns. Qed.

Lemma betacf_loop_returned (fuel : nat) :
  forall (m : nat) (x a b am bm az bz : R),
    returned (betacf_loop fuel m x a b am bm az bz).
Proof.
  induction fuel as [|fuel IH]; intros m x a b am bm az bz; cbn [betacf_loop].
  - exact I.
  - returns. apply IH.
Qed.

Lemma betaContinuedFraction_returned (x a b : R) :
  returned (betaContinuedFraction x a b).
Proof.
  unfold betaContinuedFraction. cbv zeta.
  apply returned_bind; [apply divide_returned | intros bz].
  apply returned_bind; [apply betacf_loop_returned | intros az].
  returns.
Qed.

Lemma incompleteBeta_returned (x a b : R) : returned (incompleteBeta x a b).
Proof.
  unfold incompleteBeta. returns.
  - apply betaContinuedFraction_returned.
  - apply betaContinuedFraction_returned.
Qed.

Lemma calculatePValue_returned (tStat df : R) :
  returned (calculatePValue tStat df).
Proof.
  unfold calculatePValue. returns.
  - apply erf_returned.
  - apply incompleteBeta_returned.
Qed.

Lemma calculatePValue_zero (df : R) : calculatePValue (Rabs 0) df = Ok 1.
Proof.
  unfold calculatePValue. rewrite Rabs_R0.
  destruct (Req_dec_T 0 0); [reflexivity | congruence].
Qed.

(** C7. For a sample [s] that is not empty, [tTest(s, s)] returns a
    record with [difference = 0], [pValue = 1] and [significant = false].
    For two samples of one value each, both deviations are 0, the pooled
    standard error is 0, the t statistic is 0 and the p-value is 1, and
    [tTest] returns its record: no division by zero occurs. *)
Theorem tTest_degenerate_inputs :
  (forall s : list R,
      s <> [] ->
      exists r,
        tTest s s = Ok r
        /\ difference r = 0 /\ pValue r = 1 /\ significant r = false)
  /\ (forall a b : R,
         exists v,
           tTest_steps [a] [b] = Ok v
           /\ stdDevA v = 0 /\ stdDevB v = 0
           /\ standardError v = 0
           /\ tStatistic v = 0
           /\ step_pValue v = 1
           /\ tTest [a] [b] = Ok (tTest_result [a] [b] v)
           /\ pValue (tTest_result [a] [b] v) = 1).
Proof.
  split.
  - intros s Hs.
    destruct (tTest_steps_front s s Hs Hs)
      as (sdA & sdB & df & _ & _ & _ & _ & Hsteps).
    specialize (Hsteps _ _ _ _ eq_refl eq_refl eq_refl eq_refl).
    assert (Ht : forall sd1 sd2 n1 n2 p m,
               tStatistic (steps_from m m sd1 sd2 n1 n2 df p) = 0).
    { intros. cbn. destruct (Rlt_dec 0 _); [|reflexivity].
      unfold Rminus. rewrite Rplus_opp_r. unfold Rdiv. apply Rmult_0_l. }
    rewrite Ht, calculatePValue_zero in Hsteps. cbn [bind] in Hsteps.
    unfold tTest. rewrite Hsteps. cbn [bind].
    eexists. split; [reflexivity|]. cbn.
    split; [|split].
    + unfold Rminus. rewrite Rplus_opp_r. apply toFixed_0.
    + apply toFixed_1.
    + destruct (Rlt_dec 1 0.05); [lra | reflexivity].
  - intros a b.
    destruct (tTest_steps_front [a] [b]) as
      (sdA & sdB & df & _ & HsdA & _ & HsdB & Hsteps); [discriminate..|].
    specialize (Hsteps _ _ _ _ eq_refl eq_refl eq_refl eq_refl).
    rewrite (HsdA ltac:(cbn; lia)), (HsdB ltac:(cbn; lia)) in Hsteps.
    assert (Hzero : forall n1 n2,
               sqrt (0 / sqrt n1 * (0 / sqrt n1) + 0 / sqrt n2 * (0 / sqrt n2))
               = 0).
    { intros. replace (0 / sqrt n1 * (0 / sqrt n1) + 0 / sqrt n2 * (0 / sqrt n2))
        with 0 by (unfold Rdiv; ring).
      apply sqrt_0. }
    assert (Hse : forall m1 m2 n1 n2 p,
               standardError (steps_from m1 m2 0 0 n1 n2 df p) = 0).
    { intros. cbn. apply Hzero. }
    assert (Ht : forall m1 m2 n1 n2 p,
               tStatistic (steps_from m1 m2 0 0 n1 n2 df p) = 0).
    { intros. cbn. rewrite Hzero.
      destruct (Rlt_dec 0 0); [lra | reflexivity]. }
    rewrite Ht, calculatePValue_zero in Hsteps. cbn [bind] in Hsteps.
    eexists. split; [exact Hsteps|].
    split; [reflexivity|]. split; [reflexivity|].
    split; [apply Hse|]. split; [apply Ht|]. split; [reflexivity|].
    split.
    + unfold tTest. rewrite Hsteps. reflexivity.
    + cbn. apply toFixed_1.
Qed.

(** C10. [tTest] throws the error of [mean] as soon as one of the two
    samples is empty, and so does [compareVersions] when one version has
    no successful case; for two samples that are not empty [tTest]
    returns. *)
Theorem tTest_partial_on_empty_samples :
  (forall sampleA sampleB : list R,
      sampleA = [] \/ sampleB = [] ->
      tTest sampleA sampleB = Throw "mean requires at least one data point")
  /\ (forall resultA resultB : Runner.VersionResult,
         List.filter TestCaseResult.success (Runner.vr_testCases resultA) = []
         \/ List.filter TestCaseResult.success (Runner.vr_testCases resultB) = [] ->
         compareVersions resultA resultB
         = Throw "mean requires at least one data point")
  /\ (forall sampleA sampleB : list R,
         sampleA <> [] -> sampleB <> [] -> returned (tTest sampleA sampleB)).
Proof.
  assert (Hempty : forall sampleA sampleB : list R,
             sampleA = [] \/ sampleB = [] ->
             tTest sampleA sampleB
             = Throw "mean requires at least one data point").
  { intros sampleA sampleB [-> | ->]; [reflexivity|].
    unfold tTest, tTest_steps.
    destruct sampleA as [|v sampleA]; [reflexivity|].
    rewrite ss_mean_ok by discriminate. reflexivity. }
  split; [exact Hempty|]. split.
  - intros resultA resultB Hnone. unfold compareVersions.
    rewrite Hempty; [reflexivity|].
    destruct Hnone as [-> | ->]; [now left | now right].
  - intros sampleA sampleB HA HB.
    destruct (tTest_steps_front sampleA sampleB HA HB)
      as (sdA & sdB & df & _ & _ & _ & _ & Hsteps).
    specialize (Hsteps _ _ _ _ eq_refl eq_refl eq_refl eq_refl).
    unfold tTest. rewrite Hsteps.
    apply returned_bind; [|intros; exact I].
    apply returned_bind; [|intros; exact I].
    apply calculatePValue_returned.
Qed.

(** C7 at the sample [100, 100, 100]. *)
Lemma tTest_degenerate_example :
  [100; 100; 100] <> ([] : list R)
  /\ exists r,
      tTest [100; 100; 100] [100; 100; 100] = Ok r
      /\ difference r = 0 /\ pValue r = 1 /\ significant r = false.
Proof.
  split; [discriminate|].
  exact (proj1 tTest_degenerate_inputs [100; 100; 100] ltac:(discriminate)).
Defined.

(** C10 at an empty sample and at two singleton samples. *)
Lemma tTest_partial_example :
  tTest [] [100] = Throw "mean requires at least one data point"
  /\ [100] <> ([] : list R) /\ [110] <> ([] : list R)
  /\ returned (tTest [100] [110]).
Proof.
  split.
  - exact (proj1 tTest_partial_on_empty_samples [] [100] (or_introl eq_refl)).
  - split; [discriminate|]. split; [discriminate|].
    exact (proj2 (proj2 tTest_partial_on_empty_samples) [100] [110]
             ltac:(discriminate) ltac:(discriminate)).
Defined.

End StatsFacts.

(* --------------------------------------------------------------------- *)
(** ** The commands [init] and [add]                                       *)
(* --------------------------------------------------------------------- *)
Module CommandFacts.
Import JS Repo Commands.
Local Open Scope list_scope.

Section Add.

Variable hashContent : string -> string.
Variable JSON_stringify : RepositoryObject -> string.
Variable relative : string -> string.

(** *** The assignment to a property of the index *)

Lemma assign_lookup_eq {T : Type} (key : string) (value : T)
  (object : gmap string T) :
  key <> "__proto__" -> assign key value object !! key = Some value.
Proof.
  intros Hkey. unfold assign.
  destruct (object !! key); [apply lookup_insert_eq|].
  destruct (String.eqb_spec key "__proto__"); [contradiction|].
  apply lookup_insert_eq.
Qed.

Lemma assign_lookup_ne {T : Type} (key other : string) (value : T)
  (object : gmap string T) :
  other <> key -> assign key value object !! other = object !! other.
Proof.
  intros Hne. unfold assign.
  destruct (object !! key); [now apply lookup_insert_ne|].
  destruct (String.eqb key "__proto__"); [reflexivity|].
  now apply lookup_insert_ne.
Qed.

Lemma assign_prototype {T : Type} (value : T) (object : gmap string T) :
  object !! "__proto__" = None -> assign "__proto__" value object = object.
Proof. intros Hnone. unfold assign. now rewrite Hnone. Qed.

Lemma assign_again {T : Type} (key : string) (value : T)
  (object : gmap string T) :
  assign key value (assign key value object) = assign key value object.
Proof.
  unfold assign. destruct (object !! key) eqn:Hkey.
  - rewrite lookup_insert_eq. apply insert_insert_eq.
  - destruct (String.eqb key "__proto__") eqn:Hproto.
    + now rewrite Hkey.
    + rewrite lookup_insert_eq. apply insert_insert_eq.
Qed.

(** X1. In an initialised repository with a readable index, [add] of a
    regular file, the digest of whose text is a SHA-256 digest, ends with
    code 0; the index then maps the relative path to the digest of the
    text of the file, unless the path is [__proto__], which is not staged:
    the index is as before; every other entry of the index is kept; the
    blob is stored under that digest; HEAD and every object under another
    digest are as before. *)
Theorem addCommand_stages_file
  (repo : Repository) (index : Index) (filePath content : string) :
  isInitialized repo = true ->
  index_json repo = Some index ->
  is_digest (hashContent content) = true ->
  let r := addCommand hashContent JSON_stringify relative repo filePath (Some (File content)) in
  let hash := hashContent content in
  ended r = Exit 0
  /\ (exists index',
        index_json (repo_after r) = Some index'
        /\ (relative filePath <> "__proto__" ->
            staged index' !! relative filePath
            = Some {| sf_hash := hash; sf_path := relative filePath |})
        /\ (relative filePath = "__proto__" ->
            staged index !! "__proto__" = None -> index' = index)
        /\ forall path, path <> relative filePath ->
             staged index' !! path = staged index !! path)
  /\ readObject (repo_after r) hash = Returns (JSON_stringify (BlobObj content))
  /\ HEAD_file (repo_after r) = HEAD_file repo
  /\ forall other, is_digest other = true -> other <> hash ->
       readObject (repo_after r) other = readObject repo other.
Proof.
  intros Hinit Hindex _ r hash. subst r.
  unfold Commands.addCommand. rewrite Hinit. cbn [negb].
  unfold readIndex. rewrite Hindex. cbn.
  split; [reflexivity|]. split; [|split; [|split]].
  - eexists. split; [reflexivity|]. cbn. split; [|split].
    + apply assign_lookup_eq.
    + intros -> Hnone. rewrite assign_prototype by exact Hnone.
      now destruct index.
    + intros path Hne. now apply assign_lookup_ne.
  - unfold readObject. cbn. now rewrite lookup_insert_eq.
  - reflexivity.
  - intros other _ Hne. unfold readObject, writeIndex, writeObject.
    cbn [objects]. rewrite lookup_insert_ne; [reflexivity|].
    intros Heq. apply Hne. symmetry. now apply RepoFacts.getObjectPath_inj.
Qed.

(** X2. Adding the same file twice is the same as adding it once: the
    second [add] ends with code 0 and leaves the repository as the first
    one left it. *)
Theorem addCommand_file_idempotent
  (repo : Repository) (index : Index) (filePath content : string) :
  isInitialized repo = true ->
  index_json repo = Some index ->
  let once := addCommand hashContent JSON_stringify relative repo filePath (Some (File content)) in
  let twice := addCommand hashContent JSON_stringify relative (repo_after once) filePath (Some (File content)) in
  ended twice = Exit 0 /\ repo_after twice = repo_after once.
Proof.
  intros Hinit Hindex once twice. subst once twice.
  unfold Commands.addCommand, isInitialized in *. rewrite Hinit. cbn [negb].
  unfold readIndex. rewrite Hindex. cbn. rewrite Hinit. cbn.
  split; [reflexivity|].
  unfold writeIndex, writeObject. cbn.
  now rewrite assign_again, !insert_insert_eq.
Qed.

(** *** A directory *)

(** The loop over the entries, entry by entry: the last regular file that
    has a path decides what the index holds there (the path [__proto__],
    when the index does not hold it, is never added), the last one whose
    digest names a place of the store decides what the store holds there,
    and nothing else changes. *)
Lemma addEntries_last_wins (filePath : string)
  (entries : list (string * option string)) (repo : Repository) (index : Index) :
  exists repo' index',
    Commands.addEntries hashContent JSON_stringify relative filePath entries
      (repo, index)
    = (repo', index', length (List.filter is_file entries))
    /\ pvc_exists repo' = pvc_exists repo
    /\ HEAD_file repo' = HEAD_file repo
    /\ index_json repo' = index_json repo
    /\ (forall path,
          staged index' !! path
          = match List.find (staged_by relative filePath path) (rev entries) with
            | Some (_, Some content) =>
                match staged index !! path with
                | None =>
                    if String.eqb path "__proto__" then None
                    else Some {| sf_hash := hashContent content;
                                 sf_path := path |}
                | Some _ =>
                    Some {| sf_hash := hashContent content; sf_path := path |}
                end
            | _ => staged index !! path
            end)
    /\ (forall place,
          objects repo' !! place
          = match List.find (stored_by hashContent place) (rev entries) with
            | Some (_, Some content) => Some (JSON_stringify (BlobObj content))
            | _ => objects repo !! place
            end).
Proof.
  induction entries as [|[name kind] entries IH] using rev_ind.
  - exists repo, index. cbn. repeat split.
  - destruct IH as (repo1 & index1 & Hfold & Hpvc & Hhead & Hidx & Hstaged & Hobj).
    unfold Commands.addEntries in *. rewrite fold_left_app, Hfold.
    rewrite List.filter_app, length_app, rev_app_distr. cbn [fold_left rev app].
    destruct kind as [content|]; cbn [snd fst].
    + eexists _, _. split.
      { cbn. rewrite Nat.add_1_r. reflexivity. }
      cbn. repeat (split; [assumption|]). split.
      * intros path. unfold staged_by at 1. cbn [snd fst].
        case_bool_decide as Hpath.
        -- subst path. specialize (Hstaged (relative (filePath +:+ "/" +:+ name))).
           unfold assign.
           destruct (staged index1 !! relative (filePath +:+ "/" +:+ name))
             as [found|] eqn:Hfound.
           ++ rewrite lookup_insert_eq.
              destruct (staged index !! relative (filePath +:+ "/" +:+ name))
                as [before|] eqn:Hbefore; [reflexivity|].
              destruct (String.eqb (relative (filePath +:+ "/" +:+ name))
                          "__proto__"); [|reflexivity].
              now destruct (List.find _ (rev entries)) as [[? [?|]]|].
           ++ assert (Hbefore :
                        staged index !! relative (filePath +:+ "/" +:+ name)
                        = None).
              { destruct (staged index
                          !! relative (filePath +:+ "/" +:+ name)) eqn:Hbefore;
                  [|reflexivity].
                now destruct (List.find _ (rev entries)) as [[? [?|]]|]. }
              rewrite Hbefore.
              destruct (String.eqb (relative (filePath +:+ "/" +:+ name))
                          "__proto__"); [exact Hfound|].
              apply lookup_insert_eq.
        -- rewrite assign_lookup_ne by (intros Heq; now apply Hpath).
           apply Hstaged.
      * intros place. unfold stored_by at 1. cbn [snd].
        case_bool_decide as Hplace.
        -- subst place. now rewrite lookup_insert_eq.
        -- rewrite lookup_insert_ne by exact Hplace. apply Hobj.
    + exists repo1, index1. split.
      { cbn. now rewrite Nat.add_0_r. }
      repeat (split; [assumption|]). exact Hobj.
Qed.

(** X3. [add] of a directory stages the regular files that are directly
    in it, and only them: with entries of distinct names and distinct
    relative paths, whose texts have SHA-256 digests, the index afterwards
    maps the path of each regular file to the digest of its text, except
    that a file whose path is [__proto__] is counted and not staged; every
    other path is as before (nothing of a subdirectory is staged), the
    count that is printed is the number of regular files, and HEAD is
    untouched. *)
Theorem addCommand_stages_directory
  (repo : Repository) (index : Index) (filePath : string)
  (entries : list (string * option string)) :
  isInitialized repo = true ->
  index_json repo = Some index ->
  NoDup entries.*1 ->
  (forall name name',
      name ∈ entries.*1 -> name' ∈ entries.*1 ->
      relative (filePath +:+ "/" +:+ name) = relative (filePath +:+ "/" +:+ name') ->
      name = name') ->
  (forall name content,
      (name, Some content) ∈ entries -> is_digest (hashContent content) = true) ->
  let r := Commands.addCommand hashContent JSON_stringify relative
             repo filePath (Some (Directory entries)) in
  ended r = Exit 0
  /\ console r
     = [Log ("Staged " +:+ pretty (length (List.filter is_file entries))
             +:+ " files from " +:+ filePath)]
  /\ HEAD_file (repo_after r) = HEAD_file repo
  /\ exists index',
      index_json (repo_after r) = Some index'
      /\ (forall name content,
             (name, Some content) ∈ entries ->
             relative (filePath +:+ "/" +:+ name) <> "__proto__" ->
             staged index' !! relative (filePath +:+ "/" +:+ name)
             = Some {| sf_hash := hashContent content;
                       sf_path := relative (filePath +:+ "/" +:+ name) |})
      /\ (staged index !! "__proto__" = None ->
          staged index' !! "__proto__" = None)
      /\ (forall path,
             (forall name content,
                 (name, Some content) ∈ entries ->
                 relative (filePath +:+ "/" +:+ name) <> path) ->
             staged index' !! path = staged index !! path).
Proof.
  intros Hinit Hindex Hnames Hpaths _ r. subst r.
  unfold Commands.addCommand. rewrite Hinit. cbn [negb].
  unfold readIndex. rewrite Hindex.
  destruct (addEntries_last_wins filePath entries repo index)
    as (repo' & index' & Hfold & _ & Hhead & _ & Hstaged & _).
  rewrite Hfold. cbn.
  split; [reflexivity|]. split; [reflexivity|]. split; [exact Hhead|].
  exists index'. split; [reflexivity|]. split; [|split].
  - intros name content Hin Hproto. rewrite Hstaged.
    destruct (List.find _ (rev entries)) as [[name' [content'|]]|] eqn:Hfind.
    + apply find_some in Hfind. destruct Hfind as [Hin' Hby].
      apply in_rev, list_elem_of_In in Hin'.
      unfold staged_by in Hby. cbn in Hby. apply bool_decide_eq_true in Hby.
      assert (name' = name) as ->.
      { apply Hpaths; [| |exact Hby]; apply list_elem_of_fmap;
          [now exists (name', Some content') | now exists (name, Some content)]. }
      assert (Some content' = Some content) as [= ->].
      { pose proof (elem_of_list_to_map_1 (M := gmap string) entries
                      name (Some content) Hnames Hin) as H1.
        pose proof (elem_of_list_to_map_1 (M := gmap string) entries
                      name (Some content') Hnames Hin') as H2.
        congruence. }
      destruct (staged index !! relative (filePath +:+ "/" +:+ name));
        [reflexivity|].
      destruct (String.eqb_spec (relative (filePath +:+ "/" +:+ name))
                  "__proto__"); [contradiction | reflexivity].
    + apply find_some in Hfind. destruct Hfind as [_ Hby]. discriminate.
    + exfalso.
      assert (Hno : staged_by relative filePath
                      (relative (filePath +:+ "/" +:+ name))
                      (name, Some content) = false).
      { apply (find_none _ _ Hfind). apply -> in_rev. now apply list_elem_of_In. }
      unfold staged_by in Hno. cbn in Hno.
      now apply bool_decide_eq_false in Hno.
  - intros Hnone. rewrite Hstaged, Hnone.
    now destruct (List.find _ (rev entries)) as [[? [?|]]|].
  - intros path Hother. rewrite Hstaged.
    destruct (List.find _ (rev entries)) as [[name' [content'|]]|] eqn:Hfind;
      try reflexivity.
    apply find_some in Hfind. destruct Hfind as [Hin' Hby].
    apply in_rev, list_elem_of_In in Hin'.
    unfold staged_by in Hby. cbn in Hby. apply bool_decide_eq_true in Hby.
    now apply Hother in Hin'.
Qed.

End Add.

(** X1 on the fresh repository: [pvc add prompt.txt] stores the blob of
    the prompt. *)
Lemma addCommand_stages_file_example :
  isInitialized RepoScenario.fresh = true
  /\ index_json RepoScenario.fresh = Some {| staged := ∅ |}
  /\ is_digest (RepoScenario.sha256 "Hello {{name}}!") = true
  /\ ended (Commands.addCommand RepoScenario.sha256 RepoScenario.stringify
              CommandScenario.relative RepoScenario.fresh "prompt.txt"
              (Some (File "Hello {{name}}!"))) = Exit 0
  /\ readObject
       (repo_after
          (Commands.addCommand RepoScenario.sha256 RepoScenario.stringify
             CommandScenario.relative RepoScenario.fresh "prompt.txt"
             (Some (File "Hello {{name}}!"))))
       (RepoScenario.sha256 "Hello {{name}}!")
     = Returns (RepoScenario.stringify (BlobObj "Hello {{name}}!")).
Proof.
  split; [reflexivity|]. split; [reflexivity|]. split; [reflexivity|].
  pose proof (addCommand_stages_file RepoScenario.sha256
                RepoScenario.stringify CommandScenario.relative
                RepoScenario.fresh {| staged := ∅ |} "prompt.txt"
                "Hello {{name}}!" eq_refl eq_refl eq_refl) as H.
  cbv zeta in H. destruct H as (Hended & _ & Hblob & _).
  split; [exact Hended | exact Hblob].
Defined.

(** X2 on the fresh repository. *)
Lemma addCommand_file_idempotent_example :
  isInitialized RepoScenario.fresh = true
  /\ index_json RepoScenario.fresh = Some {| staged := ∅ |}
  /\ repo_after
       (Commands.addCommand RepoScenario.sha256 RepoScenario.stringify
          CommandScenario.relative
          (repo_after
             (Commands.addCommand RepoScenario.sha256 RepoScenario.stringify
                CommandScenario.relative RepoScenario.fresh "prompt.txt"
                (Some (File "Hello {{name}}!"))))
          "prompt.txt" (Some (File "Hello {{name}}!")))
     = repo_after
         (Commands.addCommand RepoScenario.sha256 RepoScenario.stringify
            CommandScenario.relative RepoScenario.fresh "prompt.txt"
            (Some (File "Hello {{name}}!"))).
Proof.
  split; [reflexivity|]. split; [reflexivity|].
  exact (proj2 (addCommand_file_idempotent RepoScenario.sha256
                  RepoScenario.stringify CommandScenario.relative
                  RepoScenario.fresh {| staged := ∅ |} "prompt.txt"
                  "Hello {{name}}!" eq_refl eq_refl)).
Defined.

(** X3 on the fresh repository and a directory with one prompt and one
    subdirectory: one file is staged. *)
Lemma addCommand_stages_directory_example :
  isInitialized RepoScenario.fresh = true
  /\ NoDup CommandScenario.prompts.*1
  /\ console (Commands.addCommand RepoScenario.sha256 RepoScenario.stringify
                CommandScenario.relative RepoScenario.fresh "prompts"
                (Some (Directory CommandScenario.prompts)))
     = [Log "Staged 1 files from prompts"].
Proof.
  assert (Hnames : NoDup CommandScenario.prompts.*1).
  { cbn. apply NoDup_cons. split; [|apply NoDup_singleton].
    intros Hin. apply list_elem_of_singleton in Hin. discriminate. }
  split; [reflexivity|]. split; [exact Hnames|].
  refine (proj1 (proj2 (addCommand_stages_directory RepoScenario.sha256
                          RepoScenario.stringify CommandScenario.relative
                          RepoScenario.fresh {| staged := ∅ |} "prompts"
                          CommandScenario.prompts eq_refl eq_refl Hnames _ _))).
  - intros name name' Hin Hin' Heq. cbn in Hin, Hin'.
    unfold CommandScenario.relative in Heq.
    apply elem_of_cons in Hin. apply elem_of_cons in Hin'.
    rewrite list_elem_of_singleton in Hin, Hin'.
    destruct Hin as [->| ->], Hin' as [->| ->]; try reflexivity; discriminate.
  - intros name content Hin. unfold CommandScenario.prompts in Hin.
    apply elem_of_cons in Hin. rewrite list_elem_of_singleton in Hin.
    destruct Hin as [[= -> ->] | [=]]. reflexivity.
Defined.

(* --------------------------------------------------------------------- *)
(** *** From [init] to the prompt of a commit                              *)
(* --------------------------------------------------------------------- *)
Section Store.

Variable hashContent : string -> string.
Variable JSON_stringify : RepositoryObject -> string.
Variable JSON_parse : string -> option RepositoryObject.
Variable relative : string -> string.
Variable Object_entries : gmap string string -> list (string * string).

(** The runtime lists every property of an object once. *)
Hypothesis Object_entries_all :
  forall m : gmap string string, Object_entries m ≡ₚ map_to_list m.

Lemma elem_of_Object_entries (m : gmap string string) (key value : string) :
  (key, value) ∈ Object_entries m <-> m !! key = Some value.
Proof. rewrite Object_entries_all. apply elem_of_map_to_list. Qed.

(** X4. [init] in a directory without [.pvc] ends with code 0 and leaves
    an initialised repository with an empty index, the same HEAD and the
    same objects; a second [init] is refused with code 2 and changes
    nothing, and a [commit] right after [init] is refused with code 3,
    nothing being staged. *)
Theorem initCommand_creates_empty_index
  (repo : Repository) (message now : string) :
  isInitialized repo = false ->
  let r := initCommand repo in
  ended r = Exit 0
  /\ isInitialized (repo_after r) = true
  /\ readIndex (repo_after r) = Returns {| staged := ∅ |}
  /\ getHead (repo_after r) = getHead repo
  /\ objects (repo_after r) = objects repo
  /\ initCommand (repo_after r)
     = {| ended := Exit 2;
          console := [Error "Error: .pvc already exists"];
          repo_after := repo_after r |}
  /\ (trim message <> "" ->
      commitCommand hashContent JSON_stringify (repo_after r) message now
      = {| ended := Exit 3;
           console := [Error "Error: nothing to commit (no staged files)"];
           repo_after := repo_after r |}).
Proof.
  intros Hnone r. subst r. unfold initCommand, init. rewrite Hnone. cbn.
  repeat (split; [reflexivity|]).
  intros Hmessage. unfold commitCommand. cbn.
  destruct (is_empty message || is_empty (trim message))%bool eqn:Hblank.
  { apply RepoFacts.blank_message in Hblank. contradiction. }
  reflexivity.
Qed.

(** *** The prompt of a commit *)

Lemma first_blob_sound (repo : Repository) (entries : list (string * string))
  (text : string) :
  first_blob JSON_parse repo entries = Some text ->
  exists path hash,
    (path, hash) ∈ entries /\ stored_blob JSON_parse repo hash text.
Proof.
  induction entries as [|[path hash] entries IH]; cbn; [discriminate|].
  intros Hfirst.
  assert (Hrest : first_blob JSON_parse repo entries = Some text ->
                  exists path' hash',
                    (path', hash') ∈ (path, hash) :: entries
                    /\ stored_blob JSON_parse repo hash' text).
  { intros H. destruct (IH H) as (path' & hash' & Hin & Hblob).
    exists path', hash'. split; [now right | exact Hblob]. }
  destruct (readObject repo hash) as [content|e] eqn:Hread; [|auto].
  destruct (JSON_parse content) as [[text'|commit]|] eqn:Hparse; [|auto..].
  injection Hfirst as ->. exists path, hash. split; [now left|].
  exists content. now split.
Qed.

Lemma first_blob_complete (repo : Repository) (entries : list (string * string))
  (path hash text : string) :
  (path, hash) ∈ entries ->
  stored_blob JSON_parse repo hash text ->
  exists text', first_blob JSON_parse repo entries = Some text'.
Proof.
  intros Hin (content & Hread & Hparse).
  induction entries as [|[path' hash'] entries IH]; [now apply elem_of_nil in Hin|].
  cbn. apply elem_of_cons in Hin. destruct Hin as [[= <- <-]|Hin].
  - rewrite Hread, Hparse. now eexists.
  - destruct (IH Hin) as [text' Hfirst]. rewrite Hfirst.
    destruct (readObject repo hash') as [content'|e]; [|now eexists].
    destruct (JSON_parse content') as [[text''|commit]|]; now eexists.
Qed.

(** X5. The prompt that the [test] command loads from a commit is the text
    of a blob that the tree of the commit names; a prompt is found as soon
    as the tree names a stored blob, whatever else it names; a missing
    commit and a tree without a stored blob are the two errors. *)
Theorem loadPromptFromCommit_finds_blob (repo : Repository) (commitHash : string) :
  let load := loadPromptFromCommit JSON_parse Object_entries repo commitHash in
  (forall text,
      load = Returns text ->
      exists commit path hash,
        getCommit JSON_parse repo commitHash = Some commit
        /\ tree commit !! path = Some hash
        /\ stored_blob JSON_parse repo hash text)
  /\ (forall commit path hash text,
         getCommit JSON_parse repo commitHash = Some commit ->
         tree commit !! path = Some hash ->
         stored_blob JSON_parse repo hash text ->
         exists text', load = Returns text')
  /\ (forall message,
         load = Throws message ->
         (getCommit JSON_parse repo commitHash = None
          /\ message = "Commit not found: " +:+ commitHash)
         \/ (message = "No prompt found in commit " +:+ commitHash
             /\ exists commit,
                 getCommit JSON_parse repo commitHash = Some commit
                 /\ forall path hash text,
                     tree commit !! path = Some hash ->
                     ~ stored_blob JSON_parse repo hash text)).
Proof.
  intros load. subst load. unfold loadPromptFromCommit.
  destruct (getCommit JSON_parse repo commitHash) as [commit|] eqn:Hcommit.
  2:{ split; [discriminate|]. split; [discriminate|].
      intros message [= <-]. now left. }
  destruct (first_blob JSON_parse repo (Object_entries (tree commit)))
    as [text|] eqn:Hfirst.
  - split; [|split].
    + intros text' [= <-].
      destruct (first_blob_sound _ _ _ Hfirst) as (path & hash & Hin & Hblob).
      exists commit, path, hash. split; [reflexivity|].
      split; [now apply elem_of_Object_entries | exact Hblob].
    + intros. now eexists.
    + discriminate.
  - split; [discriminate|]. split.
    + intros commit' path hash text [= <-] Htree Hblob.
      apply elem_of_Object_entries in Htree.
      destruct (first_blob_complete _ _ _ _ _ Htree Hblob) as [text' Hsome].
      congruence.
    + intros message [= <-]. right. split; [reflexivity|].
      exists commit. split; [reflexivity|].
      intros path hash text Htree Hblob.
      apply elem_of_Object_entries in Htree.
      destruct (first_blob_complete _ _ _ _ _ Htree Hblob) as [text' Hsome].
      congruence.
Qed.

(** *** [add], [commit], and the prompt again *)

Lemma Object_entries_singleton (key value : string) :
  Object_entries {[key := value]} = [(key, value)].
Proof.
  apply Permutation_singleton_r.
  now rewrite Object_entries_all, map_to_list_singleton.
Qed.

(** X6. A file that is added to an empty index under a path other than
    [__proto__] and committed is the prompt of the new commit: [add] and
    [commit] end with code 0, HEAD
    names the commit, the commit is read back with the tree that maps the
    path to the digest of the text and with the former HEAD as its parent,
    and [loadPromptFromCommit] returns the text of the file. The objects
    are read back as they were written, and the digest of the commit is
    not the digest of the text. *)
Theorem add_commit_load_round_trip
  (repo : Repository) (index : Index)
  (filePath content message now : string) :
  isInitialized repo = true ->
  index_json repo = Some index ->
  staged index = ∅ ->
  relative filePath <> "__proto__" ->
  trim message <> "" ->
  let blobHash := hashContent content in
  let commit :=
    {| tree := {[relative filePath := blobHash]};
       parent := getHead repo;
       Repo.message := trim message;
       timestamp := now |} in
  let commitContent := JSON_stringify (CommitObj commit) in
  let commitHash := hashContent commitContent in
  JSON_parse (JSON_stringify (BlobObj content)) = Some (BlobObj content) ->
  JSON_parse commitContent = Some (CommitObj commit) ->
  getObjectPath commitHash <> getObjectPath blobHash ->
  let added :=
    Commands.addCommand hashContent JSON_stringify relative
      repo filePath (Some (File content)) in
  let committed :=
    commitCommand hashContent JSON_stringify (repo_after added) message now in
  ended added = Exit 0
  /\ ended committed = Exit 0
  /\ HEAD_file (repo_after committed) = Some commitHash
  /\ getCommit JSON_parse (repo_after committed) commitHash = Some commit
  /\ loadPromptFromCommit JSON_parse Object_entries
       (repo_after committed) commitHash
     = Returns content.
Proof.
  intros Hinit Hindex Hempty Hpath Hmessage blobHash commit commitContent
    commitHash Hblob Hcommit Hdistinct added committed.
  assert (Hassign :
            forall value : StagedFile,
              assign (relative filePath) value (∅ : gmap string StagedFile)
              = {[relative filePath := value]}).
  { intros value. unfold assign. rewrite lookup_empty.
    destruct (String.eqb_spec (relative filePath) "__proto__");
      [contradiction | reflexivity]. }
  assert (Hadded : repo_after added
                   = writeIndex
                       {| staged := {[relative filePath :=
                                        {| sf_hash := blobHash;
                                           sf_path := relative filePath |}]} |}
                       (writeObject blobHash (JSON_stringify (BlobObj content))
                          repo)).
  { subst added. unfold Commands.addCommand. rewrite Hinit. cbn [negb].
    unfold readIndex. rewrite Hindex. cbn. now rewrite Hempty, Hassign. }
  assert (Hended : ended added = Exit 0).
  { subst added. unfold Commands.addCommand. rewrite Hinit. cbn [negb].
    unfold readIndex. now rewrite Hindex. }
  split; [exact Hended|].
  assert (Hrun : committed
                 = {| ended := Exit 0;
                      console := [Log ("[" +:+ truncateHash commitHash +:+ "] "
                                       +:+ message)];
                      repo_after :=
                        writeIndex {| staged := ∅ |}
                          (setHead commitHash
                             (writeObject commitHash commitContent
                                (repo_after added))) |}).
  { subst committed. rewrite Hadded. unfold commitCommand.
    unfold isInitialized in *. cbn [writeIndex writeObject pvc_exists].
    rewrite Hinit. cbn [negb].
    destruct (is_empty message || is_empty (trim message))%bool eqn:Hblank.
    { apply RepoFacts.blank_message in Hblank. contradiction. }
    unfold readIndex. cbn [index_json writeIndex]. cbv zeta.
    match goal with
    | |- context [Nat.eqb (length (Object_keys ?m)) 0] =>
        destruct (Nat.eqb (length (Object_keys m)) 0) eqn:Hlen
    end.
    { apply RepoFacts.no_staged_files in Hlen. cbn in Hlen.
      exfalso. revert Hlen. apply map_non_empty_singleton. }
    rewrite RepoFacts.buildTree_staged. cbn [staged].
    rewrite map_fmap_singleton. cbn [sf_hash].
    reflexivity. }
  rewrite Hrun. cbn [ended repo_after]. split; [reflexivity|].
  split; [reflexivity|].
  assert (Hget : getCommit JSON_parse
                   (writeIndex {| staged := ∅ |}
                      (setHead commitHash
                         (writeObject commitHash commitContent
                            (repo_after added)))) commitHash
                 = Some commit).
  { unfold getCommit, readObject. cbn [writeIndex setHead writeObject objects].
    now rewrite lookup_insert_eq, Hcommit. }
  split; [exact Hget|].
  unfold loadPromptFromCommit. rewrite Hget.
  change (tree commit) with ({[relative filePath := blobHash]} : gmap string string).
  rewrite Object_entries_singleton. cbn [first_blob].
  unfold readObject. cbn [writeIndex setHead writeObject objects].
  rewrite lookup_insert_ne by exact Hdistinct.
  rewrite Hadded. cbn [writeIndex writeObject objects].
  now rewrite lookup_insert_eq, Hblob.
Qed.

(** *** The history *)


(** X7. The resolver of the [diff] command returns the first digest that
    starts with the token, going from HEAD along the parents, and throws
    [Invalid commit] when no digest of the history does; the loop ends on
    every history that ends. *)
Theorem diff_resolveCommit_first_in_history (repo : Repository)
  (shortHash : string) (chain : list string) :
  truthy (getHead repo) = true ->
  commit_chain JSON_parse repo (getHead repo) chain ->
  diff_resolveCommit JSON_parse repo shortHash
  = Some match List.find (fun digest => startsWith digest shortHash) chain with
         | Some digest => Returns digest
         | None => Throws ("Invalid commit: " +:+ shortHash)
         end.
Proof.
  intros Htruthy Hchain. unfold diff_resolveCommit.
  rewrite Htruthy. cbn [negb].
  apply RepoFacts.diff_walk_first_match with (1 := Hchain).
  pose proof (RepoFacts.commit_chain_length _ _ _ _ Hchain). lia.
Qed.


End Store.

(* --------------------------------------------------------------------- *)
(** *** The command [diff]                                                 *)
(* --------------------------------------------------------------------- *)
Section Diff.

Variable JSON_parse : string -> option RepositoryObject.
Variable Object_entries : gmap string string -> list (string * string).
Variable createTwoFilesPatch :
  string -> string -> file_content -> file_content ->
  option string -> option string -> result string.

Hypothesis Object_entries_all :
  forall m : gmap string string, Object_entries m ≡ₚ map_to_list m.

Lemma elem_of_Set_add (set : list string) (value x : string) :
  x ∈ Set_add set value <-> x ∈ set \/ x = value.
Proof.
  unfold Set_add. case_bool_decide as Hin.
  - split; [now left | intros [H| ->]; assumption].
  - rewrite elem_of_app, list_elem_of_singleton. reflexivity.
Qed.

Lemma elem_of_Set_fold (values set : list string) (x : string) :
  x ∈ fold_left Set_add values set <-> x ∈ set \/ x ∈ values.
Proof.
  revert set. induction values as [|v values IH]; intros set; cbn [fold_left].
  - rewrite elem_of_nil. tauto.
  - rewrite IH, elem_of_Set_add, elem_of_cons. tauto.
Qed.

Lemma elem_of_Set_from (values : list string) (x : string) :
  x ∈ Set_from values <-> x ∈ values.
Proof.
  unfold Set_from. rewrite elem_of_Set_fold, elem_of_nil. tauto.
Qed.

Lemma Object_entries_empty : Object_entries ∅ = [].
Proof.
  apply Permutation_nil_r. now rewrite Object_entries_all, map_to_list_empty.
Qed.

Lemma elem_of_Object_keys (m : gmap string string) (key : string) :
  key ∈ (Object_entries m).*1 <-> is_Some (m !! key).
Proof.
  rewrite Object_entries_all. rewrite list_elem_of_fmap. split.
  - intros ([k v] & -> & Hin). apply elem_of_map_to_list in Hin. now exists v.
  - intros [v Hv]. exists (key, v). split; [reflexivity|].
    now apply elem_of_map_to_list.
Qed.

Lemma getCommitTree_commit (repo : Repository) (hash : string) (commit : Commit) :
  getCommit JSON_parse repo hash = Some commit ->
  getCommitTree JSON_parse repo hash = Returns (Some (tree commit)).
Proof.
  unfold getCommit, getCommitTree.
  destruct (readObject repo hash) as [content|e]; [|discriminate].
  destruct (JSON_parse content) as [[text|c]|]; try discriminate.
  now intros [= ->].
Qed.

(** The loop over the paths finds nothing to print when the two trees
    give every path the same text. *)
Lemma diff_paths_same (repo : Repository) (fromTree toTree : gmap string string)
  (fromLabel toLabel : option string) (paths : list string) :
  (forall path, path ∈ paths ->
     exists text,
       getFileContent JSON_parse repo fromTree path = Returns text
       /\ getFileContent JSON_parse repo toTree path = Returns text) ->
  diff_paths JSON_parse createTwoFilesPatch repo fromTree toTree
    fromLabel toLabel paths = Returns [].
Proof.
  induction paths as [|path paths IH]; intros Hsame; [reflexivity|].
  cbn [diff_paths].
  destruct (Hsame path) as (text & -> & ->); [now left|].
  rewrite bool_decide_eq_true_2 by reflexivity.
  apply IH. intros path' Hin. apply Hsame. now right.
Qed.

(** The loop over the paths throws as soon as the text of one path
    cannot be fetched from the second tree. *)
Lemma diff_paths_throws (repo : Repository) (fromTree toTree : gmap string string)
  (fromLabel toLabel : option string) (paths : list string)
  (path message : string) :
  path ∈ paths ->
  getFileContent JSON_parse repo toTree path = Throws message ->
  exists message',
    diff_paths JSON_parse createTwoFilesPatch repo fromTree toTree
      fromLabel toLabel paths = Throws message'.
Proof.
  intros Hin Hthrows.
  induction paths as [|path' paths IH]; [now apply elem_of_nil in Hin|].
  cbn [diff_paths].
  destruct (getFileContent JSON_parse repo fromTree path') as [fromText|e];
    [|now eexists].
  destruct (getFileContent JSON_parse repo toTree path') as [toText|e] eqn:Hto;
    [|now eexists].
  apply elem_of_cons in Hin. destruct Hin as [->|Hin]; [congruence|].
  destruct (IH Hin) as [message' ->].
  case_bool_decide; [now eexists|].
  destruct (createTwoFilesPatch _ _ _ _ _ _); now eexists.
Qed.

(** X9. [diff] without arguments prints [No differences found] when the
    working tree holds the files of the commit at HEAD with the texts of
    their blobs, and nothing else. *)
Theorem diffCommand_clean_working_tree
  (repo : Repository) (working : gmap string string)
  (head : string) (commit : Commit) :
  isInitialized repo = true ->
  getHead repo = Some head ->
  head <> "" ->
  getCommit JSON_parse repo head = Some commit ->
  checked_out JSON_parse repo (tree commit) working ->
  diffCommand JSON_parse Object_entries createTwoFilesPatch
    repo working None None
  = Some (Exit 0, [Log "No differences found"]).
Proof.
  intros Hinit Hhead Hne Hcommit Hclean.
  unfold diffCommand. rewrite Hinit, Hhead. cbn [negb].
  assert (Htruthy : truthy (Some head) = true).
  { destruct head; [contradiction | reflexivity]. }
  rewrite Htruthy. cbn [negb default diff_text truthy]. unfold Datatypes.id.
  rewrite (getCommitTree_commit _ _ _ Hcommit).
  unfold generateDiff. rewrite diff_paths_same; [reflexivity|].
  intros path _. specialize (Hclean path). unfold getFileContent.
  destruct (tree commit !! path) as [hash|].
  - destruct Hclean as (Hhash & text & (content & Hread & Hparse) & Hwork & Htext).
    rewrite Hhash, Hread, Hparse, Hwork, Htext. now exists (Text text).
  - rewrite Hclean. destruct (inherited path); now eexists.
Qed.

(** X10. A file of the working tree whose whole text is 40 to 64
    hexadecimal digits is taken for the name of a blob: unless the store
    has an object of that name, [diff] without arguments ends with code 5
    and prints one error, whatever else the working tree holds. *)
Theorem diffCommand_text_taken_for_digest
  (repo : Repository) (working : gmap string string)
  (head : string) (commit : Commit) (path text : string) :
  isInitialized repo = true ->
  getHead repo = Some head ->
  head <> "" ->
  getCommit JSON_parse repo head = Some commit ->
  working !! path = Some text ->
  looks_like_hash text = true ->
  objects repo !! getObjectPath text = None ->
  exists message,
    diffCommand JSON_parse Object_entries createTwoFilesPatch
      repo working None None
    = Some (Exit 5, [Error ("Error: " +:+ message)]).
Proof.
  intros Hinit Hhead Hne Hcommit Hpath Hlooks Hmissing.
  unfold diffCommand. rewrite Hinit, Hhead. cbn [negb].
  assert (Htruthy : truthy (Some head) = true).
  { destruct head; [contradiction | reflexivity]. }
  rewrite Htruthy. cbn [negb default diff_text truthy]. unfold Datatypes.id.
  rewrite (getCommitTree_commit _ _ _ Hcommit).
  unfold generateDiff.
  destruct (diff_paths_throws repo (tree commit) working
              (Some (take 7 head)) (Some "working")
              (Set_from ((Object_entries (tree commit)).*1
                         ++ (Object_entries working).*1))
              path ("Object not found: " +:+ text)) as [message ->].
  - apply elem_of_Set_from, elem_of_app. right.
    apply elem_of_Object_keys. now exists text.
  - unfold getFileContent, readObject. now rewrite Hpath, Hlooks, Hmissing.
  - now exists message.
Qed.

(** X11. [diff] compares nothing in two cases and reports that there are
    no differences: in a repository without a commit, whatever commits are
    named and whatever the working tree holds, and when only the second
    commit is given. *)
Theorem diffCommand_compares_nothing
  (repo : Repository) (working : gmap string string)
  (commitA commitB : option string) :
  isInitialized repo = true ->
  (truthy (getHead repo) = false ->
   diffCommand JSON_parse Object_entries createTwoFilesPatch
     repo working commitA commitB
   = Some (Exit 0, [Log "No differences found (no commits yet)"]))
  /\ (truthy (getHead repo) = true ->
      truthy commitA = false -> truthy commitB = true ->
      diffCommand JSON_parse Object_entries createTwoFilesPatch
        repo working commitA commitB
      = Some (Exit 0, [Log "No differences found"])).
Proof.
  intros Hinit. unfold diffCommand. rewrite Hinit. cbn [negb]. split.
  - now intros ->.
  - intros -> HA HB. cbn [negb]. unfold diff_text. rewrite HA, HB.
    unfold generateDiff. now rewrite Object_entries_empty.
Qed.

End Diff.

(** *** The scenario *)

Lemma scenario_entries_all (m : gmap string string) :
  CommandScenario.Object_entries m ≡ₚ map_to_list m.
Proof. reflexivity. Qed.

Lemma scenario_commit1 :
  getCommit RepoScenario.parse RepoScenario.committed1 RepoScenario.commit1_hash
  = Some RepoScenario.commit1.
Proof. vm_compute. reflexivity. Qed.

Lemma scenario_blob1 :
  stored_blob RepoScenario.parse RepoScenario.committed1
    RepoScenario.blob1_hash "Hello {{name}}!".
Proof.
  exists (RepoScenario.stringify RepoScenario.blob1).
  split; vm_compute; reflexivity.
Qed.

Lemma scenario_head1 :
  getHead RepoScenario.committed1 = Some RepoScenario.commit1_hash.
Proof. vm_compute. reflexivity. Qed.

Lemma scenario_head2 :
  getHead RepoScenario.committed2 = Some RepoScenario.commit2_hash.
Proof. vm_compute. reflexivity. Qed.

Lemma scenario_chain1 (repo : Repository) :
  diff_getCommit_parent RepoScenario.parse repo RepoScenario.commit1_hash
  = Returns None ->
  commit_chain RepoScenario.parse repo (Some RepoScenario.commit1_hash)
    [RepoScenario.commit1_hash].
Proof.
  intros Hparent. constructor 2 with None; [reflexivity | exact Hparent|].
  now constructor.
Qed.

Lemma scenario_chain2 :
  commit_chain RepoScenario.parse RepoScenario.committed2
    (getHead RepoScenario.committed2)
    [RepoScenario.commit2_hash; RepoScenario.commit1_hash].
Proof.
  rewrite scenario_head2.
  constructor 2 with (Some RepoScenario.commit1_hash);
    [reflexivity | vm_compute; reflexivity|].
  apply scenario_chain1. vm_compute. reflexivity.
Qed.

(** X4 in a directory without [.pvc]. *)
Lemma initCommand_creates_empty_index_example :
  isInitialized CommandScenario.empty_directory = false
  /\ ended (initCommand CommandScenario.empty_directory) = Exit 0
  /\ readIndex (repo_after (initCommand CommandScenario.empty_directory))
     = Returns {| staged := ∅ |}.
Proof.
  split; [reflexivity|].
  pose proof (initCommand_creates_empty_index RepoScenario.sha256
                RepoScenario.stringify CommandScenario.empty_directory
                "Initial" "2026-01-01T00:00:00.000Z" eq_refl) as H.
  cbv zeta in H. destruct H as (Hended & _ & Hindex & _).
  split; [exact Hended | exact Hindex].
Defined.

(** X5 on the first commit of the scenario: its tree names the blob of
    the prompt, so a prompt is found. *)
Lemma loadPromptFromCommit_finds_blob_example :
  (forall m, CommandScenario.Object_entries m ≡ₚ map_to_list m)
  /\ exists text,
      loadPromptFromCommit RepoScenario.parse CommandScenario.Object_entries
        RepoScenario.committed1 RepoScenario.commit1_hash
      = Returns text.
Proof.
  split; [exact scenario_entries_all|].
  refine (proj1 (proj2 (loadPromptFromCommit_finds_blob RepoScenario.parse
                          CommandScenario.Object_entries scenario_entries_all
                          RepoScenario.committed1 RepoScenario.commit1_hash))
            RepoScenario.commit1 "prompt.txt" RepoScenario.blob1_hash
            "Hello {{name}}!" scenario_commit1 _ scenario_blob1).
  apply lookup_singleton_eq.
Defined.

(** X6 on the scenario: [pvc add prompt.txt] and
    [pvc commit -m "Initial"] in the fresh repository. *)
Lemma add_commit_load_round_trip_example :
  isInitialized RepoScenario.fresh = true
  /\ trim "Initial" <> ""
  /\ loadPromptFromCommit RepoScenario.parse CommandScenario.Object_entries
       (repo_after
          (commitCommand RepoScenario.sha256 RepoScenario.stringify
             (repo_after
                (Commands.addCommand RepoScenario.sha256 RepoScenario.stringify
                   CommandScenario.relative RepoScenario.fresh "prompt.txt"
                   (Some (File "Hello {{name}}!"))))
             "Initial" "2026-01-01T00:00:00.000Z"))
       (RepoScenario.sha256
          (RepoScenario.stringify
             (CommitObj
                {| tree := {[CommandScenario.relative "prompt.txt" :=
                               RepoScenario.sha256 "Hello {{name}}!"]};
                   parent := getHead RepoScenario.fresh;
                   message := trim "Initial";
                   timestamp := "2026-01-01T00:00:00.000Z" |})))
     = Returns "Hello {{name}}!".
Proof.
  assert (Hmessage : trim "Initial" <> "") by discriminate.
  split; [reflexivity|]. split; [exact Hmessage|].
  refine (proj2 (proj2 (proj2 (proj2
            (add_commit_load_round_trip RepoScenario.sha256
               RepoScenario.stringify RepoScenario.parse
               CommandScenario.relative CommandScenario.Object_entries
               scenario_entries_all RepoScenario.fresh {| staged := ∅ |}
               "prompt.txt" "Hello {{name}}!" "Initial"
               "2026-01-01T00:00:00.000Z" eq_refl eq_refl eq_refl
               ltac:(discriminate) Hmessage _ _ _))))).
  - vm_compute. reflexivity.
  - vm_compute. reflexivity.
  - vm_compute. discriminate.
Defined.

(** X7 on the repository with two commits: the first seven characters of
    the first digest resolve to it. *)
Lemma diff_resolveCommit_first_in_history_example :
  truthy (getHead RepoScenario.committed2) = true
  /\ diff_resolveCommit RepoScenario.parse RepoScenario.committed2 "2ade1a1"
     = Some (Returns RepoScenario.commit1_hash).
Proof.
  assert (Htruthy : truthy (getHead RepoScenario.committed2) = true).
  { now rewrite scenario_head2. }
  split; [exact Htruthy|].
  exact (diff_resolveCommit_first_in_history RepoScenario.parse
           RepoScenario.committed2 "2ade1a1" _ Htruthy scenario_chain2).
Defined.


Lemma scenario_checked_out :
  checked_out RepoScenario.parse RepoScenario.committed1
    (tree RepoScenario.commit1) CommandScenario.working.
Proof.
  intros path. unfold RepoScenario.commit1, CommandScenario.working. cbn [tree].
  destruct (decide (path = "prompt.txt")) as [->|Hne].
  - rewrite lookup_singleton_eq. split; [vm_compute; reflexivity|].
    exists "Hello {{name}}!". split; [exact scenario_blob1|].
    split; [apply lookup_singleton_eq | reflexivity].
  - rewrite !lookup_singleton_ne by congruence. reflexivity.
Qed.

(** X9 on the first commit of the scenario and the working tree that
    holds the prompt as it was committed. *)
Lemma diffCommand_clean_working_tree_example :
  isInitialized RepoScenario.committed1 = true
  /\ RepoScenario.commit1_hash <> ""
  /\ diffCommand RepoScenario.parse CommandScenario.Object_entries
       CommandScenario.createTwoFilesPatch RepoScenario.committed1
       CommandScenario.working None None
     = Some (Exit 0, [Log "No differences found"]).
Proof.
  assert (Hne : RepoScenario.commit1_hash <> "") by discriminate.
  split; [reflexivity|]. split; [exact Hne|].
  exact (diffCommand_clean_working_tree RepoScenario.parse
           CommandScenario.Object_entries CommandScenario.createTwoFilesPatch
           RepoScenario.committed1 CommandScenario.working
           RepoScenario.commit1_hash RepoScenario.commit1
           eq_refl scenario_head1 Hne scenario_commit1 scenario_checked_out).
Defined.

(** X10 on the first commit of the scenario and a working tree with a
    file of forty hexadecimal digits. *)
Lemma diffCommand_text_taken_for_digest_example :
  looks_like_hash "0123456789abcdef0123456789abcdef01234567" = true
  /\ exists message,
      diffCommand RepoScenario.parse CommandScenario.Object_entries
        CommandScenario.createTwoFilesPatch RepoScenario.committed1
        CommandScenario.working_with_digits None None
      = Some (Exit 5, [Error ("Error: " +:+ message)]).
Proof.
  assert (Hne : RepoScenario.commit1_hash <> "") by discriminate.
  split; [reflexivity|].
  refine (diffCommand_text_taken_for_digest RepoScenario.parse
            CommandScenario.Object_entries CommandScenario.createTwoFilesPatch
            scenario_entries_all RepoScenario.committed1
            CommandScenario.working_with_digits
            RepoScenario.commit1_hash RepoScenario.commit1 "notes.txt"
            "0123456789abcdef0123456789abcdef01234567"
            eq_refl scenario_head1 Hne scenario_commit1 _ eq_refl _).
  - apply lookup_singleton_eq.
  - vm_compute. reflexivity.
Defined.

(** X11 on the fresh repository: no commit yet. *)
Lemma diffCommand_compares_nothing_example :
  isInitialized RepoScenario.fresh = true
  /\ truthy (getHead RepoScenario.fresh) = false
  /\ diffCommand RepoScenario.parse CommandScenario.Object_entries
       CommandScenario.createTwoFilesPatch RepoScenario.fresh
       CommandScenario.working (Some "2ade1a1") None
     = Some (Exit 0, [Log "No differences found (no commits yet)"]).
Proof.
  split; [reflexivity|]. split; [reflexivity|].
  exact (proj1 (diffCommand_compares_nothing RepoScenario.parse
                  CommandScenario.Object_entries
                  CommandScenario.createTwoFilesPatch scenario_entries_all
                  RepoScenario.fresh CommandScenario.working
                  (Some "2ade1a1") None eq_refl) eq_refl).
Defined.

End CommandFacts.

(* --------------------------------------------------------------------- *)
(** ** Rounding: [Number(x.toFixed(digits))]                               *)
(* --------------------------------------------------------------------- *)
Module RoundingFacts.
Local Open Scope R_scope.

Lemma Rabs_le_inv (x b : R) : Rabs x <= b -> - b <= x <= b.
Proof. unfold Rabs. destruct (Rcase_abs x); lra. Qed.

Section Digits.

Variable digits : nat.

Lemma scale_pos : 0 < 10 ^ digits.
Proof. apply pow_lt. lra. Qed.

Lemma rnd_nonneg (a : R) : 0 <= a -> 0 <= Rounding.half_up digits a.
Proof.
  intros Ha. unfold Rounding.half_up. apply Rmult_le_pos.
  - apply IZR_le, Zfloor_lub. cbn. pose proof scale_pos. nra.
  - left. apply Rinv_0_lt_compat, scale_pos.
Qed.

Lemma rnd_mono (a b : R) : a <= b -> Rounding.half_up digits a <= Rounding.half_up digits b.
Proof.
  intros Hab. unfold Rounding.half_up. apply Rmult_le_compat_r.
  - left. apply Rinv_0_lt_compat, scale_pos.
  - apply IZR_le, Zfloor_le. pose proof scale_pos. nra.
Qed.

Lemma rnd_near (a : R) : Rabs (Rounding.half_up digits a - a) <= / 2 / 10 ^ digits.
Proof.
  pose proof scale_pos as Hs. unfold Rounding.half_up.
  pose proof (Zfloor_bound (a * 10 ^ digits + / 2)) as [Hlo Hhi].
  set (n := IZR (Zfloor (a * 10 ^ digits + / 2))) in *.
  replace (n / 10 ^ digits - a) with ((n - a * 10 ^ digits) / 10 ^ digits)
    by (field; lra).
  unfold Rdiv at 1. rewrite Rabs_mult, (Rabs_pos_eq (/ 10 ^ digits)).
  2:{ left. now apply Rinv_0_lt_compat. }
  apply Rmult_le_compat_r; [left; now apply Rinv_0_lt_compat|].
  apply Rabs_le. lra.
Qed.

Lemma rnd_below (a : R) : a < 10 ^ 21 -> Rounding.half_up digits a <= 10 ^ 21.
Proof.
  intros Ha. pose proof scale_pos as Hs. unfold Rounding.half_up.
  assert (Hint : 10 ^ 21 * 10 ^ digits = IZR (10 ^ Z.of_nat (21 + digits))).
  { now rewrite <- pow_add, pow_IZR. }
  apply Rmult_le_reg_r with (10 ^ digits); [exact Hs|].
  unfold Rdiv. rewrite Rmult_assoc, Rinv_l, Rmult_1_r by lra.
  rewrite Hint. apply IZR_le.
  assert (Hlt : (Zfloor (a * 10 ^ digits + / 2)
                 < 10 ^ Z.of_nat (21 + digits) + 1)%Z).
  { apply lt_IZR. rewrite plus_IZR, <- Hint.
    pose proof (Zfloor_bound (a * 10 ^ digits + / 2)) as [Hlo _].
    nra. }
  lia.
Qed.

Lemma toFixed_small (x : R) :
  0 <= x -> x < 10 ^ 21 -> Num.toFixed digits x = Rounding.half_up digits x.
Proof.
  intros Hx Hb. unfold Num.toFixed. rewrite (Rabs_pos_eq x Hx).
  destruct (Rle_dec (10 ^ 21) x); [lra|].
  destruct (Rlt_dec x 0); [lra|]. unfold Rounding.half_up, Rdiv. ring.
Qed.

Lemma toFixed_small_neg (x : R) :
  x < 0 -> - 10 ^ 21 < x -> Num.toFixed digits x = - Rounding.half_up digits (- x).
Proof.
  intros Hx Hb. unfold Num.toFixed. rewrite (Rabs_left x Hx).
  destruct (Rle_dec (10 ^ 21) (- x)); [lra|].
  destruct (Rlt_dec x 0); [|lra]. unfold Rounding.half_up, Rdiv. ring.
Qed.

Lemma toFixed_big (x : R) :
  10 ^ 21 <= Rabs x -> Num.toFixed digits x = x.
Proof.
  intros Hb. unfold Num.toFixed. now destruct (Rle_dec (10 ^ 21) (Rabs x)).
Qed.

(** The four cases of [toFixed]. *)
Lemma toFixed_cases (x : R) :
  (x <= - 10 ^ 21 /\ Num.toFixed digits x = x)
  \/ (- 10 ^ 21 < x < 0 /\ Num.toFixed digits x = - Rounding.half_up digits (- x))
  \/ (0 <= x < 10 ^ 21 /\ Num.toFixed digits x = Rounding.half_up digits x)
  \/ (10 ^ 21 <= x /\ Num.toFixed digits x = x).
Proof.
  assert (Hbig : 0 < 10 ^ 21) by (apply pow_lt; lra).
  destruct (Rle_dec x (- 10 ^ 21)) as [Hlow|Hlow].
  { left. split; [exact Hlow|]. apply toFixed_big. rewrite Rabs_left; lra. }
  destruct (Rlt_dec x 0) as [Hneg|Hneg].
  { right. left. split; [lra|]. apply toFixed_small_neg; lra. }
  destruct (Rlt_dec x (10 ^ 21)) as [Hsmall|Hsmall].
  { right. right. left. split; [lra|]. apply toFixed_small; lra. }
  right. right. right. split; [lra|]. apply toFixed_big.
  rewrite Rabs_pos_eq; lra.
Qed.

(** Rounding keeps the order. *)
Lemma toFixed_mono (x y : R) :
  x <= y -> Num.toFixed digits x <= Num.toFixed digits y.
Proof.
  intros Hxy.
  assert (Hbig : 0 < 10 ^ 21) by (apply pow_lt; lra).
  destruct (toFixed_cases x) as [[Hx ->]|[[Hx ->]|[[Hx ->]|[Hx ->]]]];
  destruct (toFixed_cases y) as [[Hy ->]|[[Hy ->]|[[Hy ->]|[Hy ->]]]];
    try lra.
  - pose proof (rnd_below (- y)). lra.
  - pose proof (rnd_nonneg y). lra.
  - pose proof (rnd_mono (- y) (- x)). lra.
  - pose proof (rnd_nonneg (- x)). pose proof (rnd_nonneg y). lra.
  - pose proof (rnd_nonneg (- x)). lra.
  - pose proof (rnd_mono x y). lra.
  - pose proof (rnd_below x). lra.
Qed.

(** Rounding is symmetric about zero. *)
Lemma toFixed_opp (x : R) : Num.toFixed digits (- x) = - Num.toFixed digits x.
Proof.
  assert (Hbig : 0 < 10 ^ 21) by (apply pow_lt; lra).
  destruct (Req_dec x 0) as [->|Hne].
  { rewrite Ropp_0, StatsFacts.toFixed_0. lra. }
  destruct (toFixed_cases x) as [[Hx ->]|[[Hx ->]|[[Hx ->]|[Hx ->]]]].
  - apply toFixed_big. rewrite Rabs_pos_eq; lra.
  - rewrite toFixed_small by lra. lra.
  - rewrite toFixed_small_neg by lra. now rewrite Ropp_involutive.
  - apply toFixed_big. rewrite Rabs_left; lra.
Qed.

(** Rounding moves a number by half a unit of the last digit at most. *)
Lemma toFixed_near (x : R) :
  Rabs (Num.toFixed digits x - x) <= / 2 / 10 ^ digits.
Proof.
  pose proof scale_pos as Hs.
  assert (Hhalf : 0 <= / 2 / 10 ^ digits).
  { apply Rmult_le_pos; [lra|]. left. now apply Rinv_0_lt_compat. }
  destruct (toFixed_cases x) as [[Hx ->]|[[Hx ->]|[[Hx ->]|[Hx ->]]]].
  - replace (x - x) with 0 by ring. now rewrite Rabs_R0.
  - replace (- Rounding.half_up digits (- x) - x) with (- (Rounding.half_up digits (- x) - - x)) by ring.
    rewrite Rabs_Ropp. apply rnd_near.
  - apply rnd_near.
  - replace (x - x) with 0 by ring. now rewrite Rabs_R0.
Qed.

End Digits.

End RoundingFacts.

(* --------------------------------------------------------------------- *)
(** ** Prices and summaries                                                *)
(* --------------------------------------------------------------------- *)
Module MetricsFacts.
Import JS Runner.

(** *** Prefixes *)

Lemma startsWith_refl (s : string) : startsWith s s = true.
Proof.
  induction s as [|c s IH]; [reflexivity|].
  cbn. now rewrite Ascii.eqb_refl.
Qed.

Lemma startsWith_trans (s p q : string) :
  startsWith s p = true -> startsWith p q = true -> startsWith s q = true.
Proof.
  revert s p. induction q as [|c q IH]; intros s p Hsp Hpq; [now destruct s|].
  destruct p as [|d p]; [discriminate|].
  destruct s as [|e s]; [discriminate|].
  cbn in *.
  destruct (Ascii.eqb_spec c d) as [->|]; [|discriminate].
  destruct (Ascii.eqb_spec d e) as [->|]; [|discriminate].
  now apply IH with p.
Qed.

(** Two prefixes of one string: one is a prefix of the other. *)
Lemma prefixes_comparable (s p q : string) :
  startsWith s p = true -> startsWith s q = true ->
  startsWith p q = true \/ startsWith q p = true.
Proof.
  revert p q. induction s as [|e s IH]; intros p q Hp Hq.
  - destruct p; [|discriminate]. right. now destruct q.
  - destruct p as [|c p]; [right; now destruct q|].
    destruct q as [|d q]; [now left|].
    cbn in *.
    destruct (Ascii.eqb_spec c e) as [->|]; [|discriminate].
    destruct (Ascii.eqb_spec d e) as [->|]; [|discriminate].
    rewrite Ascii.eqb_refl. now apply IH.
Qed.

(** The answer [H] of [startsWith] for one more key is in conflict with
    an answer for another key: a string that starts with a key starts
    with the prefixes of the key, and with no key that differs from it
    somewhere. *)
Ltac conflict_with H :=
  lazymatch type of H with
  | startsWith ?m ?p = true =>
      match goal with
      | Hq : startsWith m ?q = false |- _ =>
          let b := eval vm_compute in (startsWith p q) in
          lazymatch b with
          | true =>
              exfalso; pose proof (startsWith_trans m p q H eq_refl);
              congruence
          end
      | Hq : startsWith m ?q = true |- _ =>
          let b := eval vm_compute in (startsWith p q || startsWith q p)%bool in
          lazymatch b with
          | false =>
              let Hc := fresh in
              exfalso; destruct (prefixes_comparable m p q H Hq) as [Hc|Hc];
              vm_compute in Hc; discriminate
          end
      end
  | startsWith ?m ?p = false =>
      match goal with
      | Hq : startsWith m ?q = true |- _ =>
          let b := eval vm_compute in (startsWith q p) in
          lazymatch b with
          | true =>
              exfalso; pose proof (startsWith_trans m q p Hq eq_refl);
              congruence
          end
      end
  end.

Ltac split_on model key :=
  let H := fresh "Hkey" in
  destruct (startsWith model key) eqn:H; try conflict_with H.

(** One step of the loop that looks for the longest key: the answer of
    [startsWith] for the next key of the table. *)
Ltac next_key model key :=
  match goal with
  | |- context [fold_left ?f (?entry :: ?rest) ?best] =>
      change (fold_left f (entry :: rest) best)
        with (fold_left f rest (f best entry))
  end;
  cbv beta; cbn [fst snd];
  split_on model key;
  cbn [fst snd String.length Nat.ltb Nat.leb].

Ltac by_prefixes model :=
  next_key model "gpt-4"; next_key model "gpt-4-0613";
  next_key model "gpt-4-32k"; next_key model "gpt-4o";
  next_key model "gpt-4o-mini"; next_key model "gpt-3.5-turbo";
  next_key model "gpt-3.5-turbo-0125".

Ltac by_more_prefixes model :=
  by_prefixes model;
  next_key model "gpt-3.5-turbo-1106";
  next_key model "gpt-3.5-turbo-instruct".

(** X12. For a model whose name is not a property of [Object.prototype],
    both copies of [getModelPricing] price the model by the longest key of
    their table that the name of the model starts with, and by the price
    of gpt-4 when the name starts with no key. *)
Theorem getModelPricing_longest_prefix (model : string) :
  JS.inherited model = false ->
  Runner.getModelPricing model
  = Metrics.price_by_longest_prefix Runner.MODEL_PRICING model
  /\ Metrics.getModelPricing model
     = Metrics.price_by_longest_prefix Metrics.MODEL_PRICING model.
Proof.
  intros _. split.
  - unfold Runner.getModelPricing, Metrics.price_by_longest_prefix.
    destruct (List.find _ Runner.MODEL_PRICING) as [entry|] eqn:Hfind.
    + apply find_some in Hfind. destruct Hfind as [Hin Heq].
      apply String.eqb_eq in Heq. subst model. cbn in Hin.
      repeat (destruct Hin as [<-|Hin]; [reflexivity|]). destruct Hin.
    + clear Hfind. unfold Metrics.longest_prefix, Runner.MODEL_PRICING.
      by_prefixes model; reflexivity.
  - unfold Metrics.getModelPricing, Metrics.price_by_longest_prefix.
    destruct (List.find _ Metrics.MODEL_PRICING) as [entry|] eqn:Hfind.
    + apply find_some in Hfind. destruct Hfind as [Hin Heq].
      apply String.eqb_eq in Heq. subst model. cbn in Hin.
      repeat (destruct Hin as [<-|Hin]; [reflexivity|]). destruct Hin.
    + clear Hfind. unfold Metrics.longest_prefix, Metrics.MODEL_PRICING.
      by_more_prefixes model; reflexivity.
Qed.

(** X12 at a dated variant of gpt-4o-mini and at a name that starts with
    no key. *)
Lemma getModelPricing_longest_prefix_example :
  JS.inherited "gpt-4o-mini-2024-07-18" = false
  /\ Runner.getModelPricing "gpt-4o-mini-2024-07-18"
     = Metrics.price_by_longest_prefix Runner.MODEL_PRICING
         "gpt-4o-mini-2024-07-18"
  /\ JS.inherited "claude-3" = false
  /\ Metrics.getModelPricing "claude-3"
     = Metrics.price_by_longest_prefix Metrics.MODEL_PRICING "claude-3".
Proof.
  split; [reflexivity|].
  split;
    [exact (proj1 (getModelPricing_longest_prefix "gpt-4o-mini-2024-07-18"
                     eq_refl))|].
  split; [reflexivity|].
  exact (proj2 (getModelPricing_longest_prefix "claude-3" eq_refl)).
Defined.

(** The keys of the collector's table that the runner's table lacks. *)
Lemma runner_has_no_exact (model : string) :
  List.find (fun entry => String.eqb entry.1 model) Metrics.MODEL_PRICING = None ->
  List.find (fun entry => String.eqb entry.1 model) Runner.MODEL_PRICING = None.
Proof.
  intros Hnone.
  destruct (List.find _ Runner.MODEL_PRICING) as [entry|] eqn:Hfind;
    [|reflexivity].
  apply find_some in Hfind. destruct Hfind as [Hin Heq].
  apply String.eqb_eq in Heq. subst model. cbn in Hin.
  repeat (destruct Hin as [<-|Hin]; [discriminate Hnone|]). destruct Hin.
Qed.

(** X13. The two copies of the price table disagree on one family of
    models and on nothing else: a model whose name starts with
    [gpt-3.5-turbo-1106] costs 0.0015 per 1K input tokens in the runner and
    0.001 in the collector, and every other model has the same price in
    both; the two copies of the summary are the same function. *)
Theorem runner_and_collector_prices (model : string) :
  (startsWith model "gpt-3.5-turbo-1106" = false ->
   Metrics.getModelPricing model = Runner.getModelPricing model)
  /\ (startsWith model "gpt-3.5-turbo-1106" = true ->
      Runner.getModelPricing model = {| input := 0.0015; output := 0.002 |}
      /\ Metrics.getModelPricing model = {| input := 0.001; output := 0.002 |}
      /\ Metrics.getModelPricing model <> Runner.getModelPricing model)
  /\ forall results, Metrics.collectSummary results = calculateSummary results.
Proof.
  assert (Hprices :
    if startsWith model "gpt-3.5-turbo-1106"
    then Runner.getModelPricing model = {| input := 0.0015; output := 0.002 |}
         /\ Metrics.getModelPricing model = {| input := 0.001; output := 0.002 |}
    else Metrics.getModelPricing model = Runner.getModelPricing model).
  { unfold Metrics.getModelPricing, Runner.getModelPricing.
    destruct (List.find _ Metrics.MODEL_PRICING) as [entry|] eqn:Hfind.
    - apply find_some in Hfind. destruct Hfind as [Hin Heq].
      apply String.eqb_eq in Heq. subst model. cbn in Hin.
      repeat (destruct Hin as [<-|Hin]; [cbn; auto|]). destruct Hin.
    - rewrite (runner_has_no_exact model Hfind). clear Hfind.
      split_on model "gpt-4"; split_on model "gpt-3.5-turbo";
      split_on model "gpt-4o"; split_on model "gpt-4o-mini";
      split_on model "gpt-4-32k";
      split_on model "gpt-3.5-turbo-0125";
      split_on model "gpt-3.5-turbo-1106";
      split_on model "gpt-3.5-turbo-instruct"; cbn; auto. }
  split; [|split].
  - intros Hother. now rewrite Hother in Hprices.
  - intros Hfamily. rewrite Hfamily in Hprices. destruct Hprices as [Hr Hc].
    split; [exact Hr|]. split; [exact Hc|].
    rewrite Hr, Hc. intros [= Hinput]. lra.
  - intros results. reflexivity.
Qed.

(** *** Summaries *)

Local Open Scope R_scope.

Lemma fold_sum_between (values : list R) (lo hi acc : R) :
  Forall (fun v => lo <= v <= hi) values ->
  acc + INR (length values) * lo <= fold_left Rplus values acc
  <= acc + INR (length values) * hi.
Proof.
  intros Hall. revert acc.
  induction Hall as [|v values Hv _ IH]; intros acc.
  - cbn. lra.
  - cbn [fold_left]. specialize (IH (acc + v)).
    change (length (v :: values)) with (S (length values)).
    rewrite S_INR. lra.
Qed.

(** The average of values between two bounds is between the bounds. *)
Lemma average_between (values : list R) (lo hi : R) :
  values <> [] ->
  Forall (fun v => lo <= v <= hi) values ->
  lo <= average values <= hi.
Proof.
  intros Hne Hall. unfold average.
  destruct (Nat.eqb_spec (length values) 0) as [Hzero|_].
  { destruct values; [contradiction | discriminate]. }
  pose proof (StatsFacts.length_pos values Hne) as Hn.
  pose proof (fold_sum_between values lo hi 0 Hall) as [Hlo Hhi].
  unfold Num.sum. split.
  - apply Rmult_le_reg_r with (INR (length values)); [exact Hn|].
    unfold Rdiv. rewrite Rmult_assoc, Rinv_l by lra. lra.
  - apply Rmult_le_reg_r with (INR (length values)); [exact Hn|].
    unfold Rdiv. rewrite Rmult_assoc, Rinv_l by lra. lra.
Qed.

(** X14. The summary of a run counts every result and every success; the
    success rate is between 0 and 1; without a success every average and
    the rate are 0; with one, the average latency is between the smallest
    and the largest latency of the successful results, rounded to two
    decimals: failed results take no part in the averages. *)
Theorem calculateSummary_bounds (results : list TestCaseResult.t) :
  let s := calculateSummary results in
  let successful := List.filter TestCaseResult.success results in
  totalCount s = length results
  /\ successCount s = length successful
  /\ (successCount s <= totalCount s)%nat
  /\ 0 <= successRate s <= 1
  /\ (successful = [] ->
      avgLatency s = 0 /\ avgInputTokens s = 0 /\ avgOutputTokens s = 0
      /\ avgCost s = 0 /\ successRate s = 0)
  /\ (forall lo hi,
         successful <> [] ->
         (forall r, In r results -> TestCaseResult.success r = true ->
                    lo <= TestCaseResult.latency r <= hi) ->
         Num.toFixed 2 lo <= avgLatency s <= Num.toFixed 2 hi).
Proof.
  intros s successful. subst s. unfold calculateSummary. fold successful.
  assert (Hle : (length successful <= length results)%nat).
  { subst successful. apply List.filter_length_le. }
  destruct (Nat.eqb_spec (length successful) 0) as [Hzero|Hsome]; cbn.
  - split; [reflexivity|]. split; [lia|]. split; [lia|]. split; [lra|].
    split; [intros _; repeat split|].
    intros lo hi Hne. destruct successful; [contradiction | discriminate].
  - split; [reflexivity|]. split; [reflexivity|]. split; [exact Hle|].
    assert (Hne : successful <> []) by (intros Heq; now rewrite Heq in Hsome).
    assert (Htotal : (0 < length results)%nat) by lia.
    split; [|split].
    + match goal with
      | |- context [if ?test then ?q else 0] =>
          replace (if test then q else 0) with q
            by (destruct (length results); [lia | reflexivity])
      end.
      assert (Hrate : 0 <= INR (length successful) / INR (length results) <= 1).
      { assert (0 < INR (length results)) by now apply lt_0_INR.
        assert (0 <= INR (length successful)) by apply pos_INR.
        assert (INR (length successful) <= INR (length results))
          by now apply le_INR.
        split.
        - apply Rmult_le_pos; [assumption|]. left. now apply Rinv_0_lt_compat.
        - apply Rmult_le_reg_r with (INR (length results)); [assumption|].
          unfold Rdiv. rewrite Rmult_assoc, Rinv_l by lra. lra. }
      split.
      * apply Rle_trans with (Num.toFixed 2 0).
        -- rewrite StatsFacts.toFixed_0. lra.
        -- apply RoundingFacts.toFixed_mono, Hrate.
      * apply Rle_trans with (Num.toFixed 2 1).
        -- apply RoundingFacts.toFixed_mono, Hrate.
        -- rewrite StatsFacts.toFixed_1. lra.
    + intros Hnone. contradiction.
    + intros lo hi _ Hbounds.
      assert (Hbetween :
        lo <= average (List.map TestCaseResult.latency successful) <= hi).
      { apply average_between.
        - destruct successful; [contradiction | discriminate].
        - apply Forall_forall. intros v Hv.
          apply list_elem_of_In, in_map_iff in Hv.
          destruct Hv as (r & <- & Hr). subst successful.
          apply List.filter_In in Hr. destruct Hr as [Hin Hok].
          now apply Hbounds. }
      split; apply RoundingFacts.toFixed_mono; apply Hbetween.
Qed.

End MetricsFacts.

(* --------------------------------------------------------------------- *)
(** ** One case: the waits and the record of an answered call              *)
(* --------------------------------------------------------------------- *)
Module BackoffFacts.
Import JS OpenAI Runner.
Local Open Scope list_scope.
Local Open Scope R_scope.

Lemma fold_plus_shift (values : list R) (acc : R) :
  fold_left Rplus values acc = acc + fold_left Rplus values 0.
Proof.
  revert acc. induction values as [|v values IH]; intros acc; cbn.
  - lra.
  - rewrite (IH (acc + v)), (IH (0 + v)). lra.
Qed.

Lemma slept_call (request : ChatCompletionRequest)
  (answer : result ChatCompletionResponse) (events : list event) :
  Metrics.slept (Called request answer :: events) = Metrics.slept events.
Proof.
  unfold Metrics.slept, Num.sum. cbn. rewrite fold_plus_shift. lra.
Qed.

Lemma slept_timer (ms : R) (events : list event) :
  Metrics.slept (Slept ms :: events) = ms + Metrics.slept events.
Proof.
  unfold Metrics.slept, Num.sum. cbn. rewrite fold_plus_shift. lra.
Qed.

(** A log under the retry policy has a call, and the waits between its
    calls double from [2 ^ attempt] seconds on. *)
Lemma retry_log_slept (request : ChatCompletionRequest) (attempt : nat)
  (events : list event) :
  retry_log request attempt events ->
  (1 <= calls events)%nat
  /\ Metrics.slept events
     = 1000 * (2 ^ (attempt + calls events - 1) - 2 ^ attempt).
Proof.
  induction 1 as [attempt answer | attempt message rest _ [Hcalls IH]].
  - split; [cbn; lia|]. rewrite slept_call.
    replace (attempt + calls [Called request answer] - 1)%nat with attempt
      by (cbn; lia).
    unfold Metrics.slept, Num.sum. cbn. lra.
  - rewrite RetryFacts.calls_call, RetryFacts.calls_sleep.
    split; [lia|]. rewrite slept_call, slept_timer, IH.
    replace (S attempt + calls rest - 1)%nat with (attempt + calls rest)%nat
      by lia.
    replace (attempt + S (calls rest) - 1)%nat with (attempt + calls rest)%nat
      by lia.
    cbn [pow]. lra.
Qed.

Section OneCase.

Variable Env : Type.
Variable sdk_create : SdkRequest -> Env -> SdkOutcome * Env.
Variable Date_now : Env -> R.
Variable timer : R -> Env -> Env.
Variable options : TestRunnerOptions.
Variable testCase : TestCase.t.
Variable promptTemplate : string.

(** X15. With [c] calls of the provider, a case has waited
    [2 ^ (c - 1) - 1] seconds in its timers: nothing when the first call
    is answered, and [2 ^ maxRetries - 1] seconds, the most a case waits,
    when every call failed. *)
Theorem executeTestCase_total_backoff (w : World Env) :
  let res :=
    exec Env sdk_create Date_now timer
      (executeTestCase options testCase promptTemplate) w in
  exists events,
    trace Env res.2 = trace Env w ++ events
    /\ Metrics.slept events = 1000 * (2 ^ (calls events - 1) - 1)
    /\ Metrics.slept events <= 1000 * (2 ^ maxRetries options - 1)
    /\ (TestCaseResult.success res.1 = false ->
        Metrics.slept events = 1000 * (2 ^ maxRetries options - 1)).
Proof.
  intros res. subst res. rewrite RetryFacts.executeTestCase_exec.
  destruct (RetryFacts.attempts_exec Env sdk_create Date_now timer options
              testCase promptTemplate (maxRetries options) 0 None
              (Date_now (env Env w)) w eq_refl)
    as (events & Htrace & Hlog & Hcalls & Hend).
  cbv zeta in Htrace, Hend.
  destruct (retry_log_slept _ _ _ Hlog) as [_ Hslept].
  cbn [Nat.add pow] in Hslept.
  exists events. split; [exact Htrace|]. split; [rewrite Hslept; lra|].
  split.
  - rewrite Hslept.
    assert (Hpow : 2 ^ (calls events - 1) <= 2 ^ maxRetries options).
    { apply Rle_pow; [lra | lia]. }
    lra.
  - intros Hfailed.
    destruct Hend as [(pre & response & e & r & _ & _ & Hres)
                     | (pre & x & e & _ & _ & _ & Hn & _)].
    + rewrite Hres in Hfailed. discriminate.
    + rewrite Hslept, Hn.
      replace (S (maxRetries options) - 1)%nat with (maxRetries options) by lia.
      lra.
Qed.

(** X16. When the provider answers the first call, the case makes that
    one call and sets no timer, and its record is a success: the latency
    is the time that the call took, the tokens are those of the usage (0
    when the answer has no usage), the cost is computed from them, and
    the output is the content of the first choice (the empty string when
    there is no choice or no content). *)
Theorem executeTestCase_first_answer (w : World Env)
  (response : SdkResponse) (e' : Env) :
  sdk_create (sdk_request_of options testCase promptTemplate) (env Env w)
  = (SdkReturns response, e') ->
  let res :=
    exec Env sdk_create Date_now timer
      (executeTestCase options testCase promptTemplate) w in
  let inputTokens := usage_or_0 (sdk_usage response) sdk_prompt_tokens in
  let outputTokens := usage_or_0 (sdk_usage response) sdk_completion_tokens in
  env Env res.2 = e'
  /\ calls (trace Env res.2) = (calls (trace Env w) + 1)%nat
  /\ Metrics.slept (trace Env res.2) = Metrics.slept (trace Env w)
  /\ res.1
     = {| TestCaseResult.name := TestCase.name testCase;
          TestCaseResult.success := true;
          TestCaseResult.latency := Date_now e' - Date_now (env Env w);
          TestCaseResult.inputTokens := inputTokens;
          TestCaseResult.outputTokens := outputTokens;
          TestCaseResult.cost :=
            calculateCost (opt_model options) inputTokens outputTokens;
          TestCaseResult.error := None;
          TestCaseResult.output :=
            Some match sdk_choices response with
                 | choice :: _ => or_empty (sdk_content choice)
                 | [] => ""
                 end |}.
Proof.
  intros Hsdk res inputTokens outputTokens. subst res.
  rewrite RetryFacts.executeTestCase_exec, RetryFacts.attempts_unfold,
    RetryFacts.exec_call.
  unfold createChatCompletion, request_of. cbn [model messages temperature max_tokens].
  unfold sdk_request_of in Hsdk. rewrite Hsdk.
  cbn [exec succeeded env trace fst snd].
  split; [reflexivity|]. split.
  { rewrite RetryFacts.calls_app. reflexivity. }
  split.
  { unfold Metrics.slept, Num.sum. rewrite List.map_app, fold_left_app. cbn. lra. }
  unfold success_result. cbn [usage prompt_tokens completion_tokens choices].
  f_equal. f_equal. now destruct (sdk_choices response).
Qed.

End OneCase.

End BackoffFacts.

(* --------------------------------------------------------------------- *)
(** ** A run: the limit of concurrency and the progress callback           *)
(* --------------------------------------------------------------------- *)
Module ProgressFacts.
Import JS OpenAI Runner Progress.
Local Open Scope list_scope.

Section Pool.

Variable Env : Type.
Variable sdk_create : SdkRequest -> Env -> SdkOutcome * Env.
Variable Date_now : Env -> R.
Variable timer : R -> Env -> Env.
Variable options : TestRunnerOptions.
Variable promptA : string.
Variable total : nat.

(** *** The limit *)

Lemma fill_idle (slots : nat) (p : pool Env) :
  queue Env p = [] -> fill options Env Date_now slots promptA p = p.
Proof.
  intros Hqueue. induction slots as [|slots IH]; [reflexivity|].
  cbn. unfold start_next at 1. now rewrite Hqueue.
Qed.

Lemma fill_busy (slots limit : nat) (p : pool Env) :
  length (active Env p) + slots = limit ->
  pool_busy Env limit (fill options Env Date_now slots promptA p).
Proof.
  revert p. induction slots as [|slots IH]; intros p Hsum.
  - cbn. split; [lia | intros _; lia].
  - destruct (queue Env p) as [|[i tc] rest] eqn:Hqueue.
    + rewrite fill_idle by exact Hqueue. unfold pool_busy.
      split; [lia|]. now rewrite Hqueue.
    + cbn [fill]. apply IH. unfold start_next. rewrite Hqueue. cbn [active].
      rewrite length_app. cbn. lia.
Qed.

Lemma step_busy (has_callback : bool) (p : pool Env) (choice limit : nat) :
  pool_busy Env limit p ->
  pool_busy Env limit
    (step options Env sdk_create Date_now timer promptA total
       has_callback p choice).
Proof.
  intros [Hlimit Hfull]. unfold pool_busy, step.
  destruct (active Env p !! (choice mod length (active Env p))) as [t|] eqn:Ht;
    [|now split].
  destruct (state t) as [r|request k|ms k].
  - unfold start_next. cbn [queue active].
    assert (Hdel : length (delete (choice mod length (active Env p))
                             (active Env p))
                   = length (active Env p) - 1).
    { apply length_delete. now exists t. }
    pose proof (lookup_lt_Some _ _ _ Ht) as Hj.
    destruct (queue Env p) as [|[i tc] rest] eqn:Hqueue; cbn [queue active].
    + split; [lia | intros Hne; now destruct Hne].
    + assert (length (active Env p) = limit) by now apply Hfull.
      rewrite length_app. cbn [length]. split; [lia | intros _; lia].
  - destruct (createChatCompletion Env sdk_create request (env Env (world Env p)))
      as [answer e'].
    cbn [queue active]. rewrite length_insert. now split.
  - cbn [queue active]. rewrite length_insert. now split.
Qed.

Lemma schedule_busy (has_callback : bool) (schedule : list nat)
  (p : pool Env) (limit : nat) :
  pool_busy Env limit p ->
  pool_busy Env limit
    (fold_left
       (step options Env sdk_create Date_now timer promptA total has_callback)
       schedule p).
Proof.
  revert p. induction schedule as [|choice rest IH]; intros p Hbusy; cbn.
  - exact Hbusy.
  - apply IH. now apply step_busy.
Qed.

(** *** The progress callback *)

Variable names : list string.

Lemma start_next_progress (p : pool Env) :
  pool_progress Env total names p ->
  pool_progress Env total names (start_next options Env Date_now promptA p).
Proof.
  intros [Hcompleted Hnumbers Htotals Hnames]. unfold start_next.
  destruct (queue Env p) as [|[i tc] rest] eqn:Hqueue; [now split|].
  split; cbn [notified completed]; try assumption.
  rewrite <- Hnames. unfold reported, in_flight, waiting.
  cbn [notified active queue]. rewrite Hqueue, fmap_app, <- app_assoc.
  reflexivity.
Qed.

Lemma step_progress (p : pool Env) (choice : nat) :
  pool_progress Env total names p ->
  pool_progress Env total names
    (step options Env sdk_create Date_now timer promptA total true p choice).
Proof.
  intros Hp. unfold step.
  destruct (active Env p !! (choice mod length (active Env p))) as [t|] eqn:Ht;
    [|exact Hp].
  destruct Hp as [Hcompleted Hnumbers Htotals Hnames].
  destruct (state t) as [r|request k|ms k].
  - apply start_next_progress. split; cbn [notified completed].
    + rewrite length_app. cbn. lia.
    + rewrite !fmap_app, Hnumbers, seq_S. reflexivity.
    + apply Forall_app. split; [exact Htotals|]. now repeat constructor.
    + rewrite <- Hnames. unfold reported, in_flight, waiting.
      cbn [notified active queue]. rewrite fmap_app, <- app_assoc.
      apply Permutation_app_head. cbn.
      pose proof (delete_Permutation (active Env p) _ t Ht) as Hperm.
      apply (fmap_Permutation (fun t => TestCase.name (testCase t))) in Hperm.
      rewrite Hperm. reflexivity.
  - destruct (createChatCompletion Env sdk_create request (env Env (world Env p)))
      as [answer e'].
    split; cbn [notified completed]; try assumption.
    rewrite <- Hnames. unfold reported, in_flight, waiting.
    cbn [notified active queue].
    rewrite list_fmap_insert. cbn [testCase].
    rewrite list_insert_id; [reflexivity|].
    now rewrite list_lookup_fmap, Ht.
  - split; cbn [notified completed]; try assumption.
    rewrite <- Hnames. unfold reported, in_flight, waiting.
    cbn [notified active queue].
    rewrite list_fmap_insert. cbn [testCase].
    rewrite list_insert_id; [reflexivity|].
    now rewrite list_lookup_fmap, Ht.
Qed.

Lemma fill_progress (slots : nat) (p : pool Env) :
  pool_progress Env total names p ->
  pool_progress Env total names (fill options Env Date_now slots promptA p).
Proof.
  revert p. induction slots as [|slots IH]; intros p Hp; cbn; [exact Hp|].
  apply IH. now apply start_next_progress.
Qed.

Lemma schedule_progress (schedule : list nat) (p : pool Env) :
  pool_progress Env total names p ->
  pool_progress Env total names
    (fold_left
       (step options Env sdk_create Date_now timer promptA total true)
       schedule p).
Proof.
  revert p. induction schedule as [|choice rest IH]; intros p Hp; cbn.
  - exact Hp.
  - apply IH. now apply step_progress.
Qed.

End Pool.

Lemma names_of_queue (cases : list TestCase.t) (f : nat -> nat) :
  (fun entry : nat * TestCase.t => TestCase.name entry.2)
    <$> imap (fun i tc => (f i, tc)) cases
  = TestCase.name <$> cases.
Proof.
  revert f. induction cases as [|tc cases IH]; intros f; [reflexivity|].
  cbn. f_equal. apply (IH (f ∘ S)).
Qed.

Section Run.

Variable Env : Type.
Variable sdk_create : SdkRequest -> Env -> SdkOutcome * Env.
Variable Date_now : Env -> R.
Variable timer : R -> Env -> Env.
Variable options : TestRunnerOptions.
Variable dataset : Dataset.
Variable promptA promptB : string.
Variable w : World Env.

(** The pool before [p-limit] starts anything, and the pool after the
    turns of a schedule. *)
Let created : pool Env :=
  {| queue := imap (fun i tc => (i, tc)) (testCases dataset);
     active := [];
     results := replicate (length (testCases dataset)) None;
     completed := 0;
     notified := [];
     world := w |}.

Let after (has_callback : bool) (schedule : list nat) : pool Env :=
  fold_left
    (step options Env sdk_create Date_now timer promptA
       (length (testCases dataset)) has_callback)
    schedule
    (fill options Env Date_now (concurrency options) promptA created).

(** How [run] stands after a schedule, by the pool that the schedule
    leaves. *)
Lemma run_last (has_callback : bool) (schedule : list nat) :
  concurrency options <> 0 ->
  run options Env sdk_create Date_now timer has_callback dataset
    promptA promptB schedule w
  = Pending Env (after has_callback schedule)
  \/ exists values,
      run options Env sdk_create Date_now timer has_callback dataset
        promptA promptB schedule w
      = Resolved Env {| vr_testCases := values;
                        summary := calculateSummary values |}
          (after has_callback schedule)
      /\ queue Env (after has_callback schedule) = []
      /\ active Env (after has_callback schedule) = [].
Proof.
  intros Hpositive. unfold run.
  destruct (Nat.eqb_spec (concurrency options) 0) as [Hzero|_]; [contradiction|].
  fold created. fold (after has_callback schedule).
  destruct (queue Env (after has_callback schedule)) eqn:Hqueue; [|now left].
  destruct (active Env (after has_callback schedule)) eqn:Hactive; [|now left].
  destruct (collect (results Env (after has_callback schedule))) as [values|];
    [|now left].
  right. now exists values.
Qed.

(** X17. Whatever the order in which the cases go on, [p-limit] keeps at
    most [concurrency] cases in flight, and exactly [concurrency] as long
    as a case is queued; a limit of 0 is rejected. *)
Theorem run_keeps_the_limit (has_callback : bool) (schedule : list nat) :
  match run options Env sdk_create Date_now timer has_callback dataset
          promptA promptB schedule w with
  | Resolved _ _ last | Pending _ last =>
      1 <= concurrency options
      /\ length (active Env last) <= concurrency options
      /\ (queue Env last <> [] ->
          length (active Env last) = concurrency options)
  | Rejected _ _ => concurrency options = 0
  end.
Proof.
  destruct (Nat.eq_dec (concurrency options) 0) as [Hzero|Hpositive].
  { unfold run. now rewrite Hzero. }
  assert (Hbusy : pool_busy Env (concurrency options)
                    (after has_callback schedule)).
  { apply schedule_busy, fill_busy. cbn. lia. }
  destruct (run_last has_callback schedule Hpositive)
    as [-> | (values & -> & _)];
    (split; [lia | exact Hbusy]).
Qed.

(** X18. The progress callback is called once for each settled case, with
    the numbers 1, 2, ... in this order and with the size of the dataset;
    when the run is resolved, it has been called for every case of the
    dataset, each under its own name. *)
Theorem run_reports_every_case (schedule : list nat) :
  let n := length (testCases dataset) in
  match run options Env sdk_create Date_now timer true dataset
          promptA promptB schedule w with
  | Resolved _ _ final =>
      (notified Env final).*1.*1 = seq 1 n
      /\ Forall (fun call => call.1.2 = n) (notified Env final)
      /\ (notified Env final).*2 ≡ₚ TestCase.name <$> testCases dataset
  | Pending _ current =>
      (notified Env current).*1.*1 = seq 1 (completed Env current)
      /\ Forall (fun call => call.1.2 = n) (notified Env current)
      /\ completed Env current <= n
  | Rejected _ _ => concurrency options = 0
  end.
Proof.
  intros n.
  destruct (Nat.eq_dec (concurrency options) 0) as [Hzero|Hpositive].
  { unfold run. now rewrite Hzero. }
  assert (Hprogress :
            pool_progress Env n (TestCase.name <$> testCases dataset)
              (after true schedule)).
  { apply schedule_progress, fill_progress. split; cbn; try reflexivity.
    - constructor.
    - unfold reported, in_flight, waiting. cbn.
      now rewrite (names_of_queue (testCases dataset) (fun i => i)). }
  destruct Hprogress as [Hcompleted Hnumbers Htotals Hnames].
  assert (Hcount : length (reported Env (after true schedule)
                           ++ in_flight Env (after true schedule)
                           ++ waiting Env (after true schedule)) = n).
  { rewrite Hnames. subst n. now rewrite length_fmap. }
  unfold reported, in_flight, waiting in Hcount, Hnames.
  rewrite !length_app, !length_fmap, Hcompleted in Hcount.
  destruct (run_last true schedule Hpositive)
    as [-> | (values & -> & Hqueue & Hactive)].
  - split; [exact Hnumbers|]. split; [exact Htotals | lia].
  - rewrite Hqueue, Hactive in Hcount, Hnames.
    cbn in Hcount, Hnames. rewrite !app_nil_r in Hnames.
    assert (Hall : completed Env (after true schedule) = n) by lia.
    rewrite <- Hall at 1. split; [exact Hnumbers|]. split; assumption.
Qed.

(** X19. A run on an empty dataset is resolved at once, whatever the
    schedule: it has no result, its summary counts nothing and holds
    zeros, the provider is not called and no timer is set. *)
Theorem run_on_empty_dataset (has_callback : bool) (schedule : list nat) :
  1 <= concurrency options ->
  testCases dataset = [] ->
  exists final,
    run options Env sdk_create Date_now timer has_callback dataset
      promptA promptB schedule w
    = Resolved Env
        {| vr_testCases := [];
           summary := {| avgLatency := 0; avgInputTokens := 0;
                         avgOutputTokens := 0; avgCost := 0;
                         successRate := 0; totalCount := 0;
                         successCount := 0 |} |} final
    /\ world Env final = w /\ notified Env final = [].
Proof.
  intros Hlimit Hempty. unfold run.
  destruct (Nat.eqb_spec (concurrency options) 0) as [Hzero|_]; [lia|].
  rewrite Hempty. cbn [length imap replicate].
  rewrite fill_idle by reflexivity.
  match goal with
  | |- context [fold_left ?f schedule ?start] =>
      assert (Hidle : fold_left f schedule start = start)
  end.
  { induction schedule as [|choice rest IH]; [reflexivity|]. cbn. exact IH. }
  rewrite Hidle. cbn. eexists. split; [reflexivity|]. now split.
Qed.

End Run.

(** X16 on the scripted provider that answers every call: ten input
    tokens are recorded. *)
Lemma executeTestCase_first_answer_example :
  RunnerScenario.provider RunnerScenario.answers
    (sdk_request_of RunnerScenario.options RunnerScenario.case1 "{{query}}")
    (env _ RunnerScenario.midnight)
  = (SdkReturns RunnerScenario.answer_OK,
     {| RunnerScenario.clock := 0 + 50; RunnerScenario.calls_made := 1 |})
  /\ TestCaseResult.inputTokens
       (exec _ (RunnerScenario.provider RunnerScenario.answers)
          RunnerScenario.Date_now RunnerScenario.timer
          (executeTestCase RunnerScenario.options RunnerScenario.case1
             "{{query}}")
          RunnerScenario.midnight).1
     = 10%R.
Proof.
  split; [reflexivity|].
  pose proof (BackoffFacts.executeTestCase_first_answer _
                (RunnerScenario.provider RunnerScenario.answers)
                RunnerScenario.Date_now RunnerScenario.timer
                RunnerScenario.options RunnerScenario.case1 "{{query}}"
                RunnerScenario.midnight RunnerScenario.answer_OK _ eq_refl) as H.
  cbv zeta in H. destruct H as (_ & _ & _ & ->). reflexivity.
Defined.

(** X19 on the scenario's options and no case. *)
Lemma run_on_empty_dataset_example :
  1 <= concurrency RunnerScenario.options
  /\ exists final,
      run RunnerScenario.options _
        (RunnerScenario.provider RunnerScenario.answers)
        RunnerScenario.Date_now RunnerScenario.timer true
        {| testCases := [] |} "{{query}}" "" [0; 1; 2] RunnerScenario.midnight
      = Resolved _
          {| vr_testCases := [];
             summary := {| avgLatency := 0; avgInputTokens := 0;
                           avgOutputTokens := 0; avgCost := 0;
                           successRate := 0; totalCount := 0;
                           successCount := 0 |} |} final
      /\ world _ final = RunnerScenario.midnight /\ notified _ final = [].
Proof.
  assert (Hlimit : 1 <= concurrency RunnerScenario.options) by (cbn; lia).
  split; [exact Hlimit|].
  exact (run_on_empty_dataset _
           (RunnerScenario.provider RunnerScenario.answers)
           RunnerScenario.Date_now RunnerScenario.timer RunnerScenario.options
           {| testCases := [] |} "{{query}}" "" RunnerScenario.midnight
           true [0; 1; 2] Hlimit eq_refl).
Defined.

End ProgressFacts.

(* --------------------------------------------------------------------- *)
(** ** The t test: critical values, the interval, and the two samples
       exchanged                                                           *)
(* --------------------------------------------------------------------- *)
Module IntervalFacts.
Import JS Stats.
Local Open Scope R_scope.

(** *** The critical values *)

Lemma criticalValue_at_table (k : Z) :
  (1 <= k <= 30)%Z ->
  exists v, criticalValue_at k = Some v /\ 2.042 <= v <= 12.706.
Proof.
  intros Hk. destruct k as [|p|p]; try lia.
  do 5 (try (destruct p as [p|p|]; try lia));
    unfold criticalValue_at, criticalValues;
    cbn [List.find fst snd Z.eqb Pos.eqb];
    (eexists; split; [reflexivity | lra]).
Qed.

Lemma criticalValue_at_outside (k : Z) :
  (k < 1 \/ 30 < k)%Z -> criticalValue_at k = None.
Proof.
  intros Hk. unfold criticalValue_at, criticalValues. cbn [List.find fst].
  repeat match goal with
         | |- context [Z.eqb ?a k] => destruct (Z.eqb_spec a k); [lia|]
         end.
  reflexivity.
Qed.

(** Outside the table [getTCriticalValue] is 1.96; from 1 to 30 degrees it
    is a value of the table or lies between two of them. *)
Lemma getTCriticalValue_cases (df : R) :
  (getTCriticalValue df = 1.96 /\ (1 <= df <= 30 -> False))
  \/ (2.042 <= getTCriticalValue df <= 12.706 /\ 1 <= df <= 30).
Proof.
  pose proof (Zfloor_bound df) as [Hlo Hhi].
  pose proof (Zceil_bound df) as [Hclo Hchi].
  unfold getTCriticalValue.
  destruct (Rlt_dec 100 df) as [Hlarge|Hsmall]; [left; split; [reflexivity | lra]|].
  unfold in_criticalValues.
  destruct (Req_dec_T (IZR (Zfloor df)) df) as [Hint|Hfrac].
  - (* a whole number *)
    destruct (Z_le_dec 1 (Zfloor df)) as [H1|H1];
      [destruct (Z_le_dec (Zfloor df) 30) as [H30|H30]|].
    + destruct (criticalValue_at_table (Zfloor df)) as (v & -> & Hv); [lia|].
      right. split; [exact Hv|].
      rewrite <- Hint. split; apply IZR_le; lia.
    + rewrite criticalValue_at_outside by lia.
      assert (Hup : (30 < Zceil df)%Z).
      { apply lt_IZR. apply Rlt_le_trans with df; [|lra].
        rewrite <- Hint. apply IZR_lt. lia. }
      destruct (Z.leb_spec (Zceil df) 30) as [Hle|_]; [lia|].
      rewrite andb_false_r. left. split; [reflexivity|].
      intros [_ Hd]. rewrite <- Hint in Hd. apply le_IZR in Hd. lia.
    + rewrite criticalValue_at_outside by lia.
      destruct (Z.leb_spec 1 (Zfloor df)) as [Hle|_]; [lia|].
      left. split; [reflexivity|].
      intros [Hd _]. rewrite <- Hint in Hd. apply le_IZR in Hd. lia.
  - (* between two whole numbers *)
    destruct (Z.leb_spec 1 (Zfloor df)) as [H1|H1];
      [destruct (Z.leb_spec (Zceil df) 30) as [H30|H30]|]; cbn [andb].
    + assert (Hle : (Zfloor df <= Zceil df)%Z).
      { apply le_IZR. lra. }
      destruct (criticalValue_at_table (Zfloor df)) as (t1 & -> & Ht1); [lia|].
      destruct (criticalValue_at_table (Zceil df)) as (t2 & -> & Ht2); [lia|].
      right. split.
      * assert (0 <= df - IZR (Zfloor df) <= 1) by lra. nra.
      * split.
        -- apply Rle_trans with (IZR (Zfloor df)); [now apply IZR_le | lra].
        -- apply Rle_trans with (IZR (Zceil df)); [lra | now apply IZR_le].
    + left. split; [reflexivity|]. intros [_ Hd].
      pose proof (Zceil_le df 30 Hd) as Hc.
      rewrite (Zceil_eq 30 30) in Hc by lra. lia.
    + left. split; [reflexivity|]. intros [Hd _].
      assert (1 <= Zfloor df)%Z; [|lia].
      apply Zfloor_lub. exact Hd.
Qed.

(** X20. The critical value of the t distribution that [tTest] uses is
    between 1.96 and 12.706 for every number of degrees of freedom; it is
    1.96 below 1 and above 30 degrees, and at least 2.042 from 1 to 30
    degrees, where it is a value of the table or lies between the two
    values of the table next to it. *)
Theorem getTCriticalValue_bounds (df : R) :
  1.96 <= getTCriticalValue df <= 12.706
  /\ (df < 1 \/ 30 < df -> getTCriticalValue df = 1.96)
  /\ (1 <= df <= 30 -> 2.042 <= getTCriticalValue df).
Proof.
  destruct (getTCriticalValue_cases df) as [[Heq Hout] | [Hin Hrange]].
  - rewrite Heq. split; [lra|]. split; [reflexivity|].
    intros H. now apply Hout in H.
  - split; [lra|]. split; [intros [H|H]; lra | intros _; lra].
Qed.

(** *** The steps of [tTest] in closed form *)

(** For two samples that are not empty, the local values of [tTest] are
    those of [steps_from] for the means, the deviations, the sizes and
    the degrees of freedom of the samples. *)
Lemma tTest_steps_closed (sampleA sampleB : list R) :
  sampleA <> [] -> sampleB <> [] ->
  exists sdA sdB df,
    TTest.deviation_of sampleA = Ok sdA
    /\ TTest.deviation_of sampleB = Ok sdB
    /\ 0 <= sdA /\ 0 <= sdB
    /\ welch_degreesOfFreedom sdA sdB (INR (length sampleA))
         (INR (length sampleB)) = Ok df
    /\ tTest_steps sampleA sampleB
       = let! pValue :=
           calculatePValue
             (Rabs (tStatistic
                      (steps_from
                         (Num.sum sampleA / INR (length sampleA))
                         (Num.sum sampleB / INR (length sampleB))
                         sdA sdB (INR (length sampleA)) (INR (length sampleB))
                         df 0))) df in
         Ok (steps_from
               (Num.sum sampleA / INR (length sampleA))
               (Num.sum sampleB / INR (length sampleB))
               sdA sdB (INR (length sampleA)) (INR (length sampleB))
               df pValue).
Proof.
  intros HA HB.
  destruct (StatsFacts.stdDev_ok sampleA HA) as (sdA & HsdA & HposA & HoneA).
  destruct (StatsFacts.stdDev_ok sampleB HB) as (sdB & HsdB & HposB & HoneB).
  pose proof (StatsFacts.length_pos sampleA HA) as HnA.
  pose proof (StatsFacts.length_pos sampleB HB) as HnB.
  destruct (StatsFacts.welch_ok sdA sdB (INR (length sampleA))
              (INR (length sampleB)) HnA HnB) as [df Hdf].
  { intros Hsd Hone. assert (length sampleA = 1%nat) by now apply INR_eq.
    rewrite HoneA in Hsd; [lra | lia]. }
  { intros Hsd Hone. assert (length sampleB = 1%nat) by now apply INR_eq.
    rewrite HoneB in Hsd; [lra | lia]. }
  exists sdA, sdB, df. unfold TTest.deviation_of.
  repeat (split; [assumption|]).
  unfold tTest_steps.
  rewrite (StatsFacts.ss_mean_ok _ HA), (StatsFacts.ss_mean_ok _ HB).
  cbn [bind]. rewrite HsdA, HsdB. cbn [bind].
  rewrite !StatsFacts.Math_sqrt_ok by lra. cbn [bind].
  assert (HrootA : sqrt (INR (length sampleA)) <> 0).
  { apply Rgt_not_eq. now apply sqrt_lt_R0. }
  assert (HrootB : sqrt (INR (length sampleB)) <> 0).
  { apply Rgt_not_eq. now apply sqrt_lt_R0. }
  rewrite !StatsFacts.divide_ok by assumption. cbn [bind].
  rewrite StatsFacts.Math_sqrt_ok.
  2:{ apply Rplus_le_le_0_compat; apply Rle_0_sqr. }
  cbn [bind].
  match goal with
  | |- context [Rlt_dec 0 ?se] =>
      destruct (Rlt_dec 0 se) as [Hse|Hse] eqn:Hdec
  end.
  - rewrite StatsFacts.divide_ok by lra. cbn [bind]. rewrite Hdf. cbn [bind].
    unfold steps_from. cbn [tStatistic]. rewrite Hdec. reflexivity.
  - cbn [bind]. rewrite Hdf. cbn [bind].
    unfold steps_from. cbn [tStatistic]. rewrite Hdec. reflexivity.
Qed.

(** [tTest] returns a record only for two samples that are not empty. *)
Lemma tTest_Ok_nonempty (sampleA sampleB : list R) (r : TTestResult) :
  tTest sampleA sampleB = Ok r -> sampleA <> [] /\ sampleB <> [].
Proof.
  intros Hr. split; intros ->.
  - discriminate Hr.
  - unfold tTest, tTest_steps in Hr.
    destruct sampleA as [|a sampleA]; [discriminate Hr|].
    rewrite StatsFacts.ss_mean_ok in Hr by discriminate. discriminate Hr.
Qed.

(** X21. The record that [tTest] returns is consistent: the difference
    that it reports lies in the confidence interval that it reports, the
    difference is the difference of the two reported means up to the
    rounding of the three numbers (0.00015 at most), and the sizes are the
    lengths of the samples. *)
Theorem tTest_interval_holds_difference
  (sampleA sampleB : list R) (r : TTestResult) :
  tTest sampleA sampleB = Ok r ->
  (confidenceInterval r).1 <= difference r <= (confidenceInterval r).2
  /\ Rabs (difference r - (meanB r - meanA r)) <= 0.00015
  /\ sampleSizeA r = length sampleA /\ sampleSizeB r = length sampleB.
Proof.
  intros Hr.
  destruct (tTest_Ok_nonempty _ _ _ Hr) as [HA HB].
  destruct (tTest_steps_closed sampleA sampleB HA HB)
    as (sdA & sdB & df & _ & _ & _ & _ & _ & Hsteps).
  unfold tTest in Hr. rewrite Hsteps in Hr.
  destruct (calculatePValue _ df) as [p| |]; try discriminate Hr.
  cbn [bind] in Hr. injection Hr as <-.
  unfold tTest_result, steps_from.
  cbn [confidenceInterval difference meanA meanB sampleSizeA sampleSizeB
       step_difference marginOfError step_meanA step_meanB fst snd].
  set (mA := Num.sum sampleA / INR (length sampleA)).
  set (mB := Num.sum sampleB / INR (length sampleB)).
  match goal with
  | |- context [getTCriticalValue df * ?se] =>
      assert (Hmargin : 0 <= getTCriticalValue df * se)
  end.
  { apply Rmult_le_pos; [|apply sqrt_pos].
    destruct (getTCriticalValue_cases df) as [[-> _] | [[Hlow _] _]]; lra. }
  split; [|split; [|split; reflexivity]].
  - split; apply RoundingFacts.toFixed_mono; lra.
  - pose proof (RoundingFacts.toFixed_near 4 (mB - mA)) as Hd.
    pose proof (RoundingFacts.toFixed_near 4 mA) as Ha.
    pose proof (RoundingFacts.toFixed_near 4 mB) as Hb.
    replace (/ 2 / 10 ^ 4) with 0.00005 in * by lra.
    apply RoundingFacts.Rabs_le_inv in Hd, Ha, Hb. apply Rabs_le. lra.
Qed.

(** *** The two samples exchanged *)

Lemma welch_exchanged (sdA sdB nA nB : R) :
  welch_degreesOfFreedom sdB sdA nB nA = welch_degreesOfFreedom sdA sdB nA nB.
Proof.
  unfold welch_degreesOfFreedom.
  rewrite (Rplus_comm nB nA).
  destruct (Rlt_dec 0 sdA), (Rlt_dec 0 sdB); try reflexivity.
  unfold divide.
  destruct (Req_dec_T nA 0), (Req_dec_T nB 0); cbn [bind]; try reflexivity.
  rewrite (Rplus_comm (sdB * sdB / nB) (sdA * sdA / nA)).
  destruct (Math_pow (sdA * sdA / nA + sdB * sdB / nB) 2) as [num| |];
    cbn [bind]; try reflexivity.
  destruct (Req_dec_T (nA * nA * (nA - 1)) 0),
    (Req_dec_T (nB * nB * (nB - 1)) 0); cbn [bind]; try reflexivity.
  rewrite (Rplus_comm (sdB * sdB * (sdB * sdB) / (nB * nB * (nB - 1)))).
  reflexivity.
Qed.

Lemma steps_exchanged (mA mB sdA sdB nA nB df p : R) :
  standardError (steps_from mB mA sdB sdA nB nA df p)
  = standardError (steps_from mA mB sdA sdB nA nB df p)
  /\ tStatistic (steps_from mB mA sdB sdA nB nA df p)
     = - tStatistic (steps_from mA mB sdA sdB nA nB df p).
Proof.
  unfold steps_from. cbn [standardError tStatistic].
  rewrite (Rplus_comm (sdB / sqrt nB * (sdB / sqrt nB))).
  split; [reflexivity|].
  destruct (Rlt_dec 0 _); [|lra].
  unfold Rdiv. ring.
Qed.

(** X22. Exchanging the two samples mirrors the result of [tTest]: the
    means and the sizes change places, the difference and the confidence
    interval change sign, and the p-value and the verdict are the same.
    So does exchanging the two versions for each of the three records of
    [compareVersions]. *)
Theorem tTest_exchanged :
  (forall (sampleA sampleB : list R) (r : TTestResult),
      tTest sampleA sampleB = Ok r ->
      tTest sampleB sampleA = Ok (TTest.mirrored r))
  /\ (forall (resultA resultB : Runner.VersionResult)
        (c : StatisticalComparison),
         compareVersions resultA resultB = Ok c ->
         compareVersions resultB resultA
         = Ok {| latency := TTest.mirrored (latency c);
                 cost := TTest.mirrored (cost c);
                 tokens := TTest.mirrored (tokens c) |}).
Proof.
  assert (Hsamples : forall (sampleA sampleB : list R) (r : TTestResult),
             tTest sampleA sampleB = Ok r ->
             tTest sampleB sampleA = Ok (TTest.mirrored r)).
  { intros sampleA sampleB r Hr.
    destruct (tTest_Ok_nonempty _ _ _ Hr) as [HA HB].
    destruct (tTest_steps_closed sampleA sampleB HA HB)
      as (sdA & sdB & df & HdA & HdB & _ & _ & Hdf & Hsteps).
    destruct (tTest_steps_closed sampleB sampleA HB HA)
      as (sdB' & sdA' & df' & HdB' & HdA' & _ & _ & Hdf' & Hsteps').
    assert (sdA' = sdA) as -> by congruence.
    assert (sdB' = sdB) as -> by congruence.
    rewrite welch_exchanged in Hdf'. assert (df' = df) as -> by congruence.
    unfold tTest in *. rewrite Hsteps in Hr. rewrite Hsteps'.
    clear Hsteps Hsteps'.
    set (mA := Num.sum sampleA / INR (length sampleA)) in *.
    set (mB := Num.sum sampleB / INR (length sampleB)) in *.
    set (nA := INR (length sampleA)) in *.
    set (nB := INR (length sampleB)) in *.
    destruct (steps_exchanged mA mB sdA sdB nA nB df 0) as [_ Ht].
    rewrite Ht, Rabs_Ropp.
    destruct (calculatePValue _ df) as [p| |]; try discriminate Hr.
    cbn [bind] in *. injection Hr as <-. f_equal.
    destruct (steps_exchanged mA mB sdA sdB nA nB df p) as [Hse _].
    unfold TTest.mirrored, tTest_result.
    cbn [meanA meanB difference pValue significant confidenceInterval
         sampleSizeA sampleSizeB fst snd].
    unfold steps_from in *.
    cbn [step_meanA step_meanB step_difference step_pValue marginOfError
         standardError] in *.
    rewrite Hse, <- !RoundingFacts.toFixed_opp.
    f_equal; f_equal; f_equal; ring. }
  split; [exact Hsamples|].
  intros resultA resultB c. unfold compareVersions. cbv zeta. intros Hc.
  repeat match type of Hc with
         | context [bind (tTest ?a ?b)] =>
             let H := fresh "Htest" in
             destruct (tTest a b) as [?| |] eqn:H; try discriminate Hc;
             rewrite (Hsamples _ _ _ H); cbn [bind] in Hc |- *
         end.
  now injection Hc as <-.
Qed.

(** Two samples of one value each: [tTest] returns a record. *)
Lemma tTest_single_values (a b : R) : exists r, tTest [a] [b] = Ok r.
Proof.
  destruct (tTest_steps_closed [a] [b]) as
    (sdA & sdB & df & HdA & HdB & _ & _ & _ & Hsteps); [discriminate..|].
  injection HdA as <-. injection HdB as <-.
  assert (Ht : forall m1 m2 n1 n2 p,
             tStatistic (steps_from m1 m2 0 0 n1 n2 df p) = 0).
  { intros. cbn.
    replace (0 / sqrt n1 * (0 / sqrt n1) + 0 / sqrt n2 * (0 / sqrt n2))
      with 0 by (unfold Rdiv; ring).
    rewrite sqrt_0. destruct (Rlt_dec 0 0); [lra | reflexivity]. }
  rewrite Ht, StatsFacts.calculatePValue_zero in Hsteps. cbn [bind] in Hsteps.
  unfold tTest. rewrite Hsteps. cbn [bind]. now eexists.
Qed.

(** X21 on the samples [100] and [110]. *)
Lemma tTest_interval_holds_difference_example :
  exists r,
    tTest [100] [110] = Ok r
    /\ (confidenceInterval r).1 <= difference r <= (confidenceInterval r).2.
Proof.
  destruct (tTest_single_values 100 110) as [r Hr].
  exists r. split; [exact Hr|].
  exact (proj1 (tTest_interval_holds_difference [100] [110] r Hr)).
Defined.

(** X22 on the samples [100] and [110]. *)
Lemma tTest_exchanged_example :
  exists r,
    tTest [100] [110] = Ok r /\ tTest [110] [100] = Ok (TTest.mirrored r).
Proof.
  destruct (tTest_single_values 100 110) as [r Hr].
  exists r. split; [exact Hr|].
  exact (proj1 tTest_exchanged [100] [110] r Hr).
Defined.

End IntervalFacts.

(* ===================================================================== *)
(** * Facts about the dataset parser                                       *)
(* ===================================================================== *)
Module DatasetFacts.
Import JS DatasetParser.

Lemma validateTestCase_accepts (testCase : value) :
  validateTestCase testCase = Returns tt <-> is_test_case testCase.
Proof.
  split.
  - destruct testCase as [| | | | |items|properties]; try discriminate.
    unfold validateTestCase, has, get. cbn [is_null typeof_object negb orb].
    destruct (properties !! "name") as [[| | | |name| |]|] eqn:Hname;
      cbn; try discriminate;
      try (case_bool_decide; discriminate).
    destruct (properties !! "inputs") as [[| | | | | |inputs]|] eqn:Hinputs;
      cbn; try discriminate;
      repeat (case_bool_decide; cbn; try discriminate).
    intros _. now exists properties, name, inputs.
  - intros (properties & name & inputs & -> & Hname & Hinputs).
    unfold validateTestCase, has, get. rewrite Hname, Hinputs. cbn.
    repeat (case_bool_decide; cbn); try reflexivity;
      match goal with H : ~ is_Some (Some _) |- _ => now destruct H end.
Qed.

Lemma validate_each_accepts (testCases : list value) :
  validate_each testCases = Returns tt <-> Forall is_test_case testCases.
Proof.
  induction testCases as [|tc rest IH]; cbn [validate_each].
  - split; [constructor | reflexivity].
  - rewrite Forall_cons, <- IH, <- validateTestCase_accepts.
    destruct (validateTestCase tc) as [[]|message]; split.
    + now intros ->.
    + now intros [_ ->].
    + discriminate.
    + now intros [? _].
Qed.

Lemma validateDataset_is_dataset (d : value) :
  validateDataset d = Returns tt <-> is_dataset d.
Proof.
  split.
  - destruct d as [| | | | |items|properties]; try discriminate.
    unfold validateDataset, has, get. cbn [is_null typeof_object negb orb].
    destruct (properties !! "testCases") as [[| | | | |testCases|]|] eqn:Hcases;
      cbn; try discriminate.
    intros Heach. exists properties, testCases.
    split; [reflexivity|]. split; [exact Hcases|].
    now apply validate_each_accepts.
  - intros (properties & testCases & -> & Hcases & Heach).
    unfold validateDataset, has, get. rewrite Hcases. cbn.
    now apply validate_each_accepts.
Qed.

(** X23. [validateDataset] returns exactly on the objects whose
    [testCases] is an array of objects that each hold a string [name]
    and an [inputs] object that is no array; on every other value it
    throws. It looks at nothing else: the name may be empty, and the
    values inside [inputs], [expectedOutput] and further properties are
    never inspected. *)
Theorem validateDataset_accepts (dataset : value) :
  (validateDataset dataset = Returns tt <-> is_dataset dataset)
  /\ (forall properties testCases,
         dataset = Object properties ->
         properties !! "testCases" = Some (Array testCases) ->
         validateDataset dataset = Returns tt ->
         forall key v with_more,
           Forall2
             (fun tc tc' =>
                exists ps inputs' more,
                  tc = Object ps
                  /\ tc' = Object (<["inputs" := Object inputs']> (more ∪ ps))
                  /\ more !! "name" = None)
             testCases with_more ->
           validateDataset
             (Object (<["testCases" := Array with_more]>
                        (<[key := v]> properties)))
           = Returns tt).
Proof.
  pose proof validateDataset_is_dataset as Hiff.
  split; [apply Hiff|].
  intros properties testCases -> Hcases Hvalid key v with_more Hmore.
  apply Hiff in Hvalid.
  destruct Hvalid as (properties' & testCases' & [= <-] & Hcases' & Heach).
  rewrite Hcases in Hcases'. injection Hcases' as <-.
  apply Hiff. eexists _, with_more.
  split; [reflexivity|]. split; [now rewrite lookup_insert_eq|].
  clear Hcases. induction Hmore as [|tc tc' rest rest' Htc _ IH];
    [constructor|].
  apply Forall_cons in Heach as [Hwell Heach].
  constructor; [|now apply IH].
  destruct Htc as (ps & inputs' & more & -> & -> & Hnone).
  destruct Hwell as (ps' & name & inputs & [= <-] & Hname & _).
  eexists _, name, inputs'.
  split; [reflexivity|]. split.
  - rewrite lookup_insert_ne by discriminate.
    rewrite lookup_union_r by exact Hnone. exact Hname.
  - now rewrite lookup_insert_eq.
Qed.

Section WithLibraries.

Variable JSON_parse : string -> result value.
Variable parse : string -> result (list (gmap string string)).
Variable readFileSync : string -> result string.

(** With its option [columns: true] the CSV library keys every record by
    the header: the records of one result have the same columns. *)
Hypothesis parse_same_columns :
  forall content records record record' key,
    parse content = Returns records ->
    record ∈ records -> record' ∈ records ->
    is_Some (record !! key) -> is_Some (record' !! key).

(** What [row] makes of a record. *)
Lemma row_Returns (record : gmap string string) (testCase : value) :
  row JSON_parse record = Returns testCase ->
  exists properties inputs,
    testCase = Object properties
    /\ JSON_parse (String_of (record !! "inputs")) = Returns (Object inputs)
    /\ properties !! "inputs" = Some (Object inputs)
    /\ properties !! "name"
       = Some match record !! "name" with
              | Some name => Str name
              | None => Undefined
              end
    /\ properties !! "expectedOutput"
       = match record !! "expected_output" with
         | Some (String _ _ as expected) => Some (Str expected)
         | _ => None
         end.
Proof.
  unfold row.
  destruct (JSON_parse (String_of (record !! "inputs")))
    as [inputs|message]; [|discriminate].
  destruct inputs as [| | | | |items|inputs]; cbn; try discriminate.
  intros [= <-]. eexists _, inputs.
  split; [reflexivity|]. split; [reflexivity|].
  destruct (record !! "expected_output") as [[|c expected]|];
    (repeat split;
     repeat (rewrite lookup_insert_eq || (rewrite lookup_insert_ne by discriminate)
             || rewrite lookup_singleton_eq
             || (rewrite lookup_singleton_ne by discriminate));
     reflexivity).
Qed.

Lemma rows_Returns (records : list (gmap string string))
  (testCases : list value) :
  rows JSON_parse records = Returns testCases ->
  Forall2 (fun record testCase => row JSON_parse record = Returns testCase)
    records testCases.
Proof.
  revert testCases. induction records as [|record rest IH];
    intros testCases; cbn [rows].
  - intros [= <-]. constructor.
  - destruct (row JSON_parse record) as [testCase|message] eqn:Hrow;
      [|discriminate].
    destruct (rows JSON_parse rest) as [others|message]; [|discriminate].
    intros [= <-]. constructor; [exact Hrow | now apply IH].
Qed.

Lemma parseCSV_Returns (content : string) (dataset : value) :
  parseCSV JSON_parse parse content = Returns dataset ->
  exists firstRecord rest testCases,
    parse content = Returns (firstRecord :: rest)
    /\ is_Some (firstRecord !! "name")
    /\ rows JSON_parse (firstRecord :: rest) = Returns testCases
    /\ dataset = Object {["testCases" := Array testCases]}.
Proof.
  unfold parseCSV. destruct (is_empty (trim content)); [discriminate|].
  destruct (parse content) as [[|firstRecord rest]|message];
    try discriminate.
  case_bool_decide as Hname; cbn [negb orb]; [|discriminate].
  case_bool_decide; cbn [negb]; [|discriminate].
  destruct (rows JSON_parse (firstRecord :: rest)) as [testCases|message]
    eqn:Hrows; [|discriminate].
  intros [= <-]. now exists firstRecord, rest, testCases.
Qed.

(** X24. When [parseCSV] returns, the dataset has one test case per record
    of the CSV library, in the order of the records: its [inputs] is the
    object that [JSON.parse] makes of the [inputs] cell, its [name] is the
    [name] cell, and it has an [expectedOutput] only when the
    [expected_output] cell is not empty. *)
Theorem parseCSV_one_case_per_record (content : string) (dataset : value) :
  parseCSV JSON_parse parse content = Returns dataset ->
  exists records testCases,
    parse content = Returns records
    /\ dataset = Object {["testCases" := Array testCases]}
    /\ length testCases = length records
    /\ Forall2
         (fun record testCase =>
            JSON_parse (String_of (record !! "inputs"))
            = Returns (get "inputs" testCase)
            /\ typeof_object (get "inputs" testCase) = true
            /\ Array_isArray (get "inputs" testCase) = false
            /\ (forall name, record !! "name" = Some name ->
                             get "name" testCase = Str name)
            /\ get "expectedOutput" testCase
               = match record !! "expected_output" with
                 | Some (String _ _ as expected) => Str expected
                 | _ => Undefined
                 end)
         records testCases.
Proof.
  intros Hcsv.
  destruct (parseCSV_Returns _ _ Hcsv)
    as (firstRecord & rest & testCases & Hparse & _ & Hrows & ->).
  exists (firstRecord :: rest), testCases.
  split; [exact Hparse|]. split; [reflexivity|].
  apply rows_Returns in Hrows.
  split; [symmetry; exact (Forall2_length _ _ _ Hrows)|].
  eapply Forall2_impl; [exact Hrows|].
  intros record testCase Hrow. cbn beta in Hrow.
  destruct (row_Returns _ _ Hrow)
    as (properties & inputs & -> & Hjson & Hinputs & Hname & Hexpected).
  unfold get. rewrite Hinputs, Hname, Hexpected. cbn [default].
  split; [exact Hjson|]. split; [reflexivity|]. split; [reflexivity|].
  split.
  - intros name ->. reflexivity.
  - now destruct (record !! "expected_output") as [[|c expected]|].
Qed.

(** X25. Whatever [parseFile] returns, from a JSON file or from a CSV file,
    is a dataset that [validateDataset] accepts; [parseCSV] does not call
    the validation, its rows are built that way. *)
Theorem parseFile_returns_datasets (filePath : string) (dataset : value) :
  parseFile JSON_parse parse readFileSync filePath = Returns dataset ->
  validateDataset dataset = Returns tt.
Proof.
  unfold parseFile.
  destruct (readFileSync filePath) as [content|message]; [|discriminate].
  destruct (endsWith filePath ".json").
  - unfold parseJSON.
    destruct (JSON_parse content) as [parsed|message]; [|discriminate].
    destruct (validateDataset parsed) as [[]|message] eqn:Hvalid;
      [|discriminate].
    now intros [= <-].
  - destruct (endsWith filePath ".csv"); [|discriminate].
    intros Hcsv.
    destruct (parseCSV_Returns _ _ Hcsv)
      as (firstRecord & rest & testCases & Hparse & Hfirst & Hrows & ->).
    apply validateDataset_is_dataset.
    eexists _, testCases. split; [reflexivity|].
    split; [apply lookup_singleton_eq|].
    apply rows_Returns in Hrows.
    assert (Hnames : Forall (fun record => is_Some (record !! "name"))
                       (firstRecord :: rest)).
    { apply Forall_forall. intros record Hin.
      apply (parse_same_columns content (firstRecord :: rest) firstRecord
               record "name" Hparse); [left | exact Hin | exact Hfirst]. }
    revert Hnames. clear Hparse Hfirst Hcsv.
    induction Hrows as [|record testCase records others Hrow _ IH];
      intros Hnames; [constructor|].
    apply Forall_cons in Hnames as [[name Hname] Hnames].
    constructor; [|now apply IH].
    destruct (row_Returns _ _ Hrow)
      as (properties & inputs & -> & _ & Hinputs & Hn & _).
    rewrite Hname in Hn. now exists properties, name, inputs.
Qed.

End WithLibraries.

(** *** The scenario *)

Lemma scenario_same_columns :
  forall content records record record' key,
    DatasetScenario.parse content = Returns records ->
    record ∈ records -> record' ∈ records ->
    is_Some (record !! key) -> is_Some (record' !! key).
Proof.
  intros content records record record' key Hparse Hin Hin'.
  unfold DatasetScenario.parse in Hparse.
  destruct (String.eqb content DatasetScenario.csv_text); [|discriminate].
  injection Hparse as <-.
  apply list_elem_of_singleton in Hin, Hin'. now subst.
Qed.

Lemma scenario_parseCSV :
  parseCSV DatasetScenario.JSON_parse DatasetScenario.parse
    DatasetScenario.csv_text
  = Returns DatasetScenario.dataset.
Proof. vm_compute. reflexivity. Qed.

Lemma scenario_parseFile :
  parseFile DatasetScenario.JSON_parse DatasetScenario.parse
    DatasetScenario.readFileSync "dataset.csv"
  = Returns DatasetScenario.dataset.
Proof. vm_compute. reflexivity. Qed.

(** X24 on the file of the scenario. *)
Lemma parseCSV_one_case_per_record_example :
  exists records testCases,
    DatasetScenario.parse DatasetScenario.csv_text = Returns records
    /\ DatasetScenario.dataset = Object {["testCases" := Array testCases]}
    /\ length testCases = length records.
Proof.
  destruct (parseCSV_one_case_per_record DatasetScenario.JSON_parse
              DatasetScenario.parse DatasetScenario.csv_text
              DatasetScenario.dataset scenario_parseCSV)
    as (records & testCases & Hparse & Hdataset & Hlength & _).
  now exists records, testCases.
Defined.

(** X25 on the file of the scenario. *)
Lemma parseFile_returns_datasets_example :
  validateDataset DatasetScenario.dataset = Returns tt.
Proof.
  exact (parseFile_returns_datasets DatasetScenario.JSON_parse
           DatasetScenario.parse DatasetScenario.readFileSync
           scenario_same_columns "dataset.csv" DatasetScenario.dataset
           scenario_parseFile).
Defined.

End DatasetFacts.

(* ===================================================================== *)
(** * Facts about the construction of the client and the masked key        *)
(* ===================================================================== *)
Module ClientFacts.
Import JS Client.
Local Open Scope R_scope.

Lemma take_app_length (front rest : string) :
  take (String.length front) (front +:+ rest) = front.
Proof.
  induction front as [|c front IH]; [now destruct rest|].
  rewrite StringFacts.app_cons_s. cbn [String.length take]. now rewrite IH.
Qed.

Lemma drop_app_length (front rest : string) :
  drop (String.length front) (front +:+ rest) = rest.
Proof.
  induction front as [|c front IH]; [now destruct rest|].
  rewrite StringFacts.app_cons_s. cbn [String.length drop]. exact IH.
Qed.

(** X26. The client that a [TestRunner] builds: the key of the options
    when it is not empty, else the key of the environment, and the
    constructor throws when both are missing or empty. The time limit is
    60000 ms. The retries of the library cannot be switched off: a runner
    with [maxRetries = 0] builds a client with three. *)
Theorem new_TestRunner_client (env_key : option string)
  (options : Runner.TestRunnerOptions) :
  match new_TestRunner env_key options with
  | Returns client =>
      apiKey client <> ""
      /\ (Runner.apiKey options <> "" -> apiKey client = Runner.apiKey options)
      /\ (Runner.apiKey options = "" -> env_key = Some (apiKey client))
      /\ timeout client = 60000
      /\ maxRetries client
         = (if Nat.eqb (Runner.maxRetries options) 0 then 3
            else INR (Runner.maxRetries options))
      /\ maxRetries client <> 0
  | Throws message =>
      Runner.apiKey options = ""
      /\ truthy env_key = false
      /\ message = "OPENAI_API_KEY environment variable is required"
  end.
Proof.
  unfold new_TestRunner, new_OpenAIClient.
  cbn [opt_timeout opt_maxRetries or_number].
  assert (Hretries :
            (if Req_dec_T (INR (Runner.maxRetries options)) 0 then 3
             else INR (Runner.maxRetries options))
            = (if Nat.eqb (Runner.maxRetries options) 0 then 3
               else INR (Runner.maxRetries options))
            /\ (if Req_dec_T (INR (Runner.maxRetries options)) 0 then 3
                else INR (Runner.maxRetries options)) <> 0).
  { destruct (Runner.maxRetries options) as [|m] eqn:Hm.
    - cbn [INR Nat.eqb]. destruct (Req_dec_T 0 0); [split; [reflexivity | lra]
                                                   | congruence].
    - pose proof (lt_0_INR (S m) ltac:(lia)) as Hpos.
      destruct (Req_dec_T (INR (S m)) 0); [lra|].
      split; [reflexivity | lra]. }
  destruct Hretries as [Hretries Hnonzero].
  destruct (Runner.apiKey options) as [|c key] eqn:Hkey; cbn [or_else].
  - destruct env_key as [[|c key]|];
      cbn [or_else is_empty truthy apiKey timeout maxRetries];
      repeat split; congruence.
  - cbn [is_empty apiKey timeout maxRetries]. repeat split; congruence.
Qed.

(** X27. What the masked key shows. A key of at most eight characters is
    returned in full. A longer key is shown by its first six and its last
    four characters around three dots, whatever stands between them; so a
    key of nine or ten characters can still be read off its mask, and
    only the characters from the seventh to the fifth from the end of a
    longer key are hidden. *)
Theorem getMaskedKey_shows (client : OpenAIClient) :
  (String.length (apiKey client) <= 8 -> getMaskedKey client = apiKey client)%nat
  /\ (forall front middle back,
         apiKey client = front +:+ middle +:+ back ->
         String.length front = 6%nat -> String.length back = 4%nat ->
         getMaskedKey client = front +:+ "..." +:+ back)
  /\ (forall other,
         String.length (apiKey other) = String.length (apiKey client) ->
         (String.length (apiKey client) <= 10)%nat ->
         getMaskedKey other = getMaskedKey client ->
         apiKey other = apiKey client).
Proof.
  unfold getMaskedKey. split; [|split].
  - intros Hshort. apply Nat.leb_le in Hshort. now rewrite Hshort.
  - intros front middle back -> Hfront Hback.
    rewrite !StringFacts.length_app_s, Hfront, Hback.
    replace (Nat.leb (6 + (String.length middle + 4)) 8) with false
      by (symmetry; apply Nat.leb_gt; lia).
    rewrite <- Hfront at 1. rewrite take_app_length.
    replace (6 + (String.length middle + 4) - 4)%nat
      with (String.length (front +:+ middle))
      by (rewrite StringFacts.length_app_s; lia).
    rewrite <- (StringFacts.app_assoc_s front middle back), drop_app_length.
    reflexivity.
  - intros other Hlength Hten. rewrite Hlength.
    destruct (Nat.leb (String.length (apiKey client)) 8) eqn:Hshort;
      [trivial|].
    apply Nat.leb_gt in Hshort.
    destruct (apiKey client) as [|a1 [|a2 [|a3 [|a4 [|a5 [|a6 [|a7 [|a8 [|a9
      [|a10 [|a11 k]]]]]]]]]]]; cbn [String.length] in *; try lia;
      destruct (apiKey other) as [|b1 [|b2 [|b3 [|b4 [|b5 [|b6 [|b7 [|b8 [|b9
        [|b10 [|b11 k']]]]]]]]]]]; cbn [String.length] in *; try lia;
      cbv [take drop Nat.sub String.append];
      intros Hmask; injection Hmask as -> -> -> -> -> ->; intros; subst;
      reflexivity.
Qed.

End ClientFacts.

(* ===================================================================== *)
(** * Facts about the number of calls of a run                             *)
(* ===================================================================== *)
Module BudgetFacts.
Import JS OpenAI Runner Budget.
Local Open Scope list_scope.

Lemma calls_within_mono {A : Type} (p : prog A) (n n' : nat) :
  calls_within n p -> n <= n' -> calls_within n' p.
Proof.
  intros H. revert n'.
  induction H as [n a|n k _ IH|n request k _ IH|n ms k _ IH]; intros n' Hle.
  - constructor.
  - constructor. intros now. now apply IH.
  - destruct n' as [|n']; [lia|]. constructor. intros answer. apply IH. lia.
  - constructor. now apply IH.
Qed.

Lemma calls_snoc (events : list event) (ev : event) :
  calls (events ++ [ev])
  = calls events + match ev with Called _ _ => 1 | Slept _ => 0 end.
Proof.
  unfold calls. rewrite List.filter_app, length_app.
  destruct ev; reflexivity.
Qed.

Lemma tasks_call_within_snoc (l : list task) (t : task) (n b : nat) :
  tasks_call_within l n -> calls_within b (resume_of (state t)) ->
  tasks_call_within (l ++ [t]) (n + b).
Proof.
  intros Hl Ht. induction Hl as [|t0 l b0 n Hw _ IH].
  - replace (0 + b) with (b + 0) by lia. now repeat constructor.
  - replace (b0 + n + b) with (b0 + (n + b)) by lia. now constructor.
Qed.

Lemma tasks_call_within_delete (l : list task) (n j : nat) :
  tasks_call_within l n ->
  exists n', tasks_call_within (delete j l) n' /\ n' <= n.
Proof.
  intros Hl. revert j. induction Hl as [|t0 l b n Hw Hl IH]; intros j.
  - exists 0. split; [constructor | lia].
  - destruct j as [|j]; cbn.
    + exists n. split; [assumption | lia].
    + destruct (IH j) as (n' & Hn' & Hle).
      exists (b + n'). split; [now constructor | lia].
Qed.

(** A case in flight goes on: it has [spent] calls less to make. *)
Lemma tasks_call_within_insert (l : list task) (n j spent : nat)
  (t t' : task) :
  tasks_call_within l n -> l !! j = Some t ->
  (forall b, calls_within b (resume_of (state t)) ->
             exists b', b' + spent <= b
                        /\ calls_within b' (resume_of (state t'))) ->
  exists n', tasks_call_within (<[j:=t']> l) n' /\ n' + spent <= n.
Proof.
  intros Hl. revert j. induction Hl as [|t0 l b n Hw Hl IH]; intros j Hj Hstep.
  - discriminate.
  - destruct j as [|j]; cbn in *.
    + injection Hj as ->. destruct (Hstep _ Hw) as (b' & Hle & Hw').
      exists (b' + n). split; [now constructor | lia].
    + destruct (IH _ Hj Hstep) as (n' & Hn' & Hle).
      exists (b + n'). split; [now constructor | lia].
Qed.

Section Pool.

Variable Env : Type.
Variable sdk_create : SdkRequest -> Env -> SdkOutcome * Env.
Variable Date_now : Env -> R.
Variable timer : R -> Env -> Env.
Variable options : TestRunnerOptions.
Variable promptA : string.
Variable total : nat.
Variable has_callback : bool.

(** A case calls the client once in each iteration of its loop. *)
Lemma attempts_calls_within (testCase : TestCase.t) (prompt : string)
  (startTime : R) (remaining : nat) :
  forall (attempt : nat) (lastError : option string),
    calls_within remaining
      (attempts options testCase prompt startTime remaining attempt lastError).
Proof.
  induction remaining as [|remaining IH]; intros attempt lastError.
  - cbn. repeat constructor.
  - cbn [attempts]. constructor. intros [response|message].
    + repeat constructor.
    + destruct (Nat.ltb attempt (maxRetries options)).
      * constructor. apply IH.
      * apply IH.
Qed.

Lemma executeTestCase_calls_within (testCase : TestCase.t) :
  calls_within (S (maxRetries options))
    (executeTestCase options testCase promptA).
Proof. constructor. intros now. apply attempts_calls_within. Qed.

Lemma settle_calls_within (p : prog TestCaseResult.t) (e : Env) (b : nat) :
  calls_within b p -> calls_within b (resume_of (settle Env Date_now p e)).
Proof.
  intros H. induction H as [n a|n k _ IH|n request k H _|n ms k H _]; cbn.
  - constructor.
  - apply IH.
  - now constructor.
  - now constructor.
Qed.

Lemma start_next_budget (budget : nat) (p : pool Env) :
  within_budget options Env budget p ->
  within_budget options Env budget
    (start_next options Env Date_now promptA p).
Proof.
  intros (n & Hn & Hle). unfold start_next, within_budget.
  destruct (queue Env p) as [|[i tc] rest] eqn:Hqueue.
  - exists n. rewrite Hqueue. split; assumption.
  - cbn [queue active world length] in *.
    exists (n + S (maxRetries options)). split; [|lia].
    apply tasks_call_within_snoc; [exact Hn|]. cbn [state].
    apply settle_calls_within, executeTestCase_calls_within.
Qed.

Lemma fill_budget (slots budget : nat) (p : pool Env) :
  within_budget options Env budget p ->
  within_budget options Env budget
    (fill options Env Date_now slots promptA p).
Proof.
  revert p. induction slots as [|slots IH]; intros p Hp; [exact Hp|].
  cbn [fill]. now apply IH, start_next_budget.
Qed.

(** A turn of the event loop keeps the budget: a call that is answered
    is one call less to make for its case. *)
Lemma step_budget (budget : nat) (p : pool Env) (choice : nat) :
  within_budget options Env budget p ->
  within_budget options Env budget
    (step options Env sdk_create Date_now timer promptA total has_callback
       p choice).
Proof.
  intros Hp. unfold step.
  destruct (active Env p !! (choice mod length (active Env p))) as [t|] eqn:Hj;
    [|exact Hp].
  destruct Hp as (n & Hn & Hle).
  destruct (state t) as [r|request k|ms k] eqn:Hstate.
  - apply start_next_budget.
    destruct (tasks_call_within_delete _ n
                (choice mod length (active Env p)) Hn) as (n' & Hn' & Hle').
    exists n'. cbn [queue active world]. split; [exact Hn' | lia].
  - destruct (createChatCompletion Env sdk_create request
                (env Env (world Env p))) as [answer e'].
    destruct (tasks_call_within_insert _ n _ 1 t
                {| index := index t; testCase := testCase t;
                   state := settle Env Date_now (k answer) e' |} Hn Hj)
      as (n' & Hn' & Hle').
    { intros b Hb. rewrite Hstate in Hb. cbn in Hb.
      inversion Hb as [| |b' ? ? Hk|]; subst.
      exists b'. split; [lia|]. cbn [state].
      apply settle_calls_within, Hk. }
    exists n'. cbn [queue active world trace]. split; [exact Hn'|].
    rewrite calls_snoc. lia.
  - destruct (tasks_call_within_insert _ n _ 0 t
                {| index := index t; testCase := testCase t;
                   state := settle Env Date_now k
                              (timer ms (env Env (world Env p))) |} Hn Hj)
      as (n' & Hn' & Hle').
    { intros b Hb. rewrite Hstate in Hb. cbn in Hb.
      inversion Hb as [| | |b' ? ? Hk]; subst.
      exists b. split; [lia|]. cbn [state].
      now apply settle_calls_within. }
    exists n'. cbn [queue active world trace]. split; [exact Hn'|].
    rewrite calls_snoc. lia.
Qed.

Lemma schedule_budget (budget : nat) (schedule : list nat) (p : pool Env) :
  within_budget options Env budget p ->
  within_budget options Env budget
    (fold_left
       (step options Env sdk_create Date_now timer promptA total has_callback)
       schedule p).
Proof.
  revert p. induction schedule as [|choice schedule IH]; intros p Hp;
    [exact Hp|].
  cbn [fold_left]. now apply IH, step_budget.
Qed.

End Pool.

Section Run.

Variable Env : Type.
Variable sdk_create : SdkRequest -> Env -> SdkOutcome * Env.
Variable Date_now : Env -> R.
Variable timer : R -> Env -> Env.
Variable options : TestRunnerOptions.
Variable dataset : Dataset.
Variable promptA promptB : string.
Variable w : World Env.

(** X28. Whatever the answers of the provider and the order in which the
    cases go on, a run calls the client at most [maxRetries + 1] times for
    each case of the dataset: at no moment has it made more calls than
    that, and the calls that its started and its queued cases can still
    make fit into what is left. *)
Theorem run_calls_within_budget (has_callback : bool) (schedule : list nat) :
  match run options Env sdk_create Date_now timer has_callback dataset
          promptA promptB schedule w with
  | Resolved _ _ last | Pending _ last =>
      calls (trace Env (world Env last))
      <= calls (trace Env w)
         + length (testCases dataset) * (maxRetries options + 1)
      /\ within_budget options Env
           (calls (trace Env w)
            + length (testCases dataset) * (maxRetries options + 1))
           last
  | Rejected _ _ => concurrency options = 0
  end.
Proof.
  destruct (Nat.eq_dec (concurrency options) 0) as [Hzero|Hpositive].
  { unfold run. now rewrite Hzero. }
  set (budget := calls (trace Env w)
                 + length (testCases dataset) * (maxRetries options + 1)).
  assert (Hstart :
            within_budget options Env budget
              {| queue := imap (fun i tc => (i, tc)) (testCases dataset);
                 active := [];
                 results := replicate (length (testCases dataset)) None;
                 completed := 0;
                 notified := [];
                 world := w |}).
  { exists 0. split; [constructor|]. cbn [queue active world].
    rewrite length_imap. subst budget.
    replace (maxRetries options + 1) with (S (maxRetries options)) by lia.
    lia. }
  assert (Hlast : forall last,
             within_budget options Env budget last ->
             calls (trace Env (world Env last)) <= budget
             /\ within_budget options Env budget last).
  { intros last Hlast. split; [|exact Hlast].
    destruct Hlast as (n & _ & Hle). lia. }
  destruct (ProgressFacts.run_last Env sdk_create Date_now timer options
              dataset promptA promptB w has_callback schedule Hpositive)
    as [-> | (values & -> & _)];
    apply Hlast, schedule_budget, fill_budget, Hstart.
Qed.

End Run.

End BudgetFacts.

(* ===================================================================== *)
(** * Facts about the journal of a run                                     *)
(* ===================================================================== *)
Module JournalFacts.
Import JS OpenAI Runner Journal.
Local Open Scope list_scope.

(** The program and the log determine the result. *)
Lemma replays_functional {A : Type} (p : prog A) (log : list observation)
  (a b : A) :
  replays p log a -> replays p log b -> a = b.
Proof.
  intros Ha. revert b.
  induction Ha as [a|k now log a _ IH|request k answer log a _ IH
                  |ms k log a _ IH]; intros b Hb.
  - now inversion Hb.
  - inversion Hb; subst. now apply IH.
  - inversion Hb; subst. now apply IH.
  - inversion Hb; subst. now apply IH.
Qed.

(** A program that replays a log can return what it returns. *)
Lemma replays_produces {A : Type} (p : prog A) (log : list observation)
  (a : A) :
  replays p log a -> produces p a.
Proof.
  intros H. induction H; econstructor; eassumption.
Qed.

(** *** The observations of one case *)

Lemma of_case_app (i : nat) (j1 j2 : list entry) :
  of_case i (j1 ++ j2) = of_case i j1 ++ of_case i j2.
Proof. unfold of_case. now rewrite filter_app, fmap_app. Qed.

Lemma of_case_own (i : nat) (log : list observation) :
  of_case i ((fun o => (i, o)) <$> log) = log.
Proof.
  unfold of_case. induction log as [|o log IH]; [reflexivity|].
  cbn [fmap list_fmap]. rewrite filter_cons_True by reflexivity.
  cbn. f_equal. exact IH.
Qed.

Lemma of_case_other (i i' : nat) (log : list observation) :
  i' <> i -> of_case i' ((fun o => (i, o)) <$> log) = [].
Proof.
  intros Hne. unfold of_case. induction log as [|o log IH]; [reflexivity|].
  cbn [fmap list_fmap]. rewrite filter_cons_False by (cbn; congruence).
  exact IH.
Qed.

(** The journal grows by observations of the case [i]. *)
Lemma of_case_grow_own (i : nat) (journal : list entry)
  (log : list observation) :
  of_case i (journal ++ ((fun o => (i, o)) <$> log))
  = of_case i journal ++ log.
Proof. now rewrite of_case_app, of_case_own. Qed.

Lemma of_case_grow_other (i i' : nat) (journal : list entry)
  (log : list observation) :
  i' <> i ->
  of_case i' (journal ++ ((fun o => (i, o)) <$> log)) = of_case i' journal.
Proof.
  intros Hne. now rewrite of_case_app, of_case_other, app_nil_r.
Qed.

Lemma events_of_app (j1 j2 : list entry) :
  events_of (j1 ++ j2) = events_of j1 ++ events_of j2.
Proof. apply omap_app. Qed.

Lemma indices_of_queue (cases : list TestCase.t) (f : nat -> nat) :
  (imap (fun i tc => (f i, tc)) cases).*1 = f <$> seq 0 (length cases).
Proof.
  revert f. induction cases as [|tc cases IH]; intros f; [reflexivity|].
  cbn. f_equal. rewrite <- fmap_S_seq, <- list_fmap_compose.
  apply (IH (f ∘ S)).
Qed.

Section World.

Variable options : TestRunnerOptions.
Variable Env : Type.
Variable sdk_create : SdkRequest -> Env -> SdkOutcome * Env.
Variable Date_now : Env -> R.
Variable timer : R -> Env -> Env.
Variable promptA : string.
Variable cases : list TestCase.t.
Variable has_callback : bool.
Variable w0 : World Env.

(** *** What happened *)

Lemma happened_app (e e1 e2 : Env) (j1 j2 : list entry) :
  happened Env sdk_create Date_now timer e j1 e1 ->
  happened Env sdk_create Date_now timer e1 j2 e2 ->
  happened Env sdk_create Date_now timer e (j1 ++ j2) e2.
Proof.
  intros H1 H2. induction H1; cbn; [exact H2|..];
    econstructor; eauto.
Qed.

Lemma happened_readings (i : nat) (p : prog TestCaseResult.t) (e : Env) :
  happened Env sdk_create Date_now timer e
    ((fun o => (i, o)) <$> readings Env Date_now p e) e.
Proof.
  induction p as [a|k IH|request k _|ms k _]; cbn; try constructor.
  apply IH.
Qed.

Lemma events_of_readings (i : nat) (p : prog TestCaseResult.t) (e : Env) :
  events_of ((fun o => (i, o)) <$> readings Env Date_now p e) = [].
Proof.
  induction p as [a|k IH|request k _|ms k _]; cbn; try reflexivity.
  apply IH.
Qed.

(** A case that is resumed after [settle] has read the clock as
    [readings] says. *)
Lemma settle_replays (p : prog TestCaseResult.t) (e : Env)
  (log : list observation) (r : TestCaseResult.t) :
  replays (resume_of (settle Env Date_now p e)) log r ->
  replays p (readings Env Date_now p e ++ log) r.
Proof.
  induction p as [a|k IH|request k _|ms k _]; cbn; intros H.
  - exact H.
  - constructor. apply IH. exact H.
  - exact H.
  - exact H.
Qed.

(** *** The invariant *)

Let track := tracked options Env sdk_create Date_now timer promptA cases w0.
Let sound := pool_sound options Env promptA cases.

Lemma created_tracked :
  track []
    {| queue := imap (fun i tc => (i, tc)) cases;
       active := [];
       results := replicate (length cases) None;
       completed := 0;
       notified := [];
       world := w0 |}.
Proof.
  split; unfold pending; cbn [queue active results world].
  - rewrite fmap_nil, app_nil_r, (indices_of_queue cases (fun i => i)).
    rewrite list_fmap_id. apply NoDup_seq.
  - intros i r Hslot. apply lookup_replicate in Hslot. now destruct Hslot.
  - reflexivity.
  - intros t Hin. now apply elem_of_nil in Hin.
  - intros i r Hslot. apply lookup_replicate in Hslot. now destruct Hslot.
  - constructor.
  - cbn. now rewrite app_nil_r.
Qed.

(** [p-limit] starts the next queued case. *)
Lemma start_next_tracked (journal : list entry) (p : pool Env) :
  sound p -> track journal p ->
  track (journal ++ started_by options Env Date_now promptA p)
    (start_next options Env Date_now promptA p).
Proof.
  intros Hsound [Honce Hsettled Hqueue Hactive Hresults Hworld Htrace].
  unfold started_by, start_next, pending in *.
  destruct (queue Env p) as [|[i tc] rest] eqn:Hq.
  { rewrite app_nil_r. split; unfold pending; rewrite ?Hq; assumption. }
  cbn [fmap list_fmap fst] in Honce, Hsettled, Hqueue.
  set (obs := readings Env Date_now (executeTestCase options tc promptA)
                (env Env (world Env p))).
  assert (Hperm : rest.*1 ++ (index <$> active Env p ++
                    [ {| index := i; testCase := tc;
                         state := settle Env Date_now
                                    (executeTestCase options tc promptA)
                                    (env Env (world Env p)) |} ])
                  ≡ₚ i :: rest.*1 ++ (index <$> active Env p)).
  { rewrite fmap_app. cbn [fmap list_fmap index].
    rewrite app_assoc, <- Permutation_cons_append. reflexivity. }
  apply NoDup_cons in Honce as Hfresh. destruct Hfresh as [Hfresh Hrest].
  split; unfold pending; cbn [queue active results world].
  - now rewrite Hperm.
  - intros i' r Hslot. rewrite Hperm. now apply Hsettled in Hslot.
  - intros i' Hin. rewrite of_case_grow_other.
    + apply Hqueue. now right.
    + intros ->. apply Hfresh. apply elem_of_app. now left.
  - intros t Hin log r Hr. apply elem_of_app in Hin. destruct Hin as [Hin|Hin].
    + rewrite of_case_grow_other; [now apply Hactive|].
      intros Heq. apply Hfresh. apply elem_of_app. right.
      rewrite <- Heq. apply list_elem_of_fmap. now exists t.
    + apply list_elem_of_singleton in Hin. subst t. cbn [index testCase state] in *.
      rewrite of_case_grow_own, (Hqueue i) by now left.
      cbn [app]. now apply settle_replays.
  - intros i' r Hslot. destruct (Hresults i' r Hslot) as (tc' & Hcase & Hr).
    exists tc'. split; [exact Hcase|].
    rewrite of_case_grow_other; [exact Hr|].
    intros ->. apply (Hsettled i r Hslot). now left.
  - rewrite <- (app_nil_r journal) at 1. apply happened_app with (env Env (world Env p)).
    + now rewrite app_nil_r.
    + apply happened_readings.
  - rewrite events_of_app. fold obs.
    unfold obs. now rewrite events_of_readings, app_nil_r.
Qed.

Lemma fill_tracked (slots : nat) (journal : list entry) (p : pool Env) :
  sound p -> track journal p ->
  track (journal ++ filled_by options Env Date_now slots promptA p)
    (fill options Env Date_now slots promptA p).
Proof.
  revert journal p. induction slots as [|slots IH]; intros journal p Hs Ht.
  - cbn. now rewrite app_nil_r.
  - cbn [filled_by fill]. rewrite app_assoc. apply IH.
    + apply (PoolFacts.start_next_ok Env Date_now options promptA cases p Hs).
    + now apply start_next_tracked.
Qed.

(** A case in flight settles its promise: its slot is filled with what
    it returned on what it observed. *)
Lemma finish_tracked (journal : list entry) (p : pool Env) (j : nat)
  (t : task) (r : TestCaseResult.t) (c : nat)
  (nt : list (nat * nat * string)) :
  sound p -> track journal p ->
  active Env p !! j = Some t -> state t = Finished r ->
  track journal
    {| queue := queue Env p;
       active := delete j (active Env p);
       results := <[index t := Some r]> (results Env p);
       completed := c;
       notified := nt;
       world := world Env p |}.
Proof.
  intros Hsound [Honce Hsettled Hqueue Hactive Hresults Hworld Htrace] Hj Hstate.
  assert (Ht : t ∈ active Env p) by (eapply list_elem_of_lookup_2; eassumption).
  assert (Hperm : pending Env p
                  ≡ₚ index t :: (queue Env p).*1
                       ++ (index <$> delete j (active Env p))).
  { unfold pending. rewrite (delete_Permutation _ _ _ Hj) at 1.
    cbn [fmap list_fmap]. now rewrite <- Permutation_middle. }
  rewrite Hperm in Honce. apply NoDup_cons in Honce as [Hfresh Hrest].
  split; unfold pending; cbn [queue active results world]; try assumption.
  - intros i r' Hslot. apply list_lookup_insert_Some in Hslot.
    destruct Hslot as [(<- & _ & _) | (_ & Hslot)]; [exact Hfresh|].
    intros Hin. apply (Hsettled i r' Hslot). rewrite Hperm. now right.
  - intros t0 Hin. apply Hactive. eapply list_elem_of_delete_inv. eassumption.
  - intros i r' Hslot. apply list_lookup_insert_Some in Hslot.
    destruct Hslot as [(<- & [= <-] & _) | (_ & Hslot)];
      [|now apply Hresults].
    exists (testCase t). split.
    + now apply (sound_active _ _ _ _ _ Hsound t Ht).
    + rewrite <- (app_nil_r (of_case (index t) journal)).
      apply Hactive; [exact Ht|]. rewrite Hstate. constructor.
Qed.

(** A case in flight goes on after an answer or a timer, with what it
    observes up to its next [await]. *)
Lemma replace_tracked (journal : list entry) (p : pool Env) (j : nat)
  (t : task) (s' : suspended) (obs : list observation) (c : nat)
  (nt : list (nat * nat * string)) (w' : World Env) :
  track journal p ->
  active Env p !! j = Some t ->
  (forall log r,
      replays (resume_of s') log r ->
      replays (resume_of (state t)) (obs ++ log) r) ->
  happened Env sdk_create Date_now timer (env Env (world Env p))
    ((fun o => (index t, o)) <$> obs) (env Env w') ->
  trace Env w'
  = trace Env (world Env p) ++ events_of ((fun o => (index t, o)) <$> obs) ->
  track (journal ++ ((fun o => (index t, o)) <$> obs))
    {| queue := queue Env p;
       active := <[j := {| index := index t; testCase := testCase t;
                           state := s' |}]> (active Env p);
       results := results Env p;
       completed := c;
       notified := nt;
       world := w' |}.
Proof.
  intros [Honce Hsettled Hqueue Hactive Hresults Hworld Htrace] Hj Hnext
    Hhappened Hevents.
  assert (Ht : t ∈ active Env p) by (eapply list_elem_of_lookup_2; eassumption).
  assert (Hsame : index <$> <[j := {| index := index t; testCase := testCase t;
                                      state := s' |}]> (active Env p)
                  = index <$> active Env p).
  { rewrite list_fmap_insert. cbn [index]. apply list_insert_id.
    now rewrite list_lookup_fmap, Hj. }
  assert (Hin : index t ∈ index <$> active Env p).
  { apply list_elem_of_fmap. now exists t. }
  unfold pending in *. apply NoDup_app in Honce as Hparts.
  destruct Hparts as (_ & Hapart & Hflight).
  split; unfold pending; cbn [queue active results world]; rewrite ?Hsame.
  - exact Honce.
  - exact Hsettled.
  - intros i Hi. rewrite of_case_grow_other; [now apply Hqueue|].
    intros ->. now apply (Hapart _ Hi).
  - intros t0 Hin0 log r Hr. apply list_elem_of_lookup in Hin0.
    destruct Hin0 as [j0 Hj0]. apply list_lookup_insert_Some in Hj0.
    destruct Hj0 as [(<- & <- & _) | (Hne & Hj0)]; cbn [index testCase state] in *.
    + rewrite of_case_grow_own, <- app_assoc.
      apply Hactive; [exact Ht|]. now apply Hnext.
    + rewrite of_case_grow_other.
      * apply Hactive; [|exact Hr]. eapply list_elem_of_lookup_2. eassumption.
      * intros Heq. apply Hne.
        apply (NoDup_lookup _ _ _ (index t) Hflight);
          rewrite list_lookup_fmap;
          [now rewrite Hj | rewrite Hj0; cbn; now rewrite Heq].
  - intros i r Hslot. destruct (Hresults i r Hslot) as (tc & Hcase & Hr).
    exists tc. split; [exact Hcase|].
    rewrite of_case_grow_other; [exact Hr|].
    intros ->. apply (Hsettled _ _ Hslot). apply elem_of_app. now right.
  - eapply happened_app; eassumption.
  - now rewrite Hevents, Htrace, events_of_app, app_assoc.
Qed.

(** One turn of the event loop. *)
Lemma step_tracked (journal : list entry) (p : pool Env) (choice : nat) :
  sound p -> track journal p ->
  track
    (journal
     ++ stepped_by options Env sdk_create Date_now timer promptA p choice)
    (step options Env sdk_create Date_now timer promptA (length cases)
       has_callback p choice).
Proof.
  intros Hsound Htrack. unfold step, stepped_by.
  destruct (active Env p !! (choice mod length (active Env p))) as [t|] eqn:Hj;
    [|now rewrite app_nil_r].
  destruct (state t) as [r|request k|ms k] eqn:Hstate.
  - apply (start_next_tracked journal
             {| queue := queue Env p;
                active := delete (choice mod length (active Env p))
                            (active Env p);
                results := <[index t := Some r]> (results Env p);
                completed := S (completed Env p);
                notified :=
                  if has_callback
                  then notified Env p
                       ++ [(S (completed Env p), length cases,
                            TestCase.name (testCase t))]
                  else notified Env p;
                world := world Env p |}).
    + now apply PoolFacts.finish_sound.
    + now apply finish_tracked.
  - destruct (createChatCompletion Env sdk_create request
                (env Env (world Env p))) as [answer e'] eqn:Hcall.
    apply (replace_tracked journal p _ t _
             (Answered request answer :: readings Env Date_now (k answer) e'));
      [exact Htrack | exact Hj | | |].
    + intros log r Hr. rewrite Hstate. cbn. constructor.
      now apply settle_replays.
    + cbn. econstructor; [exact Hcall|]. apply happened_readings.
    + cbn. unfold events_of. cbn. f_equal. f_equal.
      symmetry. apply events_of_readings.
  - apply (replace_tracked journal p _ t _
             (Fired ms :: readings Env Date_now k
                            (timer ms (env Env (world Env p)))));
      [exact Htrack | exact Hj | | |].
    + intros log r Hr. rewrite Hstate. cbn. constructor.
      now apply settle_replays.
    + cbn. econstructor. apply happened_readings.
    + cbn. unfold events_of. cbn. f_equal. f_equal.
      symmetry. apply events_of_readings.
Qed.

Lemma schedule_tracked (schedule : list nat) (journal : list entry)
  (p : pool Env) :
  pool_ok options Env promptA cases p -> track journal p ->
  track
    (journal
     ++ journal_of options Env sdk_create Date_now timer promptA
          (length cases) has_callback schedule p)
    (fold_left
       (step options Env sdk_create Date_now timer promptA (length cases)
          has_callback)
       schedule p).
Proof.
  revert journal p.
  induction schedule as [|choice schedule IH]; intros journal p Hok Ht.
  - cbn. now rewrite app_nil_r.
  - cbn [journal_of fold_left]. rewrite app_assoc. apply IH.
    + now apply PoolFacts.step_ok.
    + apply step_tracked; [exact (proj1 Hok) | exact Ht].
Qed.

End World.

Section Run.

Variable Env : Type.
Variable sdk_create : SdkRequest -> Env -> SdkOutcome * Env.
Variable Date_now : Env -> R.
Variable timer : R -> Env -> Env.
Variable options : TestRunnerOptions.
Variable has_callback : bool.
Variable dataset : Dataset.
Variable promptA : string.
Variable w : World Env.

(** C4. With a limit of concurrency of at least 1, a resolved run has one
    result per case of the dataset, and the result at an index is the
    result of executing the case at that index: it carries the name of
    the case, and it is what [executeTestCase] returns for that case on
    the clock readings, the answers of the client and the timers that the
    case itself observed during the run, and nothing else is. What the
    cases observed is the journal of the run: its observations were made
    in this order against the clock and the provider, from the world in
    which the run started to the one in which it ended, and its calls and
    timers are those that the run added to the trace. This holds whatever
    the order in which the cases went on and were settled; and the run is
    resolved once the schedule has given every case the turns it needs. *)
Theorem run_results_replay_the_cases (promptB : string)
  (schedule : list nat) :
  1 <= concurrency options ->
  let journal :=
    run_journal options Env sdk_create Date_now timer has_callback dataset
      promptA schedule w in
  (forall value final,
      run options Env sdk_create Date_now timer has_callback dataset
        promptA promptB schedule w = Resolved Env value final ->
      length (vr_testCases value) = length (testCases dataset)
      /\ happened Env sdk_create Date_now timer (env Env w) journal
           (env Env (world Env final))
      /\ trace Env (world Env final) = trace Env w ++ events_of journal
      /\ forall i tc, testCases dataset !! i = Some tc ->
           exists r,
             vr_testCases value !! i = Some r
             /\ TestCaseResult.name r = TestCase.name tc
             /\ replays (executeTestCase options tc promptA)
                  (of_case i journal) r
             /\ forall r',
                 replays (executeTestCase options tc promptA)
                   (of_case i journal) r' ->
                 r' = r)
  /\ (length (testCases dataset) * (2 * maxRetries options + 3)
      <= length schedule ->
      exists value final,
        run options Env sdk_create Date_now timer has_callback dataset
          promptA promptB schedule w = Resolved Env value final).
Proof.
  intros Hlimit journal.
  destruct (PoolFacts.run_results_cover_the_dataset Env sdk_create Date_now
              timer options has_callback dataset promptA w promptB schedule
              Hlimit) as [Hordered Hresolved].
  split; [|exact Hresolved].
  intros value final Hrun.
  destruct (Hordered value final Hrun) as [Hlength Hcases].
  split; [exact Hlength|].
  unfold run in Hrun.
  assert (Hpositive : Nat.eqb (concurrency options) 0 = false)
    by (apply Nat.eqb_neq; lia).
  rewrite Hpositive in Hrun.
  set (created := {| queue := imap (fun i tc => (i, tc)) (testCases dataset);
                     active := [];
                     results := replicate (length (testCases dataset)) None;
                     completed := 0;
                     notified := [];
                     world := w |}) in *.
  set (started := fill options Env Date_now (concurrency options) promptA
                    created) in *.
  set (last := fold_left _ schedule started) in *.
  assert (Htracked : tracked options Env sdk_create Date_now timer promptA
                       (testCases dataset) w journal last).
  { subst journal. unfold run_journal. fold created. fold started.
    apply schedule_tracked.
    - apply PoolFacts.fill_ok; [apply PoolFacts.created_sound | exact Hlimit].
    - apply (fill_tracked options Env sdk_create Date_now timer promptA
               (testCases dataset) w (concurrency options) [] created).
      + apply PoolFacts.created_sound.
      + apply created_tracked. }
  destruct (queue Env last) eqn:Hqueue; [|discriminate].
  destruct (active Env last) eqn:Hactive; [|discriminate].
  destruct (collect (results Env last)) as [values|] eqn:Hvalues;
    [|discriminate].
  injection Hrun as <- <-. cbn [vr_testCases] in *.
  apply PoolFacts.collect_inv in Hvalues.
  destruct Htracked as [_ _ _ _ Hresults Hworld Htrace].
  split; [exact Hworld|]. split; [exact Htrace|].
  intros i tc Hcase. destruct (Hcases i tc Hcase) as (r & Hr & Hname & _).
  exists r. split; [exact Hr|]. split; [exact Hname|].
  destruct (Hresults i r) as (tc' & Hcase' & Hreplay).
  { now rewrite Hvalues, list_lookup_fmap, Hr. }
  assert (tc' = tc) as -> by congruence.
  split; [exact Hreplay|].
  intros r' Hr'. exact (replays_functional _ _ _ _ Hr' Hreplay).
Qed.

End Run.

(** C4 in the scenario: two cases, a limit of 2, and a schedule of 14
    turns in which the second case is settled first. *)
Lemma run_results_replay_the_cases_example :
  1 <= concurrency RunnerScenario.options
  /\ length (testCases RunnerScenario.two_cases)
     * (2 * maxRetries RunnerScenario.options + 3)
     <= length RunnerScenario.second_first
  /\ exists value final,
      run RunnerScenario.options _
        (RunnerScenario.provider RunnerScenario.answers)
        RunnerScenario.Date_now RunnerScenario.timer true
        RunnerScenario.two_cases "{{query}}" "unused"
        RunnerScenario.second_first RunnerScenario.midnight
      = Resolved _ value final
      /\ length (vr_testCases value) = 2
      /\ trace _ (world _ final)
         = trace _ RunnerScenario.midnight
           ++ events_of
                (run_journal RunnerScenario.options _
                   (RunnerScenario.provider RunnerScenario.answers)
                   RunnerScenario.Date_now RunnerScenario.timer true
                   RunnerScenario.two_cases "{{query}}"
                   RunnerScenario.second_first RunnerScenario.midnight).
Proof.
  assert (Hlimit : 1 <= concurrency RunnerScenario.options) by (cbn; lia).
  assert (Hturns : length (testCases RunnerScenario.two_cases)
                   * (2 * maxRetries RunnerScenario.options + 3)
                   <= length RunnerScenario.second_first) by (cbn; lia).
  destruct (run_results_replay_the_cases _
              (RunnerScenario.provider RunnerScenario.answers)
              RunnerScenario.Date_now RunnerScenario.timer
              RunnerScenario.options true RunnerScenario.two_cases "{{query}}"
              RunnerScenario.midnight "unused" RunnerScenario.second_first
              Hlimit) as [Hreplayed Hresolved].
  destruct (Hresolved Hturns) as (value & final & Hrun).
  split; [exact Hlimit|]. split; [exact Hturns|].
  exists value, final. split; [exact Hrun|].
  destruct (Hreplayed _ _ Hrun) as (Hlength & _ & Htrace & _).
  split; [exact Hlength | exact Htrace].
Defined.

(** In that run the observations alternate between the two cases: the
    first case reads the clock, the second one reads it, is answered and
    reads it again, and then the first one is answered and reads the
    clock; the two answers are the two calls of the trace. *)
Lemma journal_example :
  let journal :=
    run_journal RunnerScenario.options _
      (RunnerScenario.provider RunnerScenario.answers)
      RunnerScenario.Date_now RunnerScenario.timer true
      RunnerScenario.two_cases "{{query}}"
      RunnerScenario.second_first RunnerScenario.midnight in
  journal.*1 = [0; 1; 1; 1; 0; 0]
  /\ length (of_case 0 journal) = 3
  /\ length (of_case 1 journal) = 3
  /\ calls (events_of journal) = 2.
Proof. vm_compute. repeat split. Qed.

(** The records of that run are those of this interleaving: a call takes
    50 ms of the clock, the second case is answered first, after 50 ms,
    and the first case, answered next, has waited 100 ms. *)
Lemma interleaved_latencies_example :
  match
    run RunnerScenario.options _
      (RunnerScenario.provider RunnerScenario.answers)
      RunnerScenario.Date_now RunnerScenario.timer true
      RunnerScenario.two_cases "{{query}}" "unused"
      RunnerScenario.second_first RunnerScenario.midnight
  with
  | Resolved _ value final =>
      List.map TestCaseResult.latency (vr_testCases value)
      = [100%R; 50%R]
  | _ => False
  end.
Proof. vm_compute. f_equal; [lra | f_equal; lra]. Qed.

End JournalFacts.
